(** * PLASMA tile runtime: descriptors, layout translation, task emission

    A shallow embedding of the tile descriptor algebra
    ([include/plasma_descriptor.h]), the layout translators
    ([compute/pdge2desc.c], [compute/pzoocm2ccrb_band.c]), the GEMM task
    generator ([compute/pzgemm.c]), the asynchronous entry point of TRMM
    ([compute/ztrmm.c]) and the task bodies of [core_blas/].

    C [int] and [size_t] values are integers of [Z].  The tile addressing
    of [plasma_descriptor.h] and the indices of the layout translation are
    modelled with the widths of their types: an [int] expression wraps
    around at 32 bits, arithmetic in [size_t] at 64.  C's [/] and [%]
    truncate toward zero: they are [Z.quot] and [Z.rem] (stdpp's [`quot`]
    and [`rem`]). *)

From Stdlib Require Import ZArith Lia Floats Reals Lra.
From stdpp Require Import base option list gmap.

Local Open Scope Z_scope.

(** ** Enumerations and status codes

    [plasma_types.h] is not among the sources.  [plasma_enum_t] is an [int]
    in C; every named constant the sources mention is a constructor here,
    so a caller can still pass a constant of the wrong family (an illegal
    [side], say). *)

Inductive plasma_enum_t : Set :=
| PlasmaByte | PlasmaInteger | PlasmaRealFloat | PlasmaRealDouble
| PlasmaComplexFloat | PlasmaComplexDouble
| PlasmaNoTrans | PlasmaTrans | PlasmaConjTrans
| PlasmaUpper | PlasmaLower | PlasmaGeneral | PlasmaGeneralBand
| PlasmaNonUnit | PlasmaUnit
| PlasmaLeft | PlasmaRight.

#[global] Instance plasma_enum_eq_dec : EqDecision plasma_enum_t.
Proof. solve_decision. Defined.

(** [imax] and [imin] of [plasma_internal.h]. *)
Definition imax (a b : Z) : Z := if a <? b then b else a.
Definition imin (a b : Z) : Z := if a <? b then a else b.

(** ** Tile descriptor ([plasma_desc_t]) *)

Module Desc.
Record t : Set := mk {
  type : plasma_enum_t;      (* general, general band *)
  uplo : plasma_enum_t;      (* upper, lower, general *)
  precision : plasma_enum_t; (* precision of the matrix *)
  matrix : Z;                (* address of the beginning of the matrix *)
  A21 : Z;                   (* offset of the beginning of A21 *)
  A12 : Z;                   (* offset of the beginning of A12 *)
  A22 : Z;                   (* offset of the beginning of A22 *)
  mb : Z; nb : Z;            (* rows, columns in a tile *)
  lm : Z; ln : Z;            (* rows, columns of the entire matrix *)
  lmt : Z; lnt : Z;          (* tile rows, tile columns of the entire matrix *)
  i : Z; j : Z;              (* origin of the submatrix *)
  m : Z; n : Z;              (* extents of the submatrix *)
  mt : Z; nt : Z;            (* tile rows, tile columns of the submatrix *)
  kl : Z; ku : Z;            (* band: rows below, above the diagonal *)
  klt : Z; kut : Z           (* band: tile rows below, above the diagonal tile *)
}.
End Desc.

Abbreviation plasma_desc_t := Desc.t.

(** [plasma_element_size]; [None] is the [assert(0)] of the default case.
    [sizeof(int)] and [sizeof(float)] are 4, [sizeof(double)] is 8. *)
Definition plasma_element_size (type : plasma_enum_t) : option Z :=
  match type with
  | PlasmaByte => Some 1
  | PlasmaInteger => Some 4
  | PlasmaRealFloat => Some 4
  | PlasmaRealDouble => Some 8
  | PlasmaComplexFloat => Some (2 * 4)
  | PlasmaComplexDouble => Some (2 * 8)
  | _ => None
  end.

(** C's [int] has 32 bits and [size_t] has 64.  [int_wrap x] is the [int]
    that an [int] operation leaves when its result is [x]: [x] itself in
    the range of [int], and [x] reduced modulo [2^32] to that range
    outside of it.  [size_t_wrap x] is the result [x] of an operation in
    [size_t], modulo [2^64]; an [int] operand of such an operation is
    converted to [size_t] first, which is again a reduction modulo
    [2^64]. *)
Definition INT_MAX : Z := 2 ^ 31 - 1.
Definition int_wrap (x : Z) : Z := (x + 2 ^ 31) `mod` 2 ^ 32 - 2 ^ 31.
Definition size_t_wrap (x : Z) : Z := x `mod` 2 ^ 64.

(** The local [offset] of [plasma_tile_addr_general], in elements.  In
    [A.mb*A.nb*(mm + (size_t)lm1 * nn)] the product [A.mb*A.nb] is a
    product of two [int]s; the other products and the sums are in
    [size_t]. *)
Definition tile_offset_general (A : plasma_desc_t) (m n : Z) : Z :=
  let mm := int_wrap (m + Desc.i A `quot` Desc.mb A) in
  let nn := int_wrap (n + Desc.j A `quot` Desc.nb A) in
  let lm1 := Desc.lm A `quot` Desc.mb A in
  let ln1 := Desc.ln A `quot` Desc.nb A in
  if mm <? lm1 then
    if nn <? ln1 then
      size_t_wrap (int_wrap (Desc.mb A * Desc.nb A)
                   * size_t_wrap (mm + size_t_wrap (lm1 * nn)))
    else
      size_t_wrap
        (Desc.A12 A
         + size_t_wrap
             (size_t_wrap (Desc.mb A * (Desc.ln A `rem` Desc.nb A)) * mm))
  else
    if nn <? ln1 then
      size_t_wrap
        (Desc.A21 A
         + size_t_wrap
             (size_t_wrap (Desc.nb A * (Desc.lm A `rem` Desc.mb A)) * nn))
    else Desc.A22 A.

Definition plasma_tile_addr_general (A : plasma_desc_t) (m n : Z) : option Z :=
  eltsize ← plasma_element_size (Desc.precision A);
  Some (Desc.matrix A + size_t_wrap (tile_offset_general A m n * eltsize)).

(** The [kut] that [plasma_tile_addr_general_band] and [BLKLDD_BAND]
    recompute from [uplo]. *)
Definition band_kut (uplo : plasma_enum_t) (A : plasma_desc_t) : Z :=
  if decide (uplo = PlasmaGeneral) then
    (Desc.kl A + Desc.kl A + Desc.nb A - 1) `quot` Desc.nb A
  else if decide (uplo = PlasmaUpper) then
    (Desc.ku A + Desc.nb A - 1) `quot` Desc.nb A
  else 0.

Definition plasma_tile_addr_general_band (A : plasma_desc_t) (m n : Z)
  : option Z :=
  plasma_tile_addr_general A (band_kut (Desc.uplo A) A + m - n) n.

(** [plasma_tile_addr]; [None] also stands for [plasma_fatal_error]. *)
Definition plasma_tile_addr (A : plasma_desc_t) (m n : Z) : option Z :=
  if decide (Desc.type A = PlasmaGeneral) then plasma_tile_addr_general A m n
  else if decide (Desc.type A = PlasmaGeneralBand)
       then plasma_tile_addr_general_band A m n
       else None.

Definition plasma_tile_mmain (A : plasma_desc_t) (k : Z) : Z :=
  if Desc.i A `quot` Desc.mb A + k <? Desc.lm A `quot` Desc.mb A
  then Desc.mb A else Desc.lm A `rem` Desc.mb A.

Definition plasma_tile_nmain (A : plasma_desc_t) (k : Z) : Z :=
  if Desc.j A `quot` Desc.nb A + k <? Desc.ln A `quot` Desc.nb A
  then Desc.nb A else Desc.ln A `rem` Desc.nb A.

Definition plasma_tile_mview (A : plasma_desc_t) (k : Z) : Z :=
  if Desc.i A `quot` Desc.mb A + k <? Desc.m A `quot` Desc.mb A
  then Desc.mb A else Desc.m A `rem` Desc.mb A.

Definition plasma_tile_nview (A : plasma_desc_t) (k : Z) : Z :=
  if Desc.j A `quot` Desc.nb A + k <? Desc.n A `quot` Desc.nb A
  then Desc.nb A else Desc.n A `rem` Desc.nb A.

Definition BLKLDD_BAND (uplo : plasma_enum_t) (A : plasma_desc_t) (m n : Z)
  : Z :=
  plasma_tile_mmain A (band_kut uplo A + m - n).

(** ** Well-formed general descriptors

    [plasma_desc_general_init] and [plasma_desc_general_check] are declared
    in [plasma_descriptor.h]; their bodies are not among the sources. *)

(** Modelled from the spec: the body of [plasma_desc_general_init] is
    missing.  Section 3.1: [lmt = ceil(lm/mb)], [lnt = ceil(ln/nb)],
    [mt = ceil((i mod mb + m)/mb)], [nt = ceil((j mod nb + n)/nb)]; section 6:
    four contiguous zones, interior full-size tiles first, then (in the order
    of the struct's offset fields [A21], [A12], [A22]) the bottom strip of
    [(lm mod mb) x nb] tiles, the right strip of [mb x (ln mod nb)] tiles and
    the corner tile. *)
Definition plasma_desc_general_init (precision : plasma_enum_t) (matrix : Z)
    (mb nb lm ln i j m n : Z) : plasma_desc_t :=
  let A21 := (lm - lm `rem` mb) * (ln - ln `rem` nb) in
  let A12 := (lm `rem` mb) * (ln - ln `rem` nb) + A21 in
  let A22 := (lm - lm `rem` mb) * (ln `rem` nb) + A12 in
  {| Desc.type := PlasmaGeneral; Desc.uplo := PlasmaGeneral;
     Desc.precision := precision; Desc.matrix := matrix;
     Desc.A21 := A21; Desc.A12 := A12; Desc.A22 := A22;
     Desc.mb := mb; Desc.nb := nb; Desc.lm := lm; Desc.ln := ln;
     Desc.lmt := (lm + mb - 1) `quot` mb;
     Desc.lnt := (ln + nb - 1) `quot` nb;
     Desc.i := i; Desc.j := j; Desc.m := m; Desc.n := n;
     Desc.mt := (i `rem` mb + m + mb - 1) `quot` mb;
     Desc.nt := (j `rem` nb + n + nb - 1) `quot` nb;
     Desc.kl := 0; Desc.ku := 0; Desc.klt := 0; Desc.kut := 0 |}.

(** Modelled from the spec: the body of [plasma_desc_general_check] is
    missing.  Section 3.1, invariants: [mb >= 1], [nb >= 1]; [0 <= i],
    [0 <= j]; [i+m <= lm]; [j+n <= ln] (extents are not negative). *)
Definition plasma_desc_general_check (A : plasma_desc_t) : bool :=
  (1 <=? Desc.mb A) && (1 <=? Desc.nb A)
  && (0 <=? Desc.i A) && (0 <=? Desc.j A)
  && (0 <=? Desc.m A) && (0 <=? Desc.n A)
  && (Desc.i A + Desc.m A <=? Desc.lm A)
  && (Desc.j A + Desc.n A <=? Desc.ln A).

(** A valid general descriptor: of type general, with an element size,
    passing the check, and with the derived fields (tile counts, zone
    offsets) that [plasma_desc_general_init] gives them. *)
Definition general_desc_valid (A : plasma_desc_t) : bool :=
  let B := plasma_desc_general_init (Desc.precision A) (Desc.matrix A)
             (Desc.mb A) (Desc.nb A) (Desc.lm A) (Desc.ln A)
             (Desc.i A) (Desc.j A) (Desc.m A) (Desc.n A) in
  bool_decide (Desc.type A = PlasmaGeneral)
  && bool_decide (is_Some (plasma_element_size (Desc.precision A)))
  && plasma_desc_general_check A
  && (Desc.lmt A =? Desc.lmt B) && (Desc.lnt A =? Desc.lnt B)
  && (Desc.mt A =? Desc.mt B) && (Desc.nt A =? Desc.nt B)
  && (Desc.A21 A =? Desc.A21 B) && (Desc.A12 A =? Desc.A12 B)
  && (Desc.A22 A =? Desc.A22 B).

(** The same, as the propositions the proofs use. *)
Record general_desc_wf (A : plasma_desc_t) : Prop := {
  wf_type : Desc.type A = PlasmaGeneral;
  wf_eltsize : exists sz, plasma_element_size (Desc.precision A) = Some sz
                          /\ 1 <= sz;
  wf_mb : 1 <= Desc.mb A;
  wf_nb : 1 <= Desc.nb A;
  wf_i : 0 <= Desc.i A;
  wf_j : 0 <= Desc.j A;
  wf_m : 0 <= Desc.m A;
  wf_n : 0 <= Desc.n A;
  wf_im : Desc.i A + Desc.m A <= Desc.lm A;
  wf_jn : Desc.j A + Desc.n A <= Desc.ln A;
  wf_lmt : Desc.lmt A = (Desc.lm A + Desc.mb A - 1) `quot` Desc.mb A;
  wf_lnt : Desc.lnt A = (Desc.ln A + Desc.nb A - 1) `quot` Desc.nb A;
  wf_mt : Desc.mt A
          = (Desc.i A `rem` Desc.mb A + Desc.m A + Desc.mb A - 1)
              `quot` Desc.mb A;
  wf_nt : Desc.nt A
          = (Desc.j A `rem` Desc.nb A + Desc.n A + Desc.nb A - 1)
              `quot` Desc.nb A;
  wf_A21 : Desc.A21 A
           = (Desc.lm A - Desc.lm A `rem` Desc.mb A)
             * (Desc.ln A - Desc.ln A `rem` Desc.nb A);
  wf_A12 : Desc.A12 A
           = (Desc.lm A `rem` Desc.mb A)
             * (Desc.ln A - Desc.ln A `rem` Desc.nb A) + Desc.A21 A;
  wf_A22 : Desc.A22 A
           = (Desc.lm A - Desc.lm A `rem` Desc.mb A)
             * (Desc.ln A `rem` Desc.nb A) + Desc.A12 A
}.

Lemma element_size_pos (p : plasma_enum_t) (sz : Z) :
  plasma_element_size p = Some sz -> 1 <= sz.
Proof. destruct p; simpl; intros [= <-]; lia. Qed.

Lemma general_desc_valid_wf (A : plasma_desc_t) :
  general_desc_valid A = true -> general_desc_wf A.
Proof.
  unfold general_desc_valid, plasma_desc_general_check; cbn [Desc.lmt Desc.lnt
    Desc.mt Desc.nt Desc.A21 Desc.A12 Desc.A22 plasma_desc_general_init].
  rewrite !andb_true_iff, !bool_decide_eq_true.
  rewrite !Z.leb_le, !Z.eqb_eq.
  intros [[[[[[[[[Ht [sz Hsz]] Hc] ?] ?] ?] ?] ?] ?] ?].
  destruct Hc as [[[[[[[? ?] ?] ?] ?] ?] ?] ?].
  split; try assumption; try lia.
  exists sz; split; [assumption | eauto using element_size_pos].
Qed.

Lemma general_init_valid (p : plasma_enum_t) (a mb nb lm ln i j m n : Z) :
  is_Some (plasma_element_size p) ->
  1 <= mb -> 1 <= nb -> 0 <= i -> 0 <= j -> 0 <= m -> 0 <= n ->
  i + m <= lm -> j + n <= ln ->
  general_desc_valid (plasma_desc_general_init p a mb nb lm ln i j m n) = true.
Proof.
  intros Hp ? ? ? ? ? ? ? ?.
  unfold general_desc_valid, plasma_desc_general_check; cbn.
  rewrite !andb_true_iff, !bool_decide_eq_true, !Z.leb_le, !Z.eqb_eq.
  repeat split; try assumption; reflexivity.
Qed.

(** *** Descriptors that fit the machine *)

(** The offset of [plasma_tile_addr_general] as a number: what
    [tile_offset_general] computes when no operation of it wraps
    around. *)
Definition tile_offset_exact (A : plasma_desc_t) (m n : Z) : Z :=
  let mm := m + Desc.i A `quot` Desc.mb A in
  let nn := n + Desc.j A `quot` Desc.nb A in
  let lm1 := Desc.lm A `quot` Desc.mb A in
  let ln1 := Desc.ln A `quot` Desc.nb A in
  if mm <? lm1 then
    if nn <? ln1 then Desc.mb A * Desc.nb A * (mm + lm1 * nn)
    else Desc.A12 A + Desc.mb A * (Desc.ln A `rem` Desc.nb A) * mm
  else
    if nn <? ln1 then Desc.A21 A + Desc.nb A * (Desc.lm A `rem` Desc.mb A) * nn
    else Desc.A22 A.

(** The extents of the matrix are [int]s, the number [mb * nb] of
    elements of a full tile is an [int], and the store of [lm * ln]
    elements is smaller than the address space. *)
Definition desc_in_machine_range (A : plasma_desc_t) : bool :=
  (Desc.lm A <=? INT_MAX) && (Desc.ln A <=? INT_MAX)
  && (Desc.mb A * Desc.nb A <=? INT_MAX)
  && match plasma_element_size (Desc.precision A) with
     | Some eltsize => Desc.lm A * Desc.ln A * eltsize <? 2 ^ 64
     | None => false
     end.

Lemma int_wrap_small (x : Z) : - 2 ^ 31 <= x <= INT_MAX -> int_wrap x = x.
Proof.
  unfold int_wrap, INT_MAX. intros Hx. rewrite Z.mod_small; lia.
Qed.

Lemma size_t_wrap_small (x : Z) : 0 <= x < 2 ^ 64 -> size_t_wrap x = x.
Proof. apply Z.mod_small. Qed.

Lemma mul_le_square (a b c d : Z) :
  0 <= a <= c -> 0 <= b <= d -> 0 <= a * b <= c * d.
Proof.
  intros Ha Hb.
  split; [apply Z.mul_nonneg_nonneg; lia | apply Z.mul_le_mono_nonneg; lia].
Qed.

Lemma le_mul_pos (a b : Z) : 0 <= a -> 1 <= b -> a <= a * b.
Proof. intros Ha Hb. nia. Qed.

Lemma scaled_inside (off size tot sz : Z) :
  0 <= off -> 0 < size -> off + size <= tot -> 1 <= sz ->
  0 <= off * sz /\ off * sz < tot * sz.
Proof. intros H0 Hs Ht Hsz. nia. Qed.

Lemma scaled_range (a b c sz : Z) :
  0 < sz -> a * sz <= b * sz < a * sz + c * sz -> a <= b < a + c.
Proof. intros Hsz H. nia. Qed.

(** ** Storage and view extents of a tile row or column *)

(** Absolute tile row (column) of the submatrix-local tile row (column) [k]. *)
Definition abs_tile_row (A : plasma_desc_t) (k : Z) : Z :=
  Desc.i A `quot` Desc.mb A + k.
Definition abs_tile_col (A : plasma_desc_t) (k : Z) : Z :=
  Desc.j A `quot` Desc.nb A + k.

(** Rows of the whole matrix [0, lm) stored in absolute tile row [mm]: the
    storage height of that tile row. *)
Definition storage_height (A : plasma_desc_t) (mm : Z) : Z :=
  Z.max 0 (Z.min (Desc.lm A) ((mm + 1) * Desc.mb A) - mm * Desc.mb A).
Definition storage_width (A : plasma_desc_t) (nn : Z) : Z :=
  Z.max 0 (Z.min (Desc.ln A) ((nn + 1) * Desc.nb A) - nn * Desc.nb A).

(** Rows of the submatrix [i, i+m) that lie in the tile row at vertical
    position [k]: the extent of the submatrix intersected with the tile. *)
Definition rows_in_tile (A : plasma_desc_t) (k : Z) : Z :=
  let mm := abs_tile_row A k in
  Z.max 0 (Z.min (Desc.i A + Desc.m A) ((mm + 1) * Desc.mb A)
           - Z.max (Desc.i A) (mm * Desc.mb A)).
Definition cols_in_tile (A : plasma_desc_t) (k : Z) : Z :=
  let nn := abs_tile_col A k in
  Z.max 0 (Z.min (Desc.j A + Desc.n A) ((nn + 1) * Desc.nb A)
           - Z.max (Desc.j A) (nn * Desc.nb A)).

(** In-range tile indices of a descriptor. *)
Definition tile_in_range (A : plasma_desc_t) (tm tn : Z) : Prop :=
  0 <= tm < Desc.mt A /\ 0 <= tn < Desc.nt A.

(** *** Truncating division on non-negative operands *)

Lemma quot_spec (a b : Z) :
  0 <= a -> 1 <= b ->
  a = b * (a `quot` b) + a `rem` b /\ 0 <= a `rem` b < b /\ 0 <= a `quot` b.
Proof.
  intros Ha Hb. rewrite Z.quot_div_nonneg, Z.rem_mod_nonneg by lia.
  pose proof (Z.div_mod a b ltac:(lia)).
  pose proof (Z.mod_pos_bound a b ltac:(lia)).
  pose proof (Z.div_pos a b ltac:(lia) ltac:(lia)). lia.
Qed.

(** Names the quotient and the remainder of [a] by [b] and leaves only
    their defining facts in the context. *)
Ltac name_quot a b q r :=
  let E := fresh "E" q in
  let R := fresh "R" r in
  let Q := fresh "Q" q in
  destruct (quot_spec a b ltac:(lia) ltac:(lia)) as (E & R & Q);
  set (q := a `quot` b) in *; set (r := a `rem` b) in *; clearbody q r.

Lemma lt_quot_iff (k a b : Z) :
  0 <= a -> 1 <= b -> k < a `quot` b <-> (k + 1) * b <= a.
Proof.
  intros Ha Hb. name_quot a b q r. split; intros H; nia.
Qed.

Lemma lt_ceil_iff (k x b : Z) :
  0 <= x -> 1 <= b -> k < (x + b - 1) `quot` b <-> k * b < x.
Proof.
  intros Hx Hb. rewrite lt_quot_iff by lia. nia.
Qed.

(** The C test "tile [t] is a full tile, else it is the remainder" computes
    the part of [0, len) that lies in block [t] of width [b]. *)
Lemma block_extent (len b t : Z) :
  0 <= len -> 1 <= b -> 0 <= t -> t * b < len ->
  (if t <? len `quot` b then b else len `rem` b)
  = Z.max 0 (Z.min len ((t + 1) * b) - t * b).
Proof.
  intros Hl Hb Ht Hlt.
  destruct (Z.ltb_spec t (len `quot` b)) as [H | H].
  - apply lt_quot_iff in H; lia.
  - assert (~ (t + 1) * b <= len) by (rewrite <- lt_quot_iff; lia).
    name_quot len b q r.
    assert (t = q) as -> by nia. nia.
Qed.

Section TileExtents.
Variable A : plasma_desc_t.
Hypothesis Hwf : general_desc_wf A.

(** An in-range tile row starts inside the submatrix. *)
Lemma tile_row_starts_inside (k : Z) :
  0 <= k < Desc.mt A ->
  0 <= abs_tile_row A k /\ abs_tile_row A k * Desc.mb A < Desc.i A + Desc.m A.
Proof using Hwf.
  pose proof (wf_mb A Hwf) as Hmb. pose proof (wf_i A Hwf) as Hi.
  pose proof (wf_m A Hwf) as Hm. rewrite (wf_mt A Hwf). unfold abs_tile_row.
  intros [Hk0 Hk]. apply lt_ceil_iff in Hk.
  - name_quot (Desc.i A) (Desc.mb A) q r. nia.
  - pose proof (quot_spec (Desc.i A) (Desc.mb A) Hi Hmb). lia.
  - lia.
Qed.

Lemma tile_col_starts_inside (k : Z) :
  0 <= k < Desc.nt A ->
  0 <= abs_tile_col A k /\ abs_tile_col A k * Desc.nb A < Desc.j A + Desc.n A.
Proof using Hwf.
  pose proof (wf_nb A Hwf) as Hnb. pose proof (wf_j A Hwf) as Hj.
  pose proof (wf_n A Hwf) as Hn. rewrite (wf_nt A Hwf). unfold abs_tile_col.
  intros [Hk0 Hk]. apply lt_ceil_iff in Hk.
  - name_quot (Desc.j A) (Desc.nb A) q r. nia.
  - pose proof (quot_spec (Desc.j A) (Desc.nb A) Hj Hnb). lia.
  - lia.
Qed.

Lemma abs_row_in_grid (k : Z) :
  0 <= k < Desc.mt A -> 0 <= abs_tile_row A k < Desc.lmt A.
Proof using Hwf.
  intros Hk. destruct (tile_row_starts_inside k Hk) as [H0 H1].
  pose proof (wf_mb A Hwf). pose proof (wf_im A Hwf). pose proof (wf_i A Hwf).
  pose proof (wf_m A Hwf).
  split; [assumption|]. rewrite (wf_lmt A Hwf). apply lt_ceil_iff; lia.
Qed.

Lemma abs_col_in_grid (k : Z) :
  0 <= k < Desc.nt A -> 0 <= abs_tile_col A k < Desc.lnt A.
Proof using Hwf.
  intros Hk. destruct (tile_col_starts_inside k Hk) as [H0 H1].
  pose proof (wf_nb A Hwf). pose proof (wf_jn A Hwf). pose proof (wf_j A Hwf).
  pose proof (wf_n A Hwf).
  split; [assumption|]. rewrite (wf_lnt A Hwf). apply lt_ceil_iff; lia.
Qed.

(** [plasma_tile_mmain] is the storage height of the tile row: [mb] for an
    interior row, [lm mod mb] for the last one. *)
Lemma tile_mmain_storage (k : Z) :
  0 <= k < Desc.mt A ->
  plasma_tile_mmain A k = storage_height A (abs_tile_row A k).
Proof using Hwf.
  intros Hk. destruct (tile_row_starts_inside k Hk) as [H0 H1].
  pose proof (wf_mb A Hwf). pose proof (wf_im A Hwf). pose proof (wf_i A Hwf).
  pose proof (wf_m A Hwf).
  unfold plasma_tile_mmain, storage_height. fold (abs_tile_row A k).
  apply block_extent; lia.
Qed.

Lemma tile_nmain_storage (k : Z) :
  0 <= k < Desc.nt A ->
  plasma_tile_nmain A k = storage_width A (abs_tile_col A k).
Proof using Hwf.
  intros Hk. destruct (tile_col_starts_inside k Hk) as [H0 H1].
  pose proof (wf_nb A Hwf). pose proof (wf_jn A Hwf). pose proof (wf_j A Hwf).
  pose proof (wf_n A Hwf).
  unfold plasma_tile_nmain, storage_width. fold (abs_tile_col A k).
  apply block_extent; lia.
Qed.

(** For a submatrix that starts at the origin of the matrix, the view
    extents are the rows (columns) of the submatrix in the tile. *)
Lemma tile_mview_at_origin (k : Z) :
  Desc.i A = 0 -> 0 <= k < Desc.mt A ->
  plasma_tile_mview A k = rows_in_tile A k.
Proof using Hwf.
  intros Hi Hk. destruct (tile_row_starts_inside k Hk) as [H0 H1].
  pose proof (wf_mb A Hwf). pose proof (wf_m A Hwf).
  unfold plasma_tile_mview, rows_in_tile. fold (abs_tile_row A k).
  rewrite block_extent by lia.
  assert (0 <= abs_tile_row A k * Desc.mb A) by nia. lia.
Qed.

Lemma tile_nview_at_origin (k : Z) :
  Desc.j A = 0 -> 0 <= k < Desc.nt A ->
  plasma_tile_nview A k = cols_in_tile A k.
Proof using Hwf.
  intros Hj Hk. destruct (tile_col_starts_inside k Hk) as [H0 H1].
  pose proof (wf_nb A Hwf). pose proof (wf_n A Hwf).
  unfold plasma_tile_nview, cols_in_tile. fold (abs_tile_col A k).
  rewrite block_extent by lia.
  assert (0 <= abs_tile_col A k * Desc.nb A) by nia. lia.
Qed.

End TileExtents.

(** A view of the second and third tile rows of a 12 x 12 matrix in
    4 x 4 tiles: [i = 4], [m = 8]. *)
Definition view_rows_4_to_12 : plasma_desc_t :=
  plasma_desc_general_init PlasmaComplexDouble 0 4 4 12 12 4 0 8 12.

(** C7, at a proper view.  The descriptor is valid and tile row 1 is in
    range; it holds rows 8..11 of the submatrix [4, 12), four rows, of
    storage height 4, and [plasma_tile_mview] returns 0 for it. *)
Example tile_mview_proper_view :
  general_desc_valid view_rows_4_to_12 = true
  /\ Desc.mt view_rows_4_to_12 = 2
  /\ plasma_tile_mmain view_rows_4_to_12 1 = 4
  /\ rows_in_tile view_rows_4_to_12 1 = 4
  /\ plasma_tile_mview view_rows_4_to_12 1 = 0.
Proof. repeat split. Qed.

(** The whole 5 x 7 matrix of double complex numbers in 2 x 3 tiles: its
    last tile row holds one row. *)
Definition whole_5_by_7_complex : plasma_desc_t :=
  plasma_desc_general_init PlasmaComplexDouble 0 2 3 5 7 0 0 5 7.

Lemma tile_mmain_storage_witness :
  plasma_tile_mmain view_rows_4_to_12 1
  = storage_height view_rows_4_to_12 (abs_tile_row view_rows_4_to_12 1).
Proof.
  apply (tile_mmain_storage view_rows_4_to_12
           (general_desc_valid_wf view_rows_4_to_12 eq_refl) 1).
  change (0 <= 1 < 2). lia.
Defined.

Lemma tile_mview_at_origin_witness :
  plasma_tile_mview whole_5_by_7_complex 2
  = rows_in_tile whole_5_by_7_complex 2.
Proof.
  apply (tile_mview_at_origin whole_5_by_7_complex
           (general_desc_valid_wf whole_5_by_7_complex eq_refl) 2).
  - reflexivity.
  - change (0 <= 2 < 3). lia.
Defined.

(** ** Tile regions of the backing store *)

(** Elements a tile stores: its storage height times its storage width. *)
Definition tile_elems (A : plasma_desc_t) (tm tn : Z) : Z :=
  plasma_tile_mmain A tm * plasma_tile_nmain A tn.

(** The byte range [lo, hi) of a tile, from [plasma_tile_addr]. *)
Definition tile_bytes (A : plasma_desc_t) (tm tn : Z) : option (Z * Z) :=
  addr ← plasma_tile_addr A tm tn;
  eltsize ← plasma_element_size (Desc.precision A);
  Some (addr, addr + tile_elems A tm tn * eltsize).

(** Modelled from the spec: [plasma_desc_general_create] is declared in
    [plasma_descriptor.h] and its body is missing.  Section 4.1: it
    "allocates a contiguous backing store sized to the four zones", that is
    [lm * ln] elements from [matrix]. *)
Definition backing_store (A : plasma_desc_t) : option (Z * Z) :=
  eltsize ← plasma_element_size (Desc.precision A);
  Some (Desc.matrix A, Desc.matrix A + Desc.lm A * Desc.ln A * eltsize).

(** The in-range tile indices of a descriptor, and whether one of their
    byte ranges holds the byte at address [x]. *)
Definition tiles_of (A : plasma_desc_t) : list (Z * Z) :=
  tm ← seqZ 0 (Desc.mt A); tn ← seqZ 0 (Desc.nt A); [(tm, tn)].

Definition tile_holds (A : plasma_desc_t) (x : Z) (t : Z * Z) : bool :=
  match tile_bytes A t.1 t.2 with
  | Some (lo, hi) => (lo <=? x) && (x <? hi)
  | None => false
  end.

Definition covered (A : plasma_desc_t) (x : Z) : bool :=
  existsb (tile_holds A x) (tiles_of A).

Lemma elem_of_tiles_of (A : plasma_desc_t) (tm tn : Z) :
  (tm, tn) ∈ tiles_of A <-> tile_in_range A tm tn.
Proof.
  unfold tiles_of, tile_in_range. rewrite list_elem_of_bind. split.
  - intros (a & Hb & Ha). apply list_elem_of_bind in Hb as (b & Hr & Hb).
    apply list_elem_of_singleton in Hr as [= -> ->].
    apply elem_of_seqZ in Ha, Hb. lia.
  - intros [Hm Hn]. exists tm. split; [| apply elem_of_seqZ; lia].
    apply list_elem_of_bind. exists tn.
    split; [apply list_elem_of_singleton; reflexivity | apply elem_of_seqZ; lia].
Qed.

Lemma covered_spec (A : plasma_desc_t) (x : Z) :
  covered A x = true
  <-> exists tm tn lo hi, tile_in_range A tm tn
        /\ tile_bytes A tm tn = Some (lo, hi) /\ lo <= x < hi.
Proof.
  unfold covered. rewrite existsb_exists. split.
  - intros ([tm tn] & Hin & Hh). apply list_elem_of_In, elem_of_tiles_of in Hin.
    unfold tile_holds in Hh; simpl in Hh.
    destruct (tile_bytes A tm tn) as [[lo hi]|] eqn:E; [| discriminate].
    exists tm, tn, lo, hi. apply andb_true_iff in Hh as [H1 H2].
    apply Z.leb_le in H1. apply Z.ltb_lt in H2. auto.
  - intros (tm & tn & lo & hi & Hin & E & Hx). exists (tm, tn). split.
    + apply list_elem_of_In, elem_of_tiles_of, Hin.
    + unfold tile_holds; simpl. rewrite E. apply andb_true_iff.
      rewrite Z.leb_le, Z.ltb_lt. lia.
Qed.

(** *** The four zones

    With [M1 = lm / mb], [rM = lm mod mb], [N1 = ln / nb], [rN = ln mod nb],
    every tile of the grid is one slot of one zone: the offset and the
    size the addressing rule gives it. *)
Section Zones.
Variables mb nb M1 rM N1 rN : Z.
Hypothesis Hmb : 1 <= mb.
Hypothesis Hnb : 1 <= nb.
Hypothesis HM1 : 0 <= M1.
Hypothesis HN1 : 0 <= N1.
Hypothesis HrM : 0 <= rM < mb.
Hypothesis HrN : 0 <= rN < nb.

Local Abbreviation a21 := ((mb * M1) * (nb * N1)).
Local Abbreviation a12 := (rM * (nb * N1) + a21).
Local Abbreviation a22 := ((mb * M1) * rN + a12).
Local Abbreviation total := ((mb * M1 + rM) * (nb * N1 + rN)).

Inductive zone_slot (mm nn off size : Z) : Prop :=
| slot11 : 0 <= mm < M1 -> 0 <= nn < N1 ->
           off = mb * nb * (mm + M1 * nn) -> size = mb * nb ->
           zone_slot mm nn off size
| slot12 : 0 <= mm < M1 -> nn = N1 -> 0 < rN ->
           off = a12 + mb * rN * mm -> size = mb * rN ->
           zone_slot mm nn off size
| slot21 : mm = M1 -> 0 < rM -> 0 <= nn < N1 ->
           off = a21 + nb * rM * nn -> size = rM * nb ->
           zone_slot mm nn off size
| slot22 : mm = M1 -> nn = N1 -> 0 < rM -> 0 < rN ->
           off = a22 -> size = rM * rN ->
           zone_slot mm nn off size.

Lemma scaled_slots_disjoint (s k k' : Z) :
  0 <= s -> k <> k' -> s * k + s <= s * k' \/ s * k' + s <= s * k.
Proof.
  intros Hs Hk.
  destruct (Z.lt_total k k') as [H | [H | H]]; [left | lia | right]; nia.
Qed.

(** A slot lies in its zone, and the zones follow one another. *)
Lemma slot_zone (mm nn off size : Z) :
  zone_slot mm nn off size ->
  0 < size
  /\ ((0 <= mm < M1 /\ 0 <= nn < N1 /\ 0 <= off /\ off + size <= a21)
      \/ (mm = M1 /\ 0 <= nn < N1 /\ a21 <= off /\ off + size <= a12)
      \/ (0 <= mm < M1 /\ nn = N1 /\ a12 <= off /\ off + size <= a22)
      \/ (mm = M1 /\ nn = N1 /\ a22 <= off /\ off + size <= total)).
Proof using All.
  intros [? ? -> -> | ? -> ? -> -> | -> ? ? -> -> | -> -> ? ? -> ->].
  - split; [nia | left].
    assert (mm + M1 * nn + 1 <= M1 * N1) by nia.
    assert (0 <= mm + M1 * nn) by nia.
    assert (0 < mb * nb) by nia. repeat split; try lia; nia.
  - split; [nia | right; right; left]. repeat split; try lia; nia.
  - split; [nia | right; left]. repeat split; try lia; nia.
  - split; [nia | right; right; right]. repeat split; try lia; nia.
Qed.

(** A slot is not empty and lies in the store of the four zones. *)
Lemma slot_bounds (mm nn off size : Z) :
  zone_slot mm nn off size -> 0 <= off /\ 0 < size /\ off + size <= total.
Proof using All.
  intros S. destruct (slot_zone _ _ _ _ S) as [Hs Z1].
  assert (a21 <= a12 /\ a12 <= a22 /\ a22 <= total) as (L1 & L2 & L3) by nia.
  assert (0 <= a21) by nia. lia.
Qed.

Lemma slot_disjoint (mm nn off size mm' nn' off' size' : Z) :
  zone_slot mm nn off size -> zone_slot mm' nn' off' size' ->
  (mm, nn) <> (mm', nn') ->
  off + size <= off' \/ off' + size' <= off.
Proof using All.
  intros S S' Hne.
  destruct (slot_zone _ _ _ _ S) as [_ Z1].
  destruct (slot_zone _ _ _ _ S') as [_ Z2].
  assert (a21 <= a12 /\ a12 <= a22) as [L1 L2] by nia.
  destruct S as [? ? E1 E2 | ? E0 ? E1 E2 | E0 ? ? E1 E2 | E0 E0' ? ? E1 E2];
  destruct S' as [? ? E1' E2' | ? F0 ? E1' E2' | F0 ? ? E1' E2'
                 | F0 F0' ? ? E1' E2'].
  all: try lia.
  - (* both interior *)
    rewrite E1, E2, E1', E2'.
    assert (mm + M1 * nn <> mm' + M1 * nn') as Hk.
    { intros Hk. apply Hne. assert (nn = nn') by nia. f_equal; lia. }
    apply scaled_slots_disjoint; [nia | exact Hk].
  - (* both in the right strip *)
    rewrite E1, E2, E1', E2'.
    assert (mm <> mm') as Hk by (intros ->; apply Hne; congruence).
    destruct (scaled_slots_disjoint (mb * rN) mm mm' ltac:(nia) Hk); lia.
  - (* both in the bottom strip *)
    rewrite E1, E2, E1', E2'.
    assert (nn <> nn') as Hk by (intros ->; apply Hne; congruence).
    destruct (scaled_slots_disjoint (nb * rM) nn nn' ltac:(nia) Hk);
      [left | right]; lia.
  - exfalso; apply Hne; congruence.
Qed.

Lemma slot_cover (x : Z) :
  0 <= x < total ->
  exists mm nn off size, zone_slot mm nn off size /\ off <= x < off + size.
Proof using All.
  intros Hx.
  assert (a21 <= a12 /\ a12 <= a22 /\ a22 <= total) as (L1 & L2 & L3) by nia.
  destruct (Z.lt_ge_cases x a21) as [H11 | H11];
    [| destruct (Z.lt_ge_cases x a12) as [H21 | H21];
       [| destruct (Z.lt_ge_cases x a22) as [H12 | H12]]].
  - (* interior zone: the tile of linear index x / (mb * nb) *)
    assert (0 < M1 /\ 0 < N1) as [? ?] by nia.
    assert (0 < mb * nb) as Hs by nia.
    name_quot x (mb * nb) t u.
    assert (t < M1 * N1) by nia.
    name_quot t M1 nn mm.
    exists mm, nn, (mb * nb * (mm + M1 * nn)), (mb * nb). split.
    + apply slot11; try lia; try reflexivity. nia.
    + nia.
  - (* bottom strip *)
    assert (0 < rM /\ 0 < N1) as [? ?] by nia.
    assert (0 < nb * rM) as Hs by nia.
    name_quot (x - a21) (nb * rM) nn u.
    exists M1, nn, (a21 + nb * rM * nn), (rM * nb). split.
    + apply slot21; try lia; try reflexivity. nia.
    + nia.
  - (* right strip *)
    assert (0 < rN /\ 0 < M1) as [? ?] by nia.
    assert (0 < mb * rN) as Hs by nia.
    name_quot (x - a12) (mb * rN) mm u.
    exists mm, N1, (a12 + mb * rN * mm), (mb * rN). split.
    + apply slot12; try lia; try reflexivity. nia.
    + nia.
  - (* corner *)
    assert (0 < rM /\ 0 < rN) as [? ?] by nia.
    exists M1, N1, a22, (rM * rN). split.
    + apply slot22; auto.
    + nia.
Qed.

(** Every tile of the grid has a slot, and a position of the store lies
    in the slot of one tile. *)
Lemma slot_exists (mm nn : Z) :
  0 <= mm -> mm * mb < mb * M1 + rM -> 0 <= nn -> nn * nb < nb * N1 + rN ->
  exists off size, zone_slot mm nn off size.
Proof using All.
  intros Hm0 Hm Hn0 Hn.
  assert (mm < M1 \/ mm = M1 /\ 0 < rM) as Hrow by nia.
  assert (nn < N1 \/ nn = N1 /\ 0 < rN) as Hcol by nia.
  destruct Hrow as [Hrow | [-> HrM']], Hcol as [Hcol | [-> HrN']];
    eexists _, _.
  - apply slot11; [lia | lia | reflexivity | reflexivity].
  - apply slot12; [lia | reflexivity | lia | reflexivity | reflexivity].
  - apply slot21; [reflexivity | lia | lia | reflexivity | reflexivity].
  - apply slot22; [reflexivity | reflexivity | lia | lia | reflexivity
                  | reflexivity].
Qed.

Lemma slot_unique_at (mm nn off size mm' nn' off' size' x : Z) :
  zone_slot mm nn off size -> zone_slot mm' nn' off' size' ->
  off <= x < off + size -> off' <= x < off' + size' ->
  (mm, nn) = (mm', nn').
Proof using All.
  intros S S' Hx Hx'.
  destruct (decide ((mm, nn) = (mm', nn'))) as [E | Hne]; [exact E |].
  destruct (slot_disjoint _ _ _ _ _ _ _ _ S S' Hne); lia.
Qed.

End Zones.

Lemma slot_functional (mb nb M1 rM N1 rN mm nn off size off' size' : Z) :
  zone_slot mb nb M1 rM N1 rN mm nn off size ->
  zone_slot mb nb M1 rM N1 rN mm nn off' size' ->
  off = off' /\ size = size'.
Proof.
  intros [? ? -> -> | ? E ? -> -> | E ? ? -> -> | E E' ? ? -> ->]
         [? ? -> -> | ? F ? -> -> | F ? ? -> -> | F F' ? ? -> ->];
    (split; [reflexivity | reflexivity]) || lia.
Qed.

Section TileSlots.
Variable A : plasma_desc_t.
Hypothesis Hwf : general_desc_wf A.

Local Abbreviation slot_of A :=
  (zone_slot (Desc.mb A) (Desc.nb A)
     (Desc.lm A `quot` Desc.mb A) (Desc.lm A `rem` Desc.mb A)
     (Desc.ln A `quot` Desc.nb A) (Desc.ln A `rem` Desc.nb A)).

Lemma matrix_extents_nonneg : 0 <= Desc.lm A /\ 0 <= Desc.ln A.
Proof using Hwf.
  pose proof (wf_i A Hwf). pose proof (wf_m A Hwf). pose proof (wf_im A Hwf).
  pose proof (wf_j A Hwf). pose proof (wf_n A Hwf). pose proof (wf_jn A Hwf).
  lia.
Qed.

(** The addressing rule puts every in-range tile in its slot. *)
Lemma tile_is_slot (tm tn : Z) :
  tile_in_range A tm tn ->
  slot_of A (abs_tile_row A tm) (abs_tile_col A tn)
    (tile_offset_exact A tm tn) (tile_elems A tm tn).
Proof using Hwf.
  intros [Hm Hn].
  destruct (tile_row_starts_inside A Hwf tm Hm) as [Hr0 Hr1].
  destruct (tile_col_starts_inside A Hwf tn Hn) as [Hc0 Hc1].
  destruct matrix_extents_nonneg as [Hlm Hln].
  pose proof (wf_mb A Hwf) as Hmb. pose proof (wf_nb A Hwf) as Hnb.
  pose proof (wf_im A Hwf) as Him. pose proof (wf_jn A Hwf) as Hjn.
  unfold tile_offset_exact, tile_elems, plasma_tile_mmain, plasma_tile_nmain.
  rewrite (wf_A22 A Hwf), (wf_A12 A Hwf), (wf_A21 A Hwf).
  rewrite (Z.add_comm tm), (Z.add_comm tn).
  fold (abs_tile_row A tm) (abs_tile_col A tn).
  set (mm := abs_tile_row A tm) in *. set (nn := abs_tile_col A tn) in *.
  clearbody mm nn.
  destruct (quot_spec (Desc.lm A) (Desc.mb A) Hlm Hmb) as (EM & RM & QM).
  destruct (quot_spec (Desc.ln A) (Desc.nb A) Hln Hnb) as (EN & RN & QN).
  set (M1 := Desc.lm A `quot` Desc.mb A) in *.
  set (rM := Desc.lm A `rem` Desc.mb A) in *.
  set (N1 := Desc.ln A `quot` Desc.nb A) in *.
  set (rN := Desc.ln A `rem` Desc.nb A) in *.
  replace (Desc.lm A - rM) with (Desc.mb A * M1) by lia.
  replace (Desc.ln A - rN) with (Desc.nb A * N1) by lia.
  assert (mm < M1 \/ mm = M1 /\ 0 < rM) as Hrow by nia.
  assert (nn < N1 \/ nn = N1 /\ 0 < rN) as Hcol by nia.
  clear Hr1 Hc1 Him Hjn Hm Hn.
  destruct (Z.ltb_spec mm M1), (Z.ltb_spec nn N1).
  - apply slot11; lia.
  - apply slot12; lia.
  - apply slot21; lia.
  - apply slot22; lia.
Qed.

(** The offset of an in-range tile lies in the store of [lm * ln]
    elements. *)
Lemma tile_offset_in_store (tm tn : Z) :
  tile_in_range A tm tn ->
  0 <= tile_offset_exact A tm tn
  /\ 0 < tile_elems A tm tn
  /\ tile_offset_exact A tm tn + tile_elems A tm tn <= Desc.lm A * Desc.ln A.
Proof using Hwf.
  intros Hin. pose proof (tile_is_slot tm tn Hin) as S.
  destruct matrix_extents_nonneg as [Hlm Hln].
  destruct (quot_spec _ _ Hlm (wf_mb A Hwf)) as (EM & RM & QM).
  destruct (quot_spec _ _ Hln (wf_nb A Hwf)) as (EN & RN & QN).
  apply slot_bounds in S; [| apply (wf_mb A Hwf) | apply (wf_nb A Hwf) | lia ..].
  rewrite <- EM, <- EN in S. exact S.
Qed.

(** On a descriptor that fits the machine no operation of
    [plasma_tile_addr_general] wraps around for an in-range tile. *)
Lemma tile_offset_no_wrap (tm tn : Z) :
  desc_in_machine_range A = true -> tile_in_range A tm tn ->
  tile_offset_general A tm tn = tile_offset_exact A tm tn.
Proof using Hwf.
  intros Hfit Hin. pose proof (tile_offset_in_store tm tn Hin) as Hoff.
  destruct Hin as [Hm Hn].
  destruct (tile_row_starts_inside A Hwf tm Hm) as [Hr0 Hr1].
  destruct (tile_col_starts_inside A Hwf tn Hn) as [Hc0 Hc1].
  destruct matrix_extents_nonneg as [Hlm Hln].
  pose proof (wf_mb A Hwf) as Hmb. pose proof (wf_nb A Hwf) as Hnb.
  pose proof (wf_im A Hwf) as Him. pose proof (wf_jn A Hwf) as Hjn.
  unfold desc_in_machine_range in Hfit.
  apply andb_true_iff in Hfit as [Hfit _].
  apply andb_true_iff in Hfit as [Hfit Htile].
  apply andb_true_iff in Hfit as [Hlmi Hlni].
  apply Z.leb_le in Hlmi, Hlni, Htile.
  revert Hoff. unfold tile_offset_general, tile_offset_exact.
  rewrite (wf_A22 A Hwf), (wf_A12 A Hwf), (wf_A21 A Hwf).
  rewrite (Z.add_comm tm), (Z.add_comm tn).
  fold (abs_tile_row A tm) (abs_tile_col A tn).
  set (mm := abs_tile_row A tm) in *. set (nn := abs_tile_col A tn) in *.
  clearbody mm nn.
  assert (Hr2 : mm * Desc.mb A < Desc.lm A) by lia.
  assert (Hc2 : nn * Desc.nb A < Desc.ln A) by lia.
  clear Hr1 Hc1 Him Hjn.
  destruct (quot_spec (Desc.lm A) (Desc.mb A) Hlm Hmb) as (EM & RM & QM).
  destruct (quot_spec (Desc.ln A) (Desc.nb A) Hln Hnb) as (EN & RN & QN).
  set (M1 := Desc.lm A `quot` Desc.mb A) in *.
  set (rM := Desc.lm A `rem` Desc.mb A) in *.
  set (N1 := Desc.ln A `quot` Desc.nb A) in *.
  set (rN := Desc.ln A `rem` Desc.nb A) in *.
  set (mb := Desc.mb A) in *. set (nb := Desc.nb A) in *.
  set (lm := Desc.lm A) in *. set (ln := Desc.ln A) in *.
  set (size := tile_elems A tm tn) in *.
  clearbody M1 rM N1 rN mb nb lm ln size. clear Hm Hn tm tn Hwf A.
  unfold INT_MAX in *.
  pose proof (le_mul_pos mm mb ltac:(lia) Hmb).
  pose proof (le_mul_pos nn nb ltac:(lia) Hnb).
  pose proof (le_mul_pos M1 mb QM Hmb).
  pose proof (le_mul_pos N1 nb QN Hnb).
  assert (Hmm : 0 <= mm <= lm) by lia.
  assert (Hnn : 0 <= nn <= ln) by lia.
  assert (HM1 : 0 <= M1 <= lm) by lia.
  assert (HN1 : 0 <= N1 <= ln) by lia.
  assert (Hsq : lm * ln < 2 ^ 64).
  { pose proof (mul_le_square lm ln (2 ^ 31 - 1) (2 ^ 31 - 1)
                  ltac:(lia) ltac:(lia)). lia. }
  rewrite (int_wrap_small mm), (int_wrap_small nn) by (unfold INT_MAX; lia).
  assert (Hpos : 0 < mb * nb) by (apply Z.mul_pos_pos; lia).
  rewrite (int_wrap_small (mb * nb)) by (unfold INT_MAX; lia).
  destruct (Z.ltb_spec mm M1), (Z.ltb_spec nn N1); intros Hoff.
  - pose proof (mul_le_square M1 nn lm ln ltac:(lia) ltac:(lia)).
    rewrite (size_t_wrap_small (M1 * nn)) by lia.
    pose proof (le_mul_pos (mm + M1 * nn) (mb * nb) ltac:(lia) ltac:(lia)).
    rewrite (size_t_wrap_small (mm + M1 * nn)) by lia.
    apply size_t_wrap_small. lia.
  - pose proof (le_mul_pos mb M1 ltac:(lia) ltac:(lia)).
    pose proof (mul_le_square mb rN lm ln ltac:(lia) ltac:(lia)).
    rewrite (size_t_wrap_small (mb * rN)) by lia.
    assert (0 <= mb * rN * mm) by (apply Z.mul_nonneg_nonneg; lia).
    assert (0 <= rM * (ln - rN)) by (apply Z.mul_nonneg_nonneg; lia).
    assert (0 <= (lm - rM) * (ln - rN)) by (apply Z.mul_nonneg_nonneg; lia).
    assert (0 <= (lm - rM) * rN) by (apply Z.mul_nonneg_nonneg; lia).
    rewrite (size_t_wrap_small (mb * rN * mm)) by lia.
    apply size_t_wrap_small. lia.
  - pose proof (le_mul_pos nb N1 ltac:(lia) ltac:(lia)).
    pose proof (mul_le_square nb rM ln lm ltac:(lia) ltac:(lia)).
    rewrite (size_t_wrap_small (nb * rM)) by lia.
    assert (0 <= nb * rM * nn) by (apply Z.mul_nonneg_nonneg; lia).
    assert (0 <= (lm - rM) * (ln - rN)) by (apply Z.mul_nonneg_nonneg; lia).
    rewrite (size_t_wrap_small (nb * rM * nn)) by lia.
    apply size_t_wrap_small. lia.
  - reflexivity.
Qed.

Hypothesis Hi : Desc.i A `quot` Desc.mb A = 0.
Hypothesis Hj : Desc.j A `quot` Desc.nb A = 0.
Hypothesis Hmt : Desc.mt A = Desc.lmt A.
Hypothesis Hnt : Desc.nt A = Desc.lnt A.

(** When the tile rows and the tile columns of the descriptor are all
    those of the matrix, every slot is an in-range tile. *)
Lemma slot_is_tile (mm nn off size : Z) :
  slot_of A mm nn off size ->
  tile_in_range A mm nn
  /\ off = tile_offset_exact A mm nn /\ size = tile_elems A mm nn.
Proof using All.
  intros S.
  destruct matrix_extents_nonneg as [Hlm Hln].
  pose proof (wf_mb A Hwf) as Hmb. pose proof (wf_nb A Hwf) as Hnb.
  assert (tile_in_range A mm nn) as Hin.
  { unfold tile_in_range. rewrite Hmt, Hnt, (wf_lmt A Hwf), (wf_lnt A Hwf).
    destruct (quot_spec (Desc.lm A) (Desc.mb A) Hlm Hmb) as (EM & RM & QM).
    destruct (quot_spec (Desc.ln A) (Desc.nb A) Hln Hnb) as (EN & RN & QN).
    assert (0 <= mm /\ mm * Desc.mb A < Desc.lm A
            /\ 0 <= nn /\ nn * Desc.nb A < Desc.ln A) as (? & ? & ? & ?).
    { set (M1 := Desc.lm A `quot` Desc.mb A) in *.
      set (rM := Desc.lm A `rem` Desc.mb A) in *.
      set (N1 := Desc.ln A `quot` Desc.nb A) in *.
      set (rN := Desc.ln A `rem` Desc.nb A) in *.
      clearbody M1 rM N1 rN.
      destruct S as [? ? _ _ | ? -> ? _ _ | -> ? ? _ _ | -> -> ? ? _ _];
        repeat split; nia. }
    split; (split; [lia | apply lt_ceil_iff; lia]). }
  split; [exact Hin |].
  pose proof (tile_is_slot mm nn Hin) as S'.
  unfold abs_tile_row, abs_tile_col in S'. rewrite Hi, Hj in S'.
  rewrite !Z.add_0_l in S'.
  exact (slot_functional _ _ _ _ _ _ _ _ _ _ _ _ S S').
Qed.

End TileSlots.

(** Total elements of the four zones: the whole matrix. *)
Lemma zones_total (A : plasma_desc_t) :
  general_desc_wf A ->
  (Desc.mb A * (Desc.lm A `quot` Desc.mb A) + Desc.lm A `rem` Desc.mb A)
  * (Desc.nb A * (Desc.ln A `quot` Desc.nb A) + Desc.ln A `rem` Desc.nb A)
  = Desc.lm A * Desc.ln A.
Proof.
  intros Hwf. destruct (matrix_extents_nonneg A Hwf) as [Hlm Hln].
  destruct (quot_spec _ _ Hlm (wf_mb A Hwf)) as (<- & _ & _).
  destruct (quot_spec _ _ Hln (wf_nb A Hwf)) as (<- & _ & _).
  reflexivity.
Qed.

Lemma tile_bytes_general (A : plasma_desc_t) (sz tm tn : Z) :
  general_desc_wf A -> desc_in_machine_range A = true ->
  plasma_element_size (Desc.precision A) = Some sz ->
  tile_in_range A tm tn ->
  tile_bytes A tm tn
  = Some (Desc.matrix A + tile_offset_exact A tm tn * sz,
          Desc.matrix A + tile_offset_exact A tm tn * sz
          + tile_elems A tm tn * sz).
Proof.
  intros Hwf Hfit Hsz Hin.
  unfold tile_bytes, plasma_tile_addr, plasma_tile_addr_general.
  rewrite (wf_type A Hwf), Hsz. simpl.
  rewrite (tile_offset_no_wrap A Hwf tm tn Hfit Hin).
  destruct (tile_offset_in_store A Hwf tm tn Hin) as (H0 & Hsize & Hend).
  pose proof (element_size_pos _ _ Hsz) as Hpos.
  unfold desc_in_machine_range in Hfit. rewrite Hsz in Hfit.
  apply andb_true_iff in Hfit as [_ Hstore]. apply Z.ltb_lt in Hstore.
  set (off := tile_offset_exact A tm tn) in *.
  set (size := tile_elems A tm tn) in *.
  set (tot := Desc.lm A * Desc.ln A) in *. clearbody off size tot.
  pose proof (scaled_inside off size tot sz H0 Hsize Hend Hpos).
  rewrite size_t_wrap_small; [reflexivity | lia].
Qed.

(** A 2 x 2 view at the origin of a 4 x 4 matrix of double complex
    numbers in 2 x 2 tiles: one tile of 64 bytes, in a store of 256. *)
Definition view_one_tile_of_four : plasma_desc_t :=
  plasma_desc_general_init PlasmaComplexDouble 0 2 2 4 4 0 0 2 2.

(** C2 as stated fails for a view: the descriptor is valid, shares the
    256-byte store of its matrix, and no in-range tile holds byte 64. *)
Example tile_union_misses_store_of_view :
  general_desc_valid view_one_tile_of_four = true
  /\ backing_store view_one_tile_of_four = Some (0, 256)
  /\ tiles_of view_one_tile_of_four = [(0, 0)]
  /\ tile_bytes view_one_tile_of_four 0 0 = Some (0, 64)
  /\ covered view_one_tile_of_four 64 = false.
Proof. repeat split. Qed.

(** Tiles of 65536 x 65536 elements: [mb * nb = 2^32] is not an [int].
    The descriptor is valid, and the product [A.mb*A.nb] wraps around to
    0, so that the interior tiles (0,0) and (1,0) get the same address. *)
Definition tiles_of_2_to_32_elements : plasma_desc_t :=
  plasma_desc_general_init PlasmaComplexDouble 0 65536 65536
    131072 131072 0 0 131072 131072.

Example tile_addr_wraps_around :
  general_desc_valid tiles_of_2_to_32_elements = true
  /\ desc_in_machine_range tiles_of_2_to_32_elements = false
  /\ tile_in_range tiles_of_2_to_32_elements 0 0
  /\ tile_in_range tiles_of_2_to_32_elements 1 0
  /\ plasma_tile_addr tiles_of_2_to_32_elements 0 0 = Some 0
  /\ plasma_tile_addr tiles_of_2_to_32_elements 1 0 = Some 0.
Proof. vm_compute. repeat split; discriminate. Qed.

(** Every byte of the store that is covered makes the tile of its slot an
    in-range tile of the descriptor. *)
Lemma covered_slot_is_tile (A : plasma_desc_t) (sz mm nn off size : Z) :
  general_desc_wf A -> desc_in_machine_range A = true ->
  plasma_element_size (Desc.precision A) = Some sz ->
  zone_slot (Desc.mb A) (Desc.nb A)
    (Desc.lm A `quot` Desc.mb A) (Desc.lm A `rem` Desc.mb A)
    (Desc.ln A `quot` Desc.nb A) (Desc.ln A `rem` Desc.nb A)
    mm nn off size ->
  covered A (Desc.matrix A + off * sz) = true ->
  exists tm tn, tile_in_range A tm tn
    /\ abs_tile_row A tm = mm /\ abs_tile_col A tn = nn.
Proof.
  intros Hwf Hfit Hsz S Hcov.
  pose proof (element_size_pos _ _ Hsz) as Hpos.
  destruct (matrix_extents_nonneg A Hwf) as [Hlm Hln].
  destruct (quot_spec _ _ Hlm (wf_mb A Hwf)) as (_ & RM & QM).
  destruct (quot_spec _ _ Hln (wf_nb A Hwf)) as (_ & RN & QN).
  apply covered_spec in Hcov as (tm & tn & a & b & Hin & Hb & Hx).
  rewrite (tile_bytes_general A sz) in Hb by assumption.
  injection Hb as <- <-.
  pose proof (tile_is_slot A Hwf tm tn Hin) as S'.
  exists tm, tn. split; [exact Hin |].
  assert (Hsize : 0 < size)
    by (apply slot_bounds in S; [lia | apply (wf_mb A Hwf)
                                | apply (wf_nb A Hwf) | lia ..]).
  assert ((abs_tile_row A tm, abs_tile_col A tn) = (mm, nn)) as [= -> ->];
    [| split; reflexivity].
  apply (slot_unique_at _ _ _ _ _ _ (wf_mb A Hwf) (wf_nb A Hwf) QM QN RM RN
           _ _ _ _ _ _ _ _ off S' S); [| lia].
  set (off' := tile_offset_exact A tm tn) in *.
  set (size' := tile_elems A tm tn) in *. clearbody off' size'.
  apply (scaled_range off' off size' sz); lia.
Qed.

(** C2, amended.  For every valid general descriptor that fits the
    machine the backing store is defined and (1) every in-range tile has a
    non-empty byte range inside it, (2) the byte ranges of two distinct
    in-range tiles are disjoint, so that no tile address aliases another,
    and (3) every byte of the store lies in the range of an in-range tile
    if and only if the matrix is empty or the tile rows and the tile
    columns of the descriptor are all those of the matrix: it starts in
    the first tile row and the first tile column and has [lmt] tile rows
    and [lnt] tile columns. *)
Theorem tile_addr_partition (A : plasma_desc_t) :
  general_desc_valid A = true ->
  desc_in_machine_range A = true ->
  exists lo hi,
    backing_store A = Some (lo, hi)
    /\ (forall tm tn, tile_in_range A tm tn ->
          exists a b, tile_bytes A tm tn = Some (a, b)
                      /\ lo <= a /\ a < b /\ b <= hi)
    /\ (forall tm tn tm' tn' a b a' b',
          tile_in_range A tm tn -> tile_in_range A tm' tn' ->
          (tm, tn) <> (tm', tn') ->
          tile_bytes A tm tn = Some (a, b) ->
          tile_bytes A tm' tn' = Some (a', b') ->
          (b <= a' \/ b' <= a) /\ a <> a')
    /\ ((forall x, lo <= x < hi -> covered A x = true)
        <-> Desc.lm A = 0 \/ Desc.ln A = 0
            \/ (Desc.i A `quot` Desc.mb A = 0
                /\ Desc.j A `quot` Desc.nb A = 0
                /\ Desc.mt A = Desc.lmt A /\ Desc.nt A = Desc.lnt A)).
Proof.
  intros Hv Hfit. apply general_desc_valid_wf in Hv as Hwf.
  destruct (wf_eltsize A Hwf) as (sz & Hsz & Hpos).
  pose proof (zones_total A Hwf) as Htot.
  destruct (matrix_extents_nonneg A Hwf) as [Hlm Hln].
  destruct (quot_spec _ _ Hlm (wf_mb A Hwf)) as (_ & RM & QM).
  destruct (quot_spec _ _ Hln (wf_nb A Hwf)) as (_ & RN & QN).
  pose proof (wf_mb A Hwf) as Hmb. pose proof (wf_nb A Hwf) as Hnb.
  exists (Desc.matrix A), (Desc.matrix A + Desc.lm A * Desc.ln A * sz).
  split; [unfold backing_store; rewrite Hsz; reflexivity |].
  split; [| split].
  - (* containment *)
    intros tm tn Hin. rewrite (tile_bytes_general A sz) by assumption.
    eexists _, _. split; [reflexivity |].
    destruct (tile_offset_in_store A Hwf tm tn Hin) as (? & ? & ?).
    set (off := tile_offset_exact A tm tn) in *.
    set (size := tile_elems A tm tn) in *.
    set (tot := Desc.lm A * Desc.ln A) in *.
    clearbody off size tot. nia.
  - (* disjointness *)
    intros tm tn tm' tn' a b a' b' Hin Hin' Hne.
    rewrite !(tile_bytes_general A sz) by assumption.
    intros [= <- <-] [= <- <-].
    pose proof (tile_is_slot A Hwf tm tn Hin) as S.
    pose proof (tile_is_slot A Hwf tm' tn' Hin') as S'.
    assert ((abs_tile_row A tm, abs_tile_col A tn)
            <> (abs_tile_row A tm', abs_tile_col A tn')) as Hne'.
    { unfold abs_tile_row, abs_tile_col. intros [= E1 E2]. apply Hne.
      f_equal; lia. }
    pose proof (slot_disjoint _ _ _ _ _ _ Hmb Hnb QM QN RM RN
                  _ _ _ _ _ _ _ _ S S' Hne') as D.
    apply slot_zone in S as [P _]; [| lia ..].
    apply slot_zone in S' as [P' _]; [| lia ..].
    set (off := tile_offset_exact A tm tn) in *.
    set (size := tile_elems A tm tn) in *.
    set (off' := tile_offset_exact A tm' tn') in *.
    set (size' := tile_elems A tm' tn') in *.
    clearbody off size off' size'. nia.
  - (* coverage *)
    split.
    + intros Hcov.
      destruct (decide (Desc.lm A = 0)) as [? | Hlm0]; [left; assumption |].
      destruct (decide (Desc.ln A = 0)) as [? | Hln0];
        [right; left; assumption |].
      right; right.
      assert (Hslot : forall mm nn,
                0 <= mm -> mm * Desc.mb A < Desc.lm A ->
                0 <= nn -> nn * Desc.nb A < Desc.ln A ->
                exists tm tn, tile_in_range A tm tn
                  /\ abs_tile_row A tm = mm /\ abs_tile_col A tn = nn).
      { intros mm nn Hm0 Hm Hn0 Hn.
        destruct (quot_spec _ _ Hlm Hmb) as (EM & _ & _).
        destruct (quot_spec _ _ Hln Hnb) as (EN & _ & _).
        destruct (slot_exists _ _ _ _ _ _ Hmb Hnb QM QN RM RN mm nn
                    Hm0 ltac:(lia) Hn0 ltac:(lia)) as (off & size & S).
        apply (covered_slot_is_tile A sz mm nn off size); try assumption.
        apply Hcov.
        pose proof (slot_bounds _ _ _ _ _ _ Hmb Hnb QM QN RM RN _ _ _ _ S)
          as Hb.
        rewrite Htot in Hb. destruct Hb as (Hb0 & Hb1 & Hb2).
        pose proof (scaled_inside off size _ sz Hb0 Hb1 Hb2 Hpos). lia. }
      pose proof (wf_i A Hwf) as Hi0. pose proof (wf_j A Hwf) as Hj0.
      destruct (quot_spec _ _ Hi0 Hmb) as (_ & _ & Qi).
      destruct (quot_spec _ _ Hj0 Hnb) as (_ & _ & Qj).
      assert (Hlast_row : (Desc.lmt A - 1) * Desc.mb A < Desc.lm A
                          /\ 0 <= Desc.lmt A - 1).
      { rewrite (wf_lmt A Hwf).
        assert (0 < (Desc.lm A + Desc.mb A - 1) `quot` Desc.mb A)
          by (apply lt_ceil_iff; lia).
        split; [apply lt_ceil_iff; lia | lia]. }
      assert (Hlast_col : (Desc.lnt A - 1) * Desc.nb A < Desc.ln A
                          /\ 0 <= Desc.lnt A - 1).
      { rewrite (wf_lnt A Hwf).
        assert (0 < (Desc.ln A + Desc.nb A - 1) `quot` Desc.nb A)
          by (apply lt_ceil_iff; lia).
        split; [apply lt_ceil_iff; lia | lia]. }
      destruct (Hslot 0 0 ltac:(lia) ltac:(lia) ltac:(lia) ltac:(lia))
        as (tm & tn & [Htm Htn] & Er & Ec).
      unfold abs_tile_row, abs_tile_col in Er, Ec.
      assert (Ei : Desc.i A `quot` Desc.mb A = 0) by lia.
      assert (Ej : Desc.j A `quot` Desc.nb A = 0) by lia.
      destruct (Hslot (Desc.lmt A - 1) (Desc.lnt A - 1)
                  ltac:(lia) ltac:(lia) ltac:(lia) ltac:(lia))
        as (tm' & tn' & [Htm' Htn'] & Er' & Ec').
      unfold abs_tile_row, abs_tile_col in Er', Ec'.
      pose proof (abs_row_in_grid A Hwf (Desc.mt A - 1) ltac:(lia)) as Gr.
      pose proof (abs_col_in_grid A Hwf (Desc.nt A - 1) ltac:(lia)) as Gc.
      unfold abs_tile_row, abs_tile_col in Gr, Gc.
      repeat split; lia.
    + intros Hall x Hx. apply covered_spec.
      assert (0 <= x - Desc.matrix A < Desc.lm A * Desc.ln A * sz) as Hx' by lia.
      destruct Hall as [E | [E | (Hi & Hj & Hmt & Hnt)]];
        [rewrite E in Hx'; lia | rewrite E in Hx'; lia |].
      destruct (quot_spec (x - Desc.matrix A) sz ltac:(lia) Hpos)
        as (Ee & Re & Qe).
      set (e := (x - Desc.matrix A) `quot` sz) in *.
      set (u := (x - Desc.matrix A) `rem` sz) in *. clearbody e u.
      assert (0 <= e < Desc.lm A * Desc.ln A) as He by nia.
      rewrite <- Htot in He.
      destruct (slot_cover _ _ _ _ _ _ Hmb Hnb QM QN RM RN e He)
        as (mm & nn & off & size & S & Hoff).
      destruct (slot_is_tile A Hwf Hi Hj Hmt Hnt mm nn off size S)
        as (Hin & -> & ->).
      exists mm, nn. eexists _, _. split; [exact Hin |].
      split; [apply (tile_bytes_general A sz); assumption |].
      set (off := tile_offset_exact A mm nn) in *.
      set (size := tile_elems A mm nn) in *. clearbody off size. nia.
Qed.

(** The whole 5 x 7 matrix of doubles in 2 x 3 tiles: all four zones. *)
Definition whole_5_by_7 : plasma_desc_t :=
  plasma_desc_general_init PlasmaRealDouble 4096 2 3 5 7 0 0 5 7.

Lemma tile_addr_partition_witness :
  general_desc_valid whole_5_by_7 = true
  /\ desc_in_machine_range whole_5_by_7 = true
  /\ exists lo hi,
    backing_store whole_5_by_7 = Some (lo, hi)
    /\ (forall tm tn, tile_in_range whole_5_by_7 tm tn ->
          exists a b, tile_bytes whole_5_by_7 tm tn = Some (a, b)
                      /\ lo <= a /\ a < b /\ b <= hi)
    /\ (forall tm tn tm' tn' a b a' b',
          tile_in_range whole_5_by_7 tm tn ->
          tile_in_range whole_5_by_7 tm' tn' ->
          (tm, tn) <> (tm', tn') ->
          tile_bytes whole_5_by_7 tm tn = Some (a, b) ->
          tile_bytes whole_5_by_7 tm' tn' = Some (a', b') ->
          (b <= a' \/ b' <= a) /\ a <> a')
    /\ ((forall x, lo <= x < hi -> covered whole_5_by_7 x = true)
        <-> Desc.lm whole_5_by_7 = 0 \/ Desc.ln whole_5_by_7 = 0
            \/ (Desc.i whole_5_by_7 `quot` Desc.mb whole_5_by_7 = 0
                /\ Desc.j whole_5_by_7 `quot` Desc.nb whole_5_by_7 = 0
                /\ Desc.mt whole_5_by_7 = Desc.lmt whole_5_by_7
                /\ Desc.nt whole_5_by_7 = Desc.lnt whole_5_by_7)).
Proof.
  split; [reflexivity |]. split; [reflexivity |].
  apply (tile_addr_partition whole_5_by_7); reflexivity.
Defined.

(** ** Sequences and requests

    [plasma_async.h] and [plasma_types.h] are not among the sources.  A
    status is a C [int]: [PlasmaSuccess] is 0, the value LAPACK's [info]
    uses for success and that the task bodies compare [info] with.  The
    error codes are negative numbers; the values here are those of
    PLASMA's [plasma_types.h], and the proofs use only that they differ
    from [PlasmaSuccess]. *)

Definition PlasmaSuccess : Z := 0.
Definition PlasmaErrorIllegalValue : Z := -103.
Definition PlasmaErrorSequence : Z := -107.
(** The names of the older interface, used by [compute/ztrmm.c] and
    [core_blas/core_zpotrf.c]. *)
Definition PLASMA_SUCCESS : Z := PlasmaSuccess.
Definition PLASMA_ERR_ILLEGAL_VALUE : Z := PlasmaErrorIllegalValue.
Definition PLASMA_ERR_SEQUENCE_FLUSHED : Z := PlasmaErrorSequence.

Module Sequence.
Record t : Set := mk { status : Z }.
End Sequence.

Module Request.
Record t : Set := mk { status : Z }.
End Request.

Abbreviation plasma_sequence_t := Sequence.t.
Abbreviation plasma_request_t := Request.t.

(** Modelled from the spec: [plasma_request_fail] is called by the sources
    and defined nowhere among them.  Section 4.2: "request_fail(seq, req,
    err) (atomically set both statuses to the first error observed)";
    section 3.2: the sequence status may move "to the first observed error,
    never reverting".  The first error observed is the one the sequence
    already holds, or [err] when it holds none. *)
Definition plasma_request_fail (sequence : plasma_sequence_t)
    (request : plasma_request_t) (status : Z)
  : plasma_sequence_t * plasma_request_t :=
  let first :=
    if Sequence.status sequence =? PlasmaSuccess then status
    else Sequence.status sequence in
  (Sequence.mk first, Request.mk first).

(** ** Memory and loops

    One heap of double precision numbers, by byte address.  A C loop
    [for (k = 0; k < n; k++)] runs its body over [seqZ 0 n]; a body may
    stop the program ([None]: a fatal error). *)

Definition heap : Type := gmap Z float.

Fixpoint for_each {S : Type} (l : list Z) (body : Z -> S -> option S) (s : S)
  : option S :=
  match l with
  | [] => Some s
  | k :: l' => s' ← body k s; for_each l' body s'
  end.

(** Address of [p[k]] for [double *p]. *)
Definition dptr (p k : Z) : Z := p + 8 * k.

(** Modelled from the spec: [core_dlacpy] is not among the sources.
    Section 4.4: "copy the subblock"; it is LAPACK's DLACPY:
    [B(i,j) = A(i,j)] column by column, for [i < m], [j < n] (general),
    [i <= j] only (upper) or [i >= j] only (lower). *)
Definition core_dlacpy (uplo : plasma_enum_t) (m n : Z) (A lda B ldb : Z)
    (h : heap) : heap :=
  foldl (fun h j =>
           foldl (fun h i =>
                    partial_alter (fun _ => h !! dptr A (i + j * lda))
                                  (dptr B (i + j * ldb)) h)
                 h (if decide (uplo = PlasmaUpper) then seqZ 0 (Z.min (j + 1) m)
                    else if decide (uplo = PlasmaLower) then seqZ j (m - j)
                    else seqZ 0 m))
        h (seqZ 0 n).

(** Modelled from the spec: [core_omp_dlacpy] is called by
    [plasma_pdge2desc] and is not among the sources.  Section 4.2: "All
    task bodies test sequence.status first and short-circuit on
    non-Success"; the body is the copy kernel.  A task runs when it is
    submitted: the order the dependencies of section 4.5 allow for tasks
    that touch the same tile. *)
Definition core_omp_dlacpy (uplo : plasma_enum_t) (m n : Z) (A lda B ldb : Z)
    (sequence : plasma_sequence_t) (h : heap) : heap :=
  if Sequence.status sequence =? PlasmaSuccess
  then core_dlacpy uplo m n A lda B ldb h else h.

(** ** Layout translation, column-major to tiles ([compute/pdge2desc.c])

    The index [(size_t)A.nb*lda*n + (size_t)A.mb*m] of the first element
    of a tile in the user's array is computed in [size_t]; the indices
    [x1*lda+y1] and [x1*A.nb+y1] of the first element of the edge range
    are [int] expressions. *)

(** The edge ranges of tile [(m, n)]. *)
Definition edge_x1 (A : plasma_desc_t) (n : Z) : Z :=
  if n =? 0 then Desc.j A `rem` Desc.nb A else 0.
Definition edge_y1 (A : plasma_desc_t) (m : Z) : Z :=
  if m =? 0 then Desc.i A `rem` Desc.mb A else 0.
Definition edge_x2 (A : plasma_desc_t) (n : Z) : Z :=
  if n =? Desc.nt A - 1
  then (Desc.j A + Desc.n A - 1) `rem` Desc.nb A + 1 else Desc.nb A.
Definition edge_y2 (A : plasma_desc_t) (m : Z) : Z :=
  if m =? Desc.mt A - 1
  then (Desc.i A + Desc.m A - 1) `rem` Desc.mb A + 1 else Desc.mb A.

Definition plasma_pdge2desc (pA lda : Z) (A : plasma_desc_t)
    (sequence : plasma_sequence_t) (h : heap) : option heap :=
  if negb (Sequence.status sequence =? PlasmaSuccess) then Some h
  else
    for_each (seqZ 0 (Desc.mt A)) (fun m h =>
      let ldt := plasma_tile_mmain A m in
      for_each (seqZ 0 (Desc.nt A)) (fun n h =>
        let x1 := edge_x1 A n in
        let y1 := edge_y1 A m in
        let x2 := edge_x2 A n in
        let y2 := edge_y2 A m in
        let f77 :=
          dptr pA (size_t_wrap
                     (size_t_wrap (size_t_wrap (Desc.nb A * lda) * n)
                      + size_t_wrap (Desc.mb A * m))) in
        bdl ← plasma_tile_addr A m n;
        Some (core_omp_dlacpy PlasmaGeneral (y2 - y1) (x2 - x1)
                (dptr f77 (int_wrap (int_wrap (x1 * lda) + y1))) lda
                (dptr bdl (int_wrap (int_wrap (x1 * Desc.nb A) + y1))) ldt
                sequence h)) h) h.

(** Modelled from the spec: [plasma_pddesc2ge] (ccrb2cm) is not among the
    sources.  Section 4.4: "ccrb2cm - inverse direction": the same tiles
    and edge ranges, each subblock copied from the tile back to [pA]. *)
Definition plasma_pddesc2ge (A : plasma_desc_t) (pA lda : Z)
    (sequence : plasma_sequence_t) (h : heap) : option heap :=
  if negb (Sequence.status sequence =? PlasmaSuccess) then Some h
  else
    for_each (seqZ 0 (Desc.mt A)) (fun m h =>
      let ldt := plasma_tile_mmain A m in
      for_each (seqZ 0 (Desc.nt A)) (fun n h =>
        let x1 := edge_x1 A n in
        let y1 := edge_y1 A m in
        let x2 := edge_x2 A n in
        let y2 := edge_y2 A m in
        let f77 :=
          dptr pA (size_t_wrap
                     (size_t_wrap (size_t_wrap (Desc.nb A * lda) * n)
                      + size_t_wrap (Desc.mb A * m))) in
        bdl ← plasma_tile_addr A m n;
        Some (core_omp_dlacpy PlasmaGeneral (y2 - y1) (x2 - x1)
                (dptr bdl (int_wrap (int_wrap (x1 * Desc.nb A) + y1))) ldt
                (dptr f77 (int_wrap (int_wrap (x1 * lda) + y1))) lda
                sequence h)) h) h.

(** The round trip: to tiles and back. *)
Definition layout_round_trip (pA lda : Z) (A : plasma_desc_t)
    (sequence : plasma_sequence_t) (h : heap) : option heap :=
  h' ← plasma_pdge2desc pA lda A sequence h;
  plasma_pddesc2ge A pA lda sequence h'.

(** Address of the element in row [r], column [c] of the submatrix, in
    the user's array: [pA] points at the origin of the first tile. *)
Definition user_elem (pA lda : Z) (A : plasma_desc_t) (r c : Z) : Z :=
  dptr pA ((Desc.i A `rem` Desc.mb A + r)
           + (Desc.j A `rem` Desc.nb A + c) * lda).

(** A heap that holds the numbers [v0; v1; ...] from address [p] on. *)
Definition doubles_at (p : Z) (vs : list float) : heap :=
  list_to_map (imap (fun k v => (dptr p (Z.of_nat k), v)) vs).

(** The numbers a heap holds in [p[0 .. len-1]]. *)
Definition read_doubles (p len : Z) (h : heap) : list (option float) :=
  (fun k => h !! dptr p k) <$> seqZ 0 len.

Definition sequence_ok : plasma_sequence_t := Sequence.mk PlasmaSuccess.

(** The whole 5 x 7 matrix in 2 x 3 tiles, stored at address 0, from a
    user array at address 4096 with [lda = 5] that holds 0, 1, ..., 34:
    the round trip gives the user array back. *)
Definition whole_5_by_7_at_0 : plasma_desc_t :=
  plasma_desc_general_init PlasmaRealDouble 0 2 3 5 7 0 0 5 7.

Definition count_up (len : nat) : list float :=
  (fun k => PrimFloat.of_uint63 (Uint63.of_Z (Z.of_nat k))) <$> seq 0 len.

Example round_trip_whole_matrix :
  read_doubles 4096 35
    <$> layout_round_trip 4096 5 whole_5_by_7_at_0 sequence_ok
          (doubles_at 4096 (count_up 35))
  = Some (Some <$> count_up 35).
Proof. vm_compute. reflexivity. Qed.

(** A view of the last (short) tile row of a 3 x 4 matrix in 2 x 2
    tiles, starting in the middle of a tile column: [i = 2], [j = 1],
    [m = 1], [n = 2].  Its two elements are in tiles (0,0) and (0,1), of
    storage height [ldt = 1]. *)
Definition last_row_view : plasma_desc_t :=
  plasma_desc_general_init PlasmaRealDouble 0 2 2 3 4 2 1 1 2.

(** C1, at a fractional origin.  The user array at 4096 ([lda = 1]) holds
    1.0 and 2.0 in the two elements of the submatrix (addresses 4104 and
    4112).  [plasma_pdge2desc] puts the first at [bdl[x1*nb + y1]] of tile
    (0,0), which is 16 bytes past a tile of 16 bytes: the first element of
    tile (0,1), where the second element goes too.  The tile store after
    the translation is the same whatever the first element was, and the
    round trip returns 2.0 for it. *)
Example cm2ccrb_fractional_origin_collision :
  general_desc_valid last_row_view = true
  /\ tiles_of last_row_view = [(0, 0); (0, 1)]
  /\ user_elem 4096 1 last_row_view 0 0 = 4104
  /\ user_elem 4096 1 last_row_view 0 1 = 4112
  /\ tile_bytes last_row_view 0 0 = Some (64, 80)
  /\ tile_bytes last_row_view 0 1 = Some (80, 96)
  /\ read_doubles 0 12
       <$> plasma_pdge2desc 4096 1 last_row_view sequence_ok
             (doubles_at 4096 [0; 1; 2]%float)
     = Some (replicate 10 None ++ [Some 2%float; None])
  /\ read_doubles 0 12
       <$> plasma_pdge2desc 4096 1 last_row_view sequence_ok
             (doubles_at 4096 [0; 7; 2]%float)
     = Some (replicate 10 None ++ [Some 2%float; None])
  /\ read_doubles 4096 3
       <$> layout_round_trip 4096 1 last_row_view sequence_ok
             (doubles_at 4096 [0; 1; 2]%float)
     = Some [Some 0; Some 2; Some 2]%float.
Proof. vm_compute. repeat split. Qed.

(** ** Scalars and tile references *)

(** [plasma_complex64_t]: real and imaginary part, both [double]. *)
Definition plasma_complex64_t : Set := float * float.

(** [z == 0.0] of C: both parts compare equal to zero. *)
Definition c_is_zero (z : plasma_complex64_t) : bool :=
  (PrimFloat.eqb z.1 0 && PrimFloat.eqb z.2 0)%float.

Definition c_one : plasma_complex64_t := (1, 0)%float.

(** What the macros [A(m, n)], [B(m, n)], [C(m, n)] denote: the tile
    [(m, n)] of a descriptor.  Its address is [plasma_tile_addr]. *)
Record tile_ref : Set := Tile { tile_desc : plasma_desc_t; tile_m : Z; tile_n : Z }.

Definition tile_ref_addr (t : tile_ref) : option Z :=
  plasma_tile_addr (tile_desc t) (tile_m t) (tile_n t).

(** ** GEMM task generation ([compute/pzgemm.c]) *)

(** One call of [core_omp_zgemm]: a submitted tile kernel
    [C := alpha * op(A) * op(B) + beta * C] on tiles. *)
Record zgemm_task : Set := ZgemmTask {
  g_transA : plasma_enum_t; g_transB : plasma_enum_t;
  g_m : Z; g_n : Z; g_k : Z;
  g_alpha : plasma_complex64_t; g_A : tile_ref; g_lda : Z;
  g_B : tile_ref; g_ldb : Z;
  g_beta : plasma_complex64_t; g_C : tile_ref; g_ldc : Z
}.

(** The tasks [plasma_pzgemm] submits for the output tile [(m, n)]: the
    body of its two outer loops. *)
Definition pzgemm_tile (transA transB : plasma_enum_t)
    (alpha : plasma_complex64_t) (A B : plasma_desc_t)
    (beta : plasma_complex64_t) (C : plasma_desc_t) (m n : Z)
  : list zgemm_task :=
  let mvcm := plasma_tile_mview C m in
  let ldcm := plasma_tile_mmain C m in
  let nvcn := plasma_tile_nview C n in
  let inner_k := if decide (transA = PlasmaNoTrans) then Desc.n A
                 else Desc.m A in
  if c_is_zero alpha || (inner_k =? 0) then
    let ldam := imax 1 (plasma_tile_mmain A 0) in
    let ldbk := imax 1 (plasma_tile_mmain B 0) in
    [ZgemmTask transA transB mvcm nvcn 0
       alpha (Tile A 0 0) ldam (Tile B 0 0) ldbk beta (Tile C m n) ldcm]
  else if decide (transA = PlasmaNoTrans) then
    let ldam := plasma_tile_mmain A m in
    if decide (transB = PlasmaNoTrans) then
      (fun k =>
         let nvak := plasma_tile_nview A k in
         let ldbk := plasma_tile_mmain B k in
         let zbeta := if k =? 0 then beta else c_one in
         ZgemmTask transA transB mvcm nvcn nvak
           alpha (Tile A m k) ldam (Tile B k n) ldbk zbeta (Tile C m n) ldcm)
      <$> seqZ 0 (Desc.nt A)
    else
      let ldbn := plasma_tile_mmain B n in
      (fun k =>
         let nvak := plasma_tile_nview A k in
         let zbeta := if k =? 0 then beta else c_one in
         ZgemmTask transA transB mvcm nvcn nvak
           alpha (Tile A m k) ldam (Tile B n k) ldbn zbeta (Tile C m n) ldcm)
      <$> seqZ 0 (Desc.nt A)
  else
    if decide (transB = PlasmaNoTrans) then
      (fun k =>
         let mvak := plasma_tile_mview A k in
         let ldak := plasma_tile_mmain A k in
         let ldbk := plasma_tile_mmain B k in
         let zbeta := if k =? 0 then beta else c_one in
         ZgemmTask transA transB mvcm nvcn mvak
           alpha (Tile A k m) ldak (Tile B k n) ldbk zbeta (Tile C m n) ldcm)
      <$> seqZ 0 (Desc.mt A)
    else
      let ldbn := plasma_tile_mmain B n in
      (fun k =>
         let mvak := plasma_tile_mview A k in
         let ldak := plasma_tile_mmain A k in
         let zbeta := if k =? 0 then beta else c_one in
         ZgemmTask transA transB mvcm nvcn mvak
           alpha (Tile A k m) ldak (Tile B n k) ldbn zbeta (Tile C m n) ldcm)
      <$> seqZ 0 (Desc.mt A).

(** [plasma_pzgemm]: the submitted tasks in submission order, and the
    sequence and the request as the call leaves them. *)
Definition plasma_pzgemm (transA transB : plasma_enum_t)
    (alpha : plasma_complex64_t) (A B : plasma_desc_t)
    (beta : plasma_complex64_t) (C : plasma_desc_t)
    (sequence : plasma_sequence_t) (request : plasma_request_t)
  : list zgemm_task * (plasma_sequence_t * plasma_request_t) :=
  if negb (Sequence.status sequence =? PlasmaSuccess) then
    ([], plasma_request_fail sequence request PlasmaErrorSequence)
  else
    (m ← seqZ 0 (Desc.mt C); n ← seqZ 0 (Desc.nt C);
     pzgemm_tile transA transB alpha A B beta C m n,
     (sequence, request)).

#[global] Instance plasma_desc_eq_dec : EqDecision plasma_desc_t.
Proof. solve_decision. Defined.

#[global] Instance tile_ref_eq_dec : EqDecision tile_ref.
Proof. solve_decision. Defined.


(** The inner dimension and the number of inner tiles of [op(A)]. *)
Definition gemm_inner (transA : plasma_enum_t) (A : plasma_desc_t) : Z :=
  if decide (transA = PlasmaNoTrans) then Desc.n A else Desc.m A.
Definition gemm_inner_tiles (transA : plasma_enum_t) (A : plasma_desc_t) : Z :=
  if decide (transA = PlasmaNoTrans) then Desc.nt A else Desc.mt A.

(** *** Selecting the tasks of one iteration of a loop nest *)






(** The product of section 8, scenario 1: [A] is 7 x 5, [B] is 5 x 9,
    [C] is 7 x 9, in 4 x 4 tiles. *)
Definition gemm_A : plasma_desc_t :=
  plasma_desc_general_init PlasmaComplexDouble 0 4 4 7 5 0 0 7 5.
Definition gemm_B : plasma_desc_t :=
  plasma_desc_general_init PlasmaComplexDouble 4096 4 4 5 9 0 0 5 9.
Definition gemm_C : plasma_desc_t :=
  plasma_desc_general_init PlasmaComplexDouble 8192 4 4 7 9 0 0 7 9.
Definition gemm_alpha : plasma_complex64_t := (1.25, 5.5)%float.
Definition gemm_beta : plasma_complex64_t := (2.5, 6.75)%float.




(** ** Band layout translation ([compute/pzoocm2ccrb_band.c]) *)

(** One call of [core_omp_zlacpy_lapack2tile_band]: the copy of the part
    of tile [(it, jt)] inside the band, from the user's band array to the
    tile.  [lb_A] is the index in [pA] of [bandA(m, n)], [lb_B] is
    [tileA(m, n)]. *)
Record lacpy_band_task : Set := LacpyBandTask {
  lb_uplo : plasma_enum_t;
  lb_it : Z; lb_jt : Z;
  lb_m : Z; lb_n : Z; lb_nb : Z; lb_kl : Z; lb_ku : Z;
  lb_A : Z; lb_lda : Z;
  lb_B : tile_ref; lb_ldb : Z
}.

(** The macro [bandA(m, n)], as an index in [pA]. *)
Definition bandA (uplo : plasma_enum_t) (lda : Z) (A : plasma_desc_t)
    (m n : Z) : Z :=
  lda * (Desc.nb A * n)
  + (if decide (uplo = PlasmaUpper) then Desc.ku A else 0)
  + Desc.mb A * (m - n).

Definition band_m_start (uplo : plasma_enum_t) (A : plasma_desc_t) (n : Z)
  : Z :=
  if decide (uplo = PlasmaGeneral) then
    imax 0 (n * Desc.nb A - Desc.ku A - Desc.kl A) `quot` Desc.nb A
  else if decide (uplo = PlasmaUpper) then
    imax 0 (n * Desc.nb A - Desc.ku A) `quot` Desc.nb A
  else
    imax 0 (n * Desc.nb A) `quot` Desc.nb A.

Definition band_m_end (uplo : plasma_enum_t) (A : plasma_desc_t) (n : Z)
  : Z :=
  if decide (uplo = PlasmaGeneral) then
    imin (Desc.m A - 1) ((n + 1) * Desc.nb A + Desc.kl A - 1) `quot` Desc.nb A
  else if decide (uplo = PlasmaUpper) then
    imin (Desc.m A - 1) ((n + 1) * Desc.nb A - 1) `quot` Desc.nb A
  else
    imin (Desc.m A - 1) ((n + 1) * Desc.nb A + Desc.kl A - 1) `quot` Desc.nb A.

(** The tasks submitted for tile column [n]: the body of the outer loop;
    [for (m = m_start; m <= m_end; m++)]. *)
Definition pzoocm2ccrb_band_column (uplo : plasma_enum_t) (lda : Z)
    (A : plasma_desc_t) (n : Z) : list lacpy_band_task :=
  let m_start := band_m_start uplo A n in
  let m_end := band_m_end uplo A n in
  (fun m =>
     let mb := imin (Desc.mb A) (Desc.m A - m * Desc.mb A) in
     let nb := imin (Desc.nb A) (Desc.n A - n * Desc.nb A) in
     LacpyBandTask uplo m n mb nb (Desc.mb A) (Desc.kl A) (Desc.ku A)
       (bandA uplo lda A m n) (lda - 1)
       (Tile A m n) (BLKLDD_BAND uplo A m n))
  <$> seqZ m_start (m_end - m_start + 1).

Definition plasma_pzoocm2ccrb_band (uplo : plasma_enum_t) (lda : Z)
    (A : plasma_desc_t)
    (sequence : plasma_sequence_t) (request : plasma_request_t)
  : list lacpy_band_task * (plasma_sequence_t * plasma_request_t) :=
  if negb (Sequence.status sequence =? PlasmaSuccess) then
    ([], plasma_request_fail sequence request PlasmaErrorSequence)
  else
    (n ← seqZ 0 (Desc.nt A); pzoocm2ccrb_band_column uplo lda A n,
     (sequence, request)).





Lemma imax_max (a b : Z) : imax a b = Z.max a b.
Proof. unfold imax. destruct (Z.ltb_spec a b); lia. Qed.

Lemma imin_min (a b : Z) : imin a b = Z.min a b.
Proof. unfold imin. destruct (Z.ltb_spec a b); lia. Qed.







(** ** Task bodies ([core_blas/])

    A task body is the block under [#pragma omp task]: it runs when the
    scheduler starts the task, on the sequence, the request and the memory
    as they are then. *)

(** *** Cholesky of a diagonal tile ([core_blas/core_zpotrf.c]) *)

Module Potrf.

(** What the body touches: the tile [A[0:n*n]], the sequence and the
    request. *)
Record state : Set := State {
  tile : list plasma_complex64_t;
  sequence : plasma_sequence_t;
  request : plasma_request_t
}.

Section Kernel.
(** LAPACK's factorization, reached through LAPACKE: the tile it leaves
    and its [info]. *)
Variable LAPACKE_zpotrf :
  plasma_enum_t -> Z -> list plasma_complex64_t -> Z ->
  list plasma_complex64_t * Z.

Definition CORE_zpotrf (uplo : plasma_enum_t) (n : Z)
    (A : list plasma_complex64_t) (lda : Z)
  : list plasma_complex64_t * Z :=
  LAPACKE_zpotrf uplo n A lda.

(** The task body of [CORE_OMP_zpotrf]. *)
Definition CORE_OMP_zpotrf (uplo : plasma_enum_t) (n lda iinfo : Z)
    (st : state) : state :=
  if Sequence.status (sequence st) =? PLASMA_SUCCESS then
    let '(A', info) := CORE_zpotrf uplo n (tile st) lda in
    if negb (info =? 0) then
      let '(s, r) := plasma_request_fail (sequence st) (request st)
                       (iinfo + info) in
      State A' s r
    else State A' (sequence st) (request st)
  else st.

End Kernel.
End Potrf.

(** *** Single to double complex conversion ([core_blas/core_clag2z.c]) *)

Module Lag2.
Section Precisions.
(** C's [float], with the conversions between [float] and [double]. *)
Variable single : Set.
Variable widen : single -> float.
Variable narrow : float -> single.

Definition plasma_complex32_t : Set := single * single.

(** A buffer holds numbers of one or the other precision.  Reading a
    number through a pointer of the other precision gives no defined value
    ([Undef]), and so does reading outside the buffer. *)
Inductive cell : Set :=
| Undef
| Single (z : plasma_complex32_t)
| Double (z : plasma_complex64_t).

Definition load_single (p : list cell) (k : Z) : option plasma_complex32_t :=
  match p !! Z.to_nat k with Some (Single z) => Some z | _ => None end.

Definition load_double (p : list cell) (k : Z) : option plasma_complex64_t :=
  match p !! Z.to_nat k with Some (Double z) => Some z | _ => None end.

(** [LAPACKE_clag2z_work(LAPACK_COL_MAJOR, m, n, SA, ldsa, A, lda)]:
    [A(i,j) = SA(i,j)], widened; the result is the buffer [A]. *)
Definition LAPACKE_clag2z_work (m n : Z) (SA : list cell) (ldsa : Z)
    (A : list cell) (lda : Z) : list cell :=
  foldl (fun A j =>
           foldl (fun A i =>
                    <[Z.to_nat (i + j * lda) :=
                        match load_single SA (i + j * ldsa) with
                        | Some z => Double (widen z.1, widen z.2)
                        | None => Undef
                        end]> A)
                 A (seqZ 0 m))
        A (seqZ 0 n).

(** [LAPACKE_zlag2c_work(LAPACK_COL_MAJOR, m, n, A, lda, SA, ldsa)]:
    [SA(i,j) = A(i,j)], narrowed; the result is the buffer [SA]. *)
Definition LAPACKE_zlag2c_work (m n : Z) (A : list cell) (lda : Z)
    (SA : list cell) (ldsa : Z) : list cell :=
  foldl (fun SA j =>
           foldl (fun SA i =>
                    <[Z.to_nat (i + j * ldsa) :=
                        match load_double A (i + j * lda) with
                        | Some z => Single (narrow z.1, narrow z.2)
                        | None => Undef
                        end]> SA)
                 SA (seqZ 0 m))
        SA (seqZ 0 n).

(** [core_clag2z]: the kernel; it does not look at the sequence or the
    request.  The result is the buffer [A]. *)
Definition core_clag2z (m n : Z) (As : list cell) (ldas : Z)
    (A : list cell) (lda : Z)
    (sequence : plasma_sequence_t) (request : plasma_request_t)
  : list cell :=
  LAPACKE_clag2z_work m n As ldas A lda.

(** Modelled from the spec: [core_zlag2c] is called by [core_omp_clag2z]
    and is not among the sources.  Section 9: the precision variants come
    from one template; this is the kernel of the opposite conversion,
    [core_zlag2c(m, n, A, lda, As, ldas, sequence, request)], the image of
    [core_clag2z].  The result is the buffer [As]. *)
Definition core_zlag2c (m n : Z) (A : list cell) (lda : Z)
    (As : list cell) (ldas : Z)
    (sequence : plasma_sequence_t) (request : plasma_request_t)
  : list cell :=
  LAPACKE_zlag2c_work m n A lda As ldas.

(** The task body of [core_omp_clag2z]: the call
    [core_zlag2c(m, n, As, ldas, A, lda, sequence, request)].  The result
    is the buffer the caller knows as [A]. *)
Definition core_omp_clag2z (m n : Z) (As : list cell) (ldas : Z)
    (A : list cell) (lda : Z)
    (sequence : plasma_sequence_t) (request : plasma_request_t)
  : list cell :=
  core_zlag2c m n As ldas A lda sequence request.

End Precisions.
End Lag2.

(** *** What a failure records, and what a failed sequence cancels *)

(** A sequence that has failed keeps its first error through every later
    [plasma_request_fail]; the request is given that error. *)
Lemma request_fail_keeps_first_error (sequence : plasma_sequence_t)
    (request : plasma_request_t) (status : Z) :
  Sequence.status sequence <> PlasmaSuccess ->
  plasma_request_fail sequence request status
  = (sequence, Request.mk (Sequence.status sequence)).
Proof.
  intros Hs. unfold plasma_request_fail.
  destruct (Z.eqb_spec (Sequence.status sequence) PlasmaSuccess) as [E | _];
    [contradiction |].
  destruct sequence; reflexivity.
Qed.

(** On a sequence in state Success it records [status] in both. *)
Lemma request_fail_records (sequence : plasma_sequence_t)
    (request : plasma_request_t) (status : Z) :
  Sequence.status sequence = PlasmaSuccess ->
  plasma_request_fail sequence request status
  = (Sequence.mk status, Request.mk status).
Proof. intros Hs. unfold plasma_request_fail. rewrite Hs. reflexivity. Qed.

(** The body of [CORE_OMP_zpotrf], started on a failed sequence, changes
    nothing: not the tile, not the sequence, not the request. *)
Lemma zpotrf_cancelled
    (LAPACKE_zpotrf : plasma_enum_t -> Z -> list plasma_complex64_t -> Z ->
                      list plasma_complex64_t * Z)
    (uplo : plasma_enum_t) (n lda iinfo : Z) (st : Potrf.state) :
  Sequence.status (Potrf.sequence st) <> PlasmaSuccess ->
  Potrf.CORE_OMP_zpotrf LAPACKE_zpotrf uplo n lda iinfo st = st.
Proof.
  intros Hs. unfold Potrf.CORE_OMP_zpotrf, PLASMA_SUCCESS.
  destruct (Z.eqb_spec (Sequence.status (Potrf.sequence st)) PlasmaSuccess);
    [contradiction | reflexivity].
Qed.

Lemma zpotrf_cancelled_witness :
  Potrf.CORE_OMP_zpotrf (fun _ _ A _ => (A, 3)) PlasmaLower 6 6 0
    (Potrf.State [(1, 0)%float] (Sequence.mk PlasmaErrorSequence)
       (Request.mk PlasmaSuccess))
  = Potrf.State [(1, 0)%float] (Sequence.mk PlasmaErrorSequence)
      (Request.mk PlasmaSuccess).
Proof.
  apply (zpotrf_cancelled (fun _ _ A _ => (A, 3)) PlasmaLower 6 6 0
           (Potrf.State [(1, 0)%float] (Sequence.mk PlasmaErrorSequence)
              (Request.mk PlasmaSuccess))).
  discriminate.
Defined.

(** However many failures follow, a failed sequence keeps its status: it
    never returns to Success and retains the first error. *)
Lemma sequence_status_monotone (sequence : plasma_sequence_t)
    (request : plasma_request_t) (failures : list Z) :
  Sequence.status sequence <> PlasmaSuccess ->
  (foldl (fun sr status => plasma_request_fail sr.1 sr.2 status)
         (sequence, request) failures).1
  = sequence.
Proof.
  intros Hs. revert request.
  induction failures as [| e es IH]; intros request; [reflexivity |].
  simpl. rewrite request_fail_keeps_first_error by exact Hs. apply IH.
Qed.

(** C5.  When the body of [CORE_OMP_zpotrf] starts on a sequence in state
    Success, it calls the kernel; if the kernel returns [info <> 0] the
    sequence status and the request status both become [iinfo + info], and
    if it returns 0 the sequence and the request are as before. *)
Theorem zpotrf_info_forwarded
    (LAPACKE_zpotrf : plasma_enum_t -> Z -> list plasma_complex64_t -> Z ->
                      list plasma_complex64_t * Z)
    (uplo : plasma_enum_t) (n lda iinfo : Z) (st : Potrf.state) :
  Sequence.status (Potrf.sequence st) = PLASMA_SUCCESS ->
  let out := Potrf.CORE_zpotrf LAPACKE_zpotrf uplo n (Potrf.tile st) lda in
  let st' := Potrf.CORE_OMP_zpotrf LAPACKE_zpotrf uplo n lda iinfo st in
  Potrf.tile st' = out.1
  /\ (out.2 <> 0 ->
      Sequence.status (Potrf.sequence st') = iinfo + out.2
      /\ Request.status (Potrf.request st') = iinfo + out.2)
  /\ (out.2 = 0 ->
      Potrf.sequence st' = Potrf.sequence st
      /\ Potrf.request st' = Potrf.request st).
Proof.
  intros Hs out st'. subst out st'. unfold Potrf.CORE_OMP_zpotrf.
  rewrite Hs, Z.eqb_refl.
  destruct (Potrf.CORE_zpotrf LAPACKE_zpotrf uplo n (Potrf.tile st) lda)
    as [A' info]. cbn [fst snd].
  destruct (Z.eqb_spec info 0) as [-> | Hinfo]; cbn [negb].
  - repeat split; intros; congruence.
  - rewrite request_fail_records by exact Hs. simpl.
    repeat split; intros; congruence.
Qed.

(** The third diagonal element of [diag(1, 1, -1, 1, 1, 1)] (section 8,
    scenario 3): a kernel that reports [info = 3] on a tile at [iinfo = 0]. *)
Lemma zpotrf_info_forwarded_witness :
  let kernel := fun (_ : plasma_enum_t) (_ : Z)
                    (A : list plasma_complex64_t) (_ : Z) => (A, 3) in
  let st := Potrf.State [] sequence_ok (Request.mk PlasmaSuccess) in
  let st' := Potrf.CORE_OMP_zpotrf kernel PlasmaLower 6 6 0 st in
  Potrf.tile st' = []
  /\ (3 <> 0 ->
      Sequence.status (Potrf.sequence st') = 0 + 3
      /\ Request.status (Potrf.request st') = 0 + 3)
  /\ (3 = 0 ->
      Potrf.sequence st' = Potrf.sequence st
      /\ Potrf.request st' = Potrf.request st).
Proof.
  exact (zpotrf_info_forwarded
           (fun _ _ A _ => (A, 3)) PlasmaLower 6 6 0
           (Potrf.State [] sequence_ok (Request.mk PlasmaSuccess)) eq_refl).
Defined.

(** C10, at a 1 x 1 matrix.  A direct call of [core_clag2z] leaves the
    widened number in [A]; the body of [core_omp_clag2z] calls
    [core_zlag2c] with [As] as its double precision source and [A] as its
    single precision destination, and leaves no defined double precision
    number in [A]. *)
Example clag2z_task_calls_other_kernel
    (single : Set) (widen : single -> float) (narrow : float -> single)
    (z : Lag2.plasma_complex32_t single) (w : plasma_complex64_t)
    (sequence : plasma_sequence_t) (request : plasma_request_t) :
  Lag2.core_clag2z single widen 1 1
    [Lag2.Single single z] 1 [Lag2.Double single w] 1 sequence request
  = [Lag2.Double single (widen z.1, widen z.2)]
  /\ Lag2.core_omp_clag2z single narrow 1 1
       [Lag2.Single single z] 1 [Lag2.Double single w] 1 sequence request
     = [Lag2.Undef single].
Proof. split; reflexivity. Qed.

(** C4, at the body of [core_omp_clag2z].  The body does not test the
    sequence: started on a failed sequence it still runs its kernel and
    overwrites [A], the region it declares [depend(out)]. *)
Example clag2z_task_runs_on_failed_sequence
    (single : Set) (narrow : float -> single)
    (z : Lag2.plasma_complex32_t single) (w : plasma_complex64_t)
    (request : plasma_request_t) :
  let failed := Sequence.mk PlasmaErrorSequence in
  (Sequence.status failed =? PlasmaSuccess) = false
  /\ Lag2.core_omp_clag2z single narrow 1 1
       [Lag2.Single single z] 1 [Lag2.Double single w] 1 failed request
     = [Lag2.Undef single]
  /\ [Lag2.Undef single] <> [Lag2.Double single w].
Proof. repeat split. discriminate. Qed.

(** ** Sum of squares of a symmetric matrix ([core_blas/core_zsyssq.c])

    The file is a template for all precisions ([@precisions normal z -> c
    d s]): the arithmetic of the reduction is that of [double] here and of
    [float] in the single precision variants.  [Real_ops] is the
    arithmetic the reduction uses. *)

Class Real_ops (F : Type) : Type := {
  f_zero : F; f_one : F; f_two : F;
  f_add : F -> F -> F; f_mul : F -> F -> F; f_div : F -> F -> F;
  f_ltb : F -> F -> bool;
  f_sqrt : F -> F
}.

(** C's [double]: IEEE 754 binary64. *)
#[global] Instance double_ops : Real_ops float := {|
  f_zero := 0%float; f_one := 1%float; f_two := 2%float;
  f_add := PrimFloat.add; f_mul := PrimFloat.mul; f_div := PrimFloat.div;
  f_ltb := PrimFloat.ltb;
  f_sqrt := PrimFloat.sqrt
|}.

Declare Scope ops_scope.
Delimit Scope ops_scope with ops.
Infix "+" := f_add : ops_scope.
Infix "*" := f_mul : ops_scope.
Infix "/" := f_div : ops_scope.
Infix "<?" := f_ltb : ops_scope.

Module Syssq.
Section Reduction.
Context {F : Type} `{Real_ops F}.

(** The task body of [core_omp_zsyssq_aux]: [scale] and [sumsq] are the
    arrays of the per-tile pairs, tile [(i, j)] at index [m*j + i]; the
    result is what the body leaves in [*value]. *)
Definition core_omp_zsyssq_aux (m n : Z) (scale sumsq : Z -> F) (value : F)
    (sequence : plasma_sequence_t) : F :=
  if Sequence.status sequence =? PlasmaSuccess then
    let '(scl, sum) :=
      foldl (fun st j =>
               foldl (fun '(scl, sum) i =>
                        let idx := (m * j + i)%Z in
                        if (scl <? scale idx)%ops then
                          (scale idx,
                           (sumsq idx
                            + sum * ((scl / scale idx) * (scl / scale idx)))%ops)
                        else
                          (scl,
                           (sum
                            + sumsq idx
                              * ((scale idx / scl) * (scale idx / scl)))%ops))
                     st (seqZ (j + 1) (n - (j + 1))))
            (f_zero, f_one) (seqZ 0 n) in
    let sum := (f_two * sum)%ops in
    let '(scl, sum) :=
      foldl (fun '(scl, sum) j =>
               let idx := (m * j + j)%Z in
               if (scl <? scale idx)%ops then
                 (scale idx,
                  (sumsq idx
                   + sum * ((scl / scale idx) * (scl / scale idx)))%ops)
               else
                 (scl,
                  (sum
                   + sumsq idx * ((scale idx / scl) * (scale idx / scl)))%ops))
            (scl, sum) (seqZ 0 n) in
    (scl * f_sqrt sum)%ops
  else value.

(** The rule of section 4.6.7 for merging the pair [(a, sumsq_a)] of a
    tile into the running pair [(scl, sum)]: if [scl < a] then
    [sum := sumsq_a + sum * (scl/a)^2] and [scl := a], else
    [sum := sum + sumsq_a * (a/scl)^2]. *)
Definition square (x : F) : F := (x * x)%ops.

Definition ssq_merge (acc tile : F * F) : F * F :=
  let (scl, sum) := acc in
  let (a, sumsq_a) := tile in
  if (scl <? a)%ops then (a, (sumsq_a + sum * square (scl / a))%ops)
  else (scl, (sum + sumsq_a * square (a / scl))%ops).

(** Giving weight [w] to what has been merged so far. *)
Definition ssq_weight (w : F) (acc : F * F) : F * F :=
  (acc.1, (w * acc.2)%ops).

(** The pair of tile [(i, j)]. *)
Definition tile_pair (m : Z) (scale sumsq : Z -> F) (i j : Z) : F * F :=
  (scale (m * j + i)%Z, sumsq (m * j + i)%Z).

(** The pairs of the tiles strictly below the diagonal, column by column,
    and those of the diagonal tiles. *)
Definition offdiag_pairs (m n : Z) (scale sumsq : Z -> F) : list (F * F) :=
  j ← seqZ 0 n; i ← seqZ (j + 1) (n - (j + 1));
  [tile_pair m scale sumsq i j].

Definition diag_pairs (m n : Z) (scale sumsq : Z -> F) : list (F * F) :=
  (fun j => tile_pair m scale sumsq j j) <$> seqZ 0 n.

(** The reduction as section 4.6.7 states it: the off-diagonal pairs
    merged and given weight 2, then the diagonal pairs merged with weight
    1, and the value [scl * sqrt(sum)]. *)
Definition symmetric_norm (m n : Z) (scale sumsq : Z -> F) : F :=
  let acc := foldl ssq_merge (f_zero, f_one) (offdiag_pairs m n scale sumsq) in
  let acc := ssq_weight f_two acc in
  let acc := foldl ssq_merge acc (diag_pairs m n scale sumsq) in
  (acc.1 * f_sqrt acc.2)%ops.

End Reduction.
End Syssq.

(** *** Loops as folds over the lists of their iterations *)

Lemma foldl_ext_eq {S T : Type} (f g : S -> T -> S) (l : list T) (s : S) :
  (forall s x, f s x = g s x) -> foldl f s l = foldl g s l.
Proof.
  intros Hfg. revert s. induction l as [| x l IH]; intros s; simpl;
    [reflexivity | rewrite Hfg; apply IH].
Qed.

Lemma foldl_bind_nested {S T U : Type} (f : S -> U -> S) (g : T -> list U)
    (l : list T) (s : S) :
  foldl f s (l ≫= g) = foldl (fun s x => foldl f s (g x)) s l.
Proof.
  revert s. induction l as [| x l IH]; intros s; [reflexivity |].
  rewrite bind_cons, foldl_app. apply IH.
Qed.

Section ReductionProofs.
Context {F : Type} `{Real_ops F}.

Lemma offdiag_fold (m n : Z) (scale sumsq : Z -> F) (acc : F * F) :
  foldl Syssq.ssq_merge acc (Syssq.offdiag_pairs m n scale sumsq)
  = foldl (fun st j =>
             foldl (fun st i =>
                      Syssq.ssq_merge st (Syssq.tile_pair m scale sumsq i j))
                   st (seqZ (j + 1) (n - (j + 1))))
          acc (seqZ 0 n).
Proof.
  unfold Syssq.offdiag_pairs. rewrite foldl_bind_nested.
  apply foldl_ext_eq. intros st j. rewrite foldl_bind_nested. reflexivity.
Qed.

Lemma diag_fold (m n : Z) (scale sumsq : Z -> F) (acc : F * F) :
  foldl Syssq.ssq_merge acc (Syssq.diag_pairs m n scale sumsq)
  = foldl (fun st j =>
             Syssq.ssq_merge st (Syssq.tile_pair m scale sumsq j j))
          acc (seqZ 0 n).
Proof. unfold Syssq.diag_pairs. apply foldl_fmap. Qed.

(** On a sequence in state Success the body of [core_omp_zsyssq_aux]
    leaves in [*value] the result of the reduction of section 4.6.7: the
    pairs of the off-diagonal tiles merged by the rule and weighted 2, the
    pairs of the diagonal tiles merged by the rule with weight 1, and
    [scl * sqrt(sum)] of the pair that results. *)
Lemma zsyssq_aux_reduction (m n : Z) (scale sumsq : Z -> F) (value : F)
    (sequence : plasma_sequence_t) :
  Sequence.status sequence = PlasmaSuccess ->
  Syssq.core_omp_zsyssq_aux m n scale sumsq value sequence
  = Syssq.symmetric_norm m n scale sumsq.
Proof.
  intros Hs. unfold Syssq.core_omp_zsyssq_aux, Syssq.symmetric_norm.
  rewrite Hs, Z.eqb_refl, offdiag_fold, diag_fold.
  match goal with
  | |- (let '(_, _) := ?a in _) = _ =>
      match goal with
      | |- context [Syssq.ssq_weight f_two ?b] =>
          replace a with b; [destruct b as [scl sum] |]
      end
  end.
  - unfold Syssq.ssq_weight; cbn [fst snd].
    match goal with
    | |- (let '(_, _) := ?a in _) = _ =>
        match goal with
        | |- _ = (f_mul (fst ?b) _) => replace a with b; [destruct b |]
        end
    end.
    + reflexivity.
    + apply foldl_ext_eq. intros [s q] j. reflexivity.
  - apply foldl_ext_eq. intros st j. apply foldl_ext_eq.
    intros [s q] i. reflexivity.
Qed.

End ReductionProofs.

(** Three tiles with [scale] 3 (diagonal), 4 (below the diagonal) and 5
    (diagonal) and [sumsq] 1: the value is [sqrt(9 + 2*16 + 25)]. *)
Definition three_tiles_scale (k : Z) : float :=
  match k with 0 => 3 | 1 => 4 | 3 => 5 | _ => 0 end%float.

Example zsyssq_aux_three_tiles :
  Syssq.core_omp_zsyssq_aux 2 2 three_tiles_scale (fun _ => 1%float) 0%float
    sequence_ok
  = PrimFloat.sqrt 66.
Proof. vm_compute. reflexivity. Qed.

(** ** Asynchronous entry point of TRMM ([compute/ztrmm.c]) *)

Module Trmm.
Section Async.
(** The context [plasma_context_self()] returns, the tile memory, the
    submitted tasks, and the two functions of the repository that the
    entry point calls and that are not among the sources. *)
Variable plasma_context_t : Type.
Variable tiles : Type.
Variable task : Type.
Variable plasma_desc_check : plasma_desc_t -> Z.

(** What a call can change besides the sequence and the request: the
    queue of submitted tasks and the tiles. *)
Record world : Type := World { submitted : list task; memory : tiles }.

Variable plasma_pztrmm :
  plasma_enum_t -> plasma_enum_t -> plasma_enum_t -> plasma_enum_t ->
  plasma_complex64_t -> plasma_desc_t -> plasma_desc_t ->
  plasma_sequence_t -> plasma_request_t -> world ->
  world * plasma_sequence_t * plasma_request_t.

(** [plasma_request_fail] through the pointers the entry point got: a
    null pointer is dereferenced ([None]). *)
Definition request_fail_at (w : world)
    (sequence : option plasma_sequence_t) (request : option plasma_request_t)
    (status : Z) : option (world * plasma_sequence_t * plasma_request_t) :=
  s ← sequence; r ← request;
  let '(s', r') := plasma_request_fail s r status in Some (w, s', r').

(** [PLASMA_ztrmm_Tile_Async]: [plasma] is what [plasma_context_self()]
    returns, [sequence] and [request] are the objects the two pointers
    point to ([None]: a null pointer). *)
Definition PLASMA_ztrmm_Tile_Async (plasma : option plasma_context_t)
    (side uplo transA diag : plasma_enum_t) (alpha : plasma_complex64_t)
    (A B : plasma_desc_t)
    (sequence : option plasma_sequence_t) (request : option plasma_request_t)
    (w : world) : option (world * plasma_sequence_t * plasma_request_t) :=
  let fail := request_fail_at w sequence request in
  match plasma, sequence, request with
  | None, _, _ => fail PLASMA_ERR_ILLEGAL_VALUE
  | _, None, _ => fail PLASMA_ERR_ILLEGAL_VALUE
  | _, _, None => fail PLASMA_ERR_ILLEGAL_VALUE
  | Some _, Some s, Some r =>
      if negb (Sequence.status s =? PLASMA_SUCCESS) then
        fail PLASMA_ERR_SEQUENCE_FLUSHED
      else if negb (plasma_desc_check A =? PLASMA_SUCCESS) then
        fail PLASMA_ERR_ILLEGAL_VALUE
      else if negb (plasma_desc_check B =? PLASMA_SUCCESS) then
        fail PLASMA_ERR_ILLEGAL_VALUE
      else
        let descA := A in
        let descB := B in
        if negb (Desc.nb descA =? Desc.mb descA)
           || negb (Desc.nb descB =? Desc.mb descB) then
          fail PLASMA_ERR_ILLEGAL_VALUE
        else if bool_decide (side <> PlasmaLeft /\ side <> PlasmaRight) then
          fail PLASMA_ERR_ILLEGAL_VALUE
        else if bool_decide (uplo <> PlasmaUpper /\ uplo <> PlasmaLower) then
          fail PLASMA_ERR_ILLEGAL_VALUE
        else if bool_decide (transA <> PlasmaConjTrans
                             /\ transA <> PlasmaNoTrans
                             /\ transA <> PlasmaTrans) then
          fail PLASMA_ERR_ILLEGAL_VALUE
        else if bool_decide (diag <> PlasmaUnit /\ diag <> PlasmaNonUnit) then
          fail PLASMA_ERR_ILLEGAL_VALUE
        else if (Desc.m A =? 0) || (Desc.n A =? 0) || c_is_zero alpha
                || (Desc.m B =? 0) || (Desc.n B =? 0) then
          Some (w, s, r)
        else
          Some (plasma_pztrmm side uplo transA diag alpha descA descB s r w)
  end.

End Async.
End Trmm.

Section TrmmQuickReturn.
Variable plasma_context_t : Type.
Variable tiles : Type.
Variable task : Type.
Variable plasma_desc_check : plasma_desc_t -> Z.
Variable plasma_pztrmm :
  plasma_enum_t -> plasma_enum_t -> plasma_enum_t -> plasma_enum_t ->
  plasma_complex64_t -> plasma_desc_t -> plasma_desc_t ->
  plasma_sequence_t -> plasma_request_t -> Trmm.world tiles task ->
  Trmm.world tiles task * plasma_sequence_t * plasma_request_t.

Local Abbreviation ztrmm_async :=
  (Trmm.PLASMA_ztrmm_Tile_Async plasma_context_t tiles task
     plasma_desc_check plasma_pztrmm).

Lemma request_fail_at_world (w w' : Trmm.world tiles task)
    (sequence : option plasma_sequence_t) (request : option plasma_request_t)
    (status : Z) (s' : plasma_sequence_t) (r' : plasma_request_t) :
  Trmm.request_fail_at tiles task w sequence request status
  = Some (w', s', r') -> w' = w.
Proof.
  unfold Trmm.request_fail_at.
  destruct sequence as [s |], request as [r |]; simpl; try discriminate.
  destruct (plasma_request_fail s r status). intros [= <- _ _]. reflexivity.
Qed.

(** What [plasma_request_fail] leaves in the sequence and the request: the
    same status in both, which is not Success when [status] is not. *)
Lemma request_fail_at_records (w : Trmm.world tiles task)
    (s : plasma_sequence_t) (r : plasma_request_t) (status : Z) :
  status <> PLASMA_SUCCESS ->
  exists e,
    Trmm.request_fail_at tiles task w (Some s) (Some r) status
    = Some (w, Sequence.mk e, Request.mk e)
    /\ e <> PLASMA_SUCCESS
    /\ (Sequence.status s <> PLASMA_SUCCESS -> e = Sequence.status s).
Proof.
  intros Hstatus. unfold Trmm.request_fail_at, plasma_request_fail. simpl.
  eexists. split; [reflexivity |].
  destruct (Z.eqb_spec (Sequence.status s) PlasmaSuccess) as [E | Hne];
    split; try assumption; try reflexivity.
  intros Hs. contradiction.
Qed.

(** C9, amended.  With [alpha == 0], a call that returns has submitted no
    task and left every tile as it was, whatever its other arguments; when
    the context is initialized, the sequence and the request are not
    null, the sequence is in state Success, both descriptors pass
    [plasma_desc_check] and have square tiles, and [side], [uplo],
    [transA] and [diag] are legal, the call returns with the sequence and
    the request unchanged too; and when the sequence and the request are
    not null and one of the other conditions fails, the call returns with
    the same status in the sequence and in the request, which is not
    Success: the status the sequence had if it had failed already. *)
Theorem ztrmm_alpha_zero_quick_return
    (plasma : option plasma_context_t)
    (side uplo transA diag : plasma_enum_t) (alpha : plasma_complex64_t)
    (A B : plasma_desc_t)
    (sequence : option plasma_sequence_t) (request : option plasma_request_t)
    (w : Trmm.world tiles task) :
  c_is_zero alpha = true ->
  (forall w' s' r',
     ztrmm_async plasma side uplo transA diag alpha A B sequence request w
     = Some (w', s', r') -> w' = w)
  /\ (forall s r,
        is_Some plasma -> sequence = Some s -> request = Some r ->
        Sequence.status s = PLASMA_SUCCESS ->
        plasma_desc_check A = PLASMA_SUCCESS ->
        plasma_desc_check B = PLASMA_SUCCESS ->
        Desc.nb A = Desc.mb A -> Desc.nb B = Desc.mb B ->
        side = PlasmaLeft \/ side = PlasmaRight ->
        uplo = PlasmaUpper \/ uplo = PlasmaLower ->
        transA = PlasmaConjTrans \/ transA = PlasmaNoTrans
        \/ transA = PlasmaTrans ->
        diag = PlasmaUnit \/ diag = PlasmaNonUnit ->
        ztrmm_async plasma side uplo transA diag alpha A B sequence request w
        = Some (w, s, r))
  /\ (forall s r,
        sequence = Some s -> request = Some r ->
        plasma = None
        \/ Sequence.status s <> PLASMA_SUCCESS
        \/ plasma_desc_check A <> PLASMA_SUCCESS
        \/ plasma_desc_check B <> PLASMA_SUCCESS
        \/ Desc.nb A <> Desc.mb A \/ Desc.nb B <> Desc.mb B
        \/ (side <> PlasmaLeft /\ side <> PlasmaRight)
        \/ (uplo <> PlasmaUpper /\ uplo <> PlasmaLower)
        \/ (transA <> PlasmaConjTrans /\ transA <> PlasmaNoTrans
            /\ transA <> PlasmaTrans)
        \/ (diag <> PlasmaUnit /\ diag <> PlasmaNonUnit) ->
        exists e,
          ztrmm_async plasma side uplo transA diag alpha A B
            sequence request w
          = Some (w, Sequence.mk e, Request.mk e)
          /\ e <> PLASMA_SUCCESS
          /\ (Sequence.status s <> PLASMA_SUCCESS -> e = Sequence.status s)).
Proof.
  intros Halpha. split; [| split].
  - intros w' s' r'. unfold Trmm.PLASMA_ztrmm_Tile_Async.
    rewrite Halpha, !orb_true_r, orb_true_l.
    repeat case_match; subst;
      first [ apply request_fail_at_world
            | intros [= <- _ _]; reflexivity ].
  - intros s r [ctx ->] -> -> Hs HA HB HtA HtB Hside Huplo Htrans Hdiag.
    unfold Trmm.PLASMA_ztrmm_Tile_Async.
    rewrite Hs, HA, HB, HtA, HtB, !Z.eqb_refl, Halpha. cbn [negb orb].
    rewrite !bool_decide_eq_false_2 by tauto.
    rewrite !orb_true_r. reflexivity.
  - intros s r -> -> Hbad. unfold Trmm.PLASMA_ztrmm_Tile_Async.
    destruct plasma as [ctx |];
      [| apply request_fail_at_records; discriminate].
    destruct (Z.eqb_spec (Sequence.status s) PLASMA_SUCCESS) as [Hs | Hs];
      cbn [negb]; [| apply request_fail_at_records; discriminate].
    destruct (Z.eqb_spec (plasma_desc_check A) PLASMA_SUCCESS) as [HA | HA];
      cbn [negb]; [| apply request_fail_at_records; discriminate].
    destruct (Z.eqb_spec (plasma_desc_check B) PLASMA_SUCCESS) as [HB | HB];
      cbn [negb]; [| apply request_fail_at_records; discriminate].
    cbn zeta.
    destruct (Z.eqb_spec (Desc.nb A) (Desc.mb A)) as [HtA | HtA];
      cbn [negb orb]; [| apply request_fail_at_records; discriminate].
    destruct (Z.eqb_spec (Desc.nb B) (Desc.mb B)) as [HtB | HtB];
      cbn [negb orb]; [| apply request_fail_at_records; discriminate].
    repeat (case_bool_decide;
            [apply request_fail_at_records; discriminate |]).
    exfalso. destruct Hbad as [? | Hbad]; [discriminate |]. tauto.
Qed.

End TrmmQuickReturn.

(** A triangular 5 x 5 matrix and a 5 x 9 right-hand side, in 4 x 4
    tiles; descriptors are checked with the invariants of section 3.1. *)
Definition trmm_A : plasma_desc_t :=
  plasma_desc_general_init PlasmaComplexDouble 0 4 4 5 5 0 0 5 5.
Definition trmm_B : plasma_desc_t :=
  plasma_desc_general_init PlasmaComplexDouble 4096 4 4 5 9 0 0 5 9.
Definition check_by_invariants (A : plasma_desc_t) : Z :=
  if general_desc_valid A then PLASMA_SUCCESS else PLASMA_ERR_ILLEGAL_VALUE.
Definition no_pztrmm (side uplo transA diag : plasma_enum_t)
    (alpha : plasma_complex64_t) (A B : plasma_desc_t)
    (s : plasma_sequence_t) (r : plasma_request_t)
    (w : Trmm.world unit unit) :
  Trmm.world unit unit * plasma_sequence_t * plasma_request_t :=
  (w, s, r).
Definition empty_world : Trmm.world unit unit := Trmm.World unit unit [] tt.

(** C9 as stated fails: [alpha] is 0 and both descriptors are valid and
    not empty, and the call, given an illegal [side], sets the sequence
    and the request status to [PLASMA_ERR_ILLEGAL_VALUE] before it reaches
    the quick return. *)
Example ztrmm_alpha_zero_illegal_side :
  c_is_zero (0, 0)%float = true
  /\ check_by_invariants trmm_A = PLASMA_SUCCESS
  /\ check_by_invariants trmm_B = PLASMA_SUCCESS
  /\ Trmm.PLASMA_ztrmm_Tile_Async unit unit unit check_by_invariants
       no_pztrmm (Some tt)
       PlasmaGeneral PlasmaUpper PlasmaNoTrans PlasmaNonUnit (0, 0)%float
       trmm_A trmm_B (Some sequence_ok) (Some (Request.mk PlasmaSuccess))
       empty_world
     = Some (empty_world, Sequence.mk PLASMA_ERR_ILLEGAL_VALUE,
             Request.mk PLASMA_ERR_ILLEGAL_VALUE).
Proof. repeat split. Qed.

Lemma ztrmm_alpha_zero_quick_return_witness :
  (forall w' s' r',
     Trmm.PLASMA_ztrmm_Tile_Async unit unit unit check_by_invariants
       no_pztrmm (Some tt)
       PlasmaLeft PlasmaUpper PlasmaNoTrans PlasmaNonUnit (0, 0)%float
       trmm_A trmm_B (Some sequence_ok) (Some (Request.mk PlasmaSuccess))
       empty_world
     = Some (w', s', r') -> w' = empty_world)
  /\ Trmm.PLASMA_ztrmm_Tile_Async unit unit unit check_by_invariants
       no_pztrmm (Some tt)
       PlasmaLeft PlasmaUpper PlasmaNoTrans PlasmaNonUnit (0, 0)%float
       trmm_A trmm_B (Some sequence_ok) (Some (Request.mk PlasmaSuccess))
       empty_world
     = Some (empty_world, sequence_ok, Request.mk PlasmaSuccess).
Proof.
  destruct (ztrmm_alpha_zero_quick_return unit unit unit check_by_invariants
              no_pztrmm (Some tt)
              PlasmaLeft PlasmaUpper PlasmaNoTrans PlasmaNonUnit (0, 0)%float
              trmm_A trmm_B (Some sequence_ok)
              (Some (Request.mk PlasmaSuccess)) empty_world eq_refl)
    as (Hworld & Hquick & _).
  split; [exact Hworld |].
  apply Hquick; try reflexivity; eauto.
Defined.

(** The body of [core_omp_zsyssq_aux], started on a failed sequence,
    leaves [*value] as it was. *)
Lemma zsyssq_aux_cancelled {F : Type} `{Real_ops F} (m n : Z)
    (scale sumsq : Z -> F) (value : F) (sequence : plasma_sequence_t) :
  Sequence.status sequence <> PlasmaSuccess ->
  Syssq.core_omp_zsyssq_aux m n scale sumsq value sequence = value.
Proof.
  intros Hs. unfold Syssq.core_omp_zsyssq_aux.
  destruct (Z.eqb_spec (Sequence.status sequence) PlasmaSuccess);
    [contradiction | reflexivity].
Qed.

(** ** The reduction in exact arithmetic *)

(** The real numbers as the arithmetic of the reduction: what the
    floating-point computation approximates. *)
#[global] Instance exact_ops : Real_ops R := {|
  f_zero := 0%R; f_one := 1%R; f_two := 2%R;
  f_add := Rplus; f_mul := Rmult; f_div := Rdiv;
  f_ltb := fun x y => if Rlt_dec x y then true else false;
  f_sqrt := sqrt
|}.

(** The sum of squares a pair [(scl, sum)] stands for: [scl^2 * sum]. *)
Definition ssq_value (acc : R * R) : R := (acc.1 * acc.1 * acc.2)%R.

(** A pair with a non-negative scale and a non-negative sum. *)
Definition ssq_ok (acc : R * R) : Prop := (0 <= acc.1)%R /\ (0 <= acc.2)%R.

(** The pair of a tile that is not zero: a positive scale and a
    non-negative sum. *)
Definition tile_pair_ok (t : R * R) : Prop := (0 < t.1)%R /\ (0 <= t.2)%R.

(** The sum of [f k] over a list of indices. *)
Definition sumR (f : Z -> R) (l : list Z) : R := foldr Rplus 0%R (f <$> l).

Lemma sumR_cons (f : Z -> R) (k : Z) (l : list Z) :
  sumR f (k :: l) = (f k + sumR f l)%R.
Proof. reflexivity. Qed.

Lemma sumR_app (f : Z -> R) (l l' : list Z) :
  sumR f (l ++ l') = (sumR f l + sumR f l')%R.
Proof.
  induction l as [| k l IH]; [unfold sumR; simpl; lra |].
  rewrite <- app_comm_cons, !sumR_cons, IH. lra.
Qed.

Lemma sumR_ext (f g : Z -> R) (l : list Z) :
  (forall k, k ∈ l -> f k = g k) -> sumR f l = sumR g l.
Proof.
  induction l as [| k l IH]; intros Hfg; [reflexivity |].
  rewrite !sumR_cons, (Hfg k) by left. rewrite IH; [reflexivity |].
  intros k' Hk'. apply Hfg. right. exact Hk'.
Qed.

(** Merging the pair of a tile that is not zero divides by no zero: by
    the scale of the tile, which is positive, or by a running scale that
    is at least that. *)
Lemma ssq_merge_exact (acc tile : R * R) :
  ssq_ok acc -> tile_pair_ok tile ->
  ssq_ok (Syssq.ssq_merge acc tile)
  /\ ssq_value (Syssq.ssq_merge acc tile)
     = (ssq_value acc + ssq_value tile)%R.
Proof.
  destruct acc as [scl sum], tile as [a q].
  unfold ssq_ok, tile_pair_ok, ssq_value.
  simpl. intros [Hscl Hsum] [Ha Hq]. unfold Syssq.square. simpl.
  destruct (Rlt_dec scl a) as [Hlt | Hge]; simpl.
  - assert (a <> 0)%R by lra. split.
    + split; [lra |].
      assert (0 <= sum * (scl / a * (scl / a)))%R; [| lra].
      apply Rmult_le_pos; [lra |]. apply Rle_0_sqr.
    + field. assumption.
  - assert (scl <> 0)%R by lra. split.
    + split; [lra |].
      assert (0 <= q * (a / scl * (a / scl)))%R; [| lra].
      apply Rmult_le_pos; [lra |]. apply Rle_0_sqr.
    + field. assumption.
Qed.

Lemma ssq_fold_exact (tiles : list (R * R)) (acc : R * R) :
  ssq_ok acc -> Forall tile_pair_ok tiles ->
  ssq_ok (foldl Syssq.ssq_merge acc tiles)
  /\ ssq_value (foldl Syssq.ssq_merge acc tiles)
     = (ssq_value acc + foldr Rplus 0%R (ssq_value <$> tiles))%R.
Proof.
  intros Hacc Htiles. revert acc Hacc.
  induction Htiles as [| t tiles Ht _ IH]; intros acc Hacc.
  - split; [exact Hacc |]. rewrite fmap_nil. simpl. lra.
  - destruct (ssq_merge_exact acc t Hacc Ht) as [Hok Hval].
    destruct (IH _ Hok) as [Hok' Hval']. split; [exact Hok' |].
    rewrite fmap_cons. simpl. rewrite Hval', Hval. lra.
Qed.

(** The sum over the pairs of a loop nest, loop by loop. *)
Lemma sum_of_bind (f : R * R -> R) (g : Z -> list (R * R)) (l : list Z) :
  foldr Rplus 0%R (f <$> (l ≫= g))
  = sumR (fun x => foldr Rplus 0%R (f <$> g x)) l.
Proof.
  induction l as [| x l IH]; [reflexivity |].
  rewrite bind_cons, fmap_app, foldr_app, sumR_cons, <- IH.
  generalize (foldr Rplus 0%R (f <$> l ≫= g)) as r. intros r.
  induction (f <$> g x) as [| y ys IHy]; simpl; [lra | rewrite IHy; lra].
Qed.

(** In exact arithmetic, on a sequence in state Success and on pairs with
    a positive scale and a non-negative sum for every tile of the lower
    triangle, the body of [core_omp_zsyssq_aux] divides by no zero and
    leaves in [*value] the square root of twice the sum of squares
    [scale^2 * sumsq] of the tiles below the diagonal plus the sum of
    squares of the diagonal tiles: weight 2 and weight 1. *)
Theorem zsyssq_aux_exact (m n : Z) (scale sumsq : Z -> R) (value : R)
    (sequence : plasma_sequence_t) :
  Sequence.status sequence = PlasmaSuccess ->
  (forall i j, 0 <= j -> j <= i -> i < n ->
               (0 < scale (m * j + i)%Z /\ 0 <= sumsq (m * j + i)%Z)%R) ->
  Syssq.core_omp_zsyssq_aux m n scale sumsq value sequence
  = sqrt (2 * sumR (fun j =>
                      sumR (fun i => scale (m * j + i)%Z * scale (m * j + i)%Z
                                     * sumsq (m * j + i)%Z)
                        (seqZ (j + 1) (n - (j + 1))))
                (seqZ 0 n)
          + sumR (fun j => scale (m * j + j)%Z * scale (m * j + j)%Z
                           * sumsq (m * j + j)%Z)
              (seqZ 0 n))%R.
Proof.
  intros Hs Hpos. rewrite zsyssq_aux_reduction by exact Hs.
  unfold Syssq.symmetric_norm.
  destruct (ssq_fold_exact (Syssq.offdiag_pairs m n scale sumsq)
              (f_zero, f_one)) as [[Hscl Hsum] Hval].
  { split; simpl; lra. }
  { apply Forall_forall. intros t Ht. unfold Syssq.offdiag_pairs in Ht.
    apply list_elem_of_bind in Ht as (j & Ht & Hj%elem_of_seqZ).
    apply list_elem_of_bind in Ht as (i & Ht & Hi%elem_of_seqZ).
    apply list_elem_of_singleton in Ht. subst t.
    apply (Hpos i j); lia. }
  set (off := foldl Syssq.ssq_merge (f_zero, f_one)
                (Syssq.offdiag_pairs m n scale sumsq)) in *.
  destruct (ssq_fold_exact (Syssq.diag_pairs m n scale sumsq)
              (Syssq.ssq_weight f_two off)) as [[Hscl' Hsum'] Hval'].
  { split; simpl; [exact Hscl | lra]. }
  { apply Forall_forall. intros t Ht. unfold Syssq.diag_pairs in Ht.
    apply list_elem_of_fmap in Ht as (j & -> & Hj%elem_of_seqZ).
    apply (Hpos j j); lia. }
  set (acc := foldl Syssq.ssq_merge (Syssq.ssq_weight f_two off)
                (Syssq.diag_pairs m n scale sumsq)) in *.
  match goal with |- _ = sqrt ?x => replace x with (ssq_value acc) end.
  - unfold ssq_value. simpl. rewrite sqrt_mult by nra.
    rewrite sqrt_square by exact Hscl'. reflexivity.
  - rewrite Hval'.
    assert (ssq_value (Syssq.ssq_weight f_two off) = 2 * ssq_value off)%R
      as -> by (unfold ssq_value, Syssq.ssq_weight; simpl; ring).
    rewrite Hval.
    assert (ssq_value (f_zero, f_one) = 0)%R
      as -> by (unfold ssq_value; simpl; ring).
    assert (E1 : foldr Rplus 0%R
                   (ssq_value <$> Syssq.offdiag_pairs m n scale sumsq)
                 = sumR (fun j =>
                           sumR (fun i => scale (m * j + i)%Z
                                          * scale (m * j + i)%Z
                                          * sumsq (m * j + i)%Z)%R
                             (seqZ (j + 1) (n - (j + 1))))
                     (seqZ 0 n)).
    { unfold Syssq.offdiag_pairs. rewrite sum_of_bind.
      apply sumR_ext. intros j _. rewrite sum_of_bind.
      apply sumR_ext. intros i _.
      unfold ssq_value, Syssq.tile_pair. simpl. lra. }
    assert (E2 : foldr Rplus 0%R
                   (ssq_value <$> Syssq.diag_pairs m n scale sumsq)
                 = sumR (fun j => scale (m * j + j)%Z * scale (m * j + j)%Z
                                  * sumsq (m * j + j)%Z)%R
                     (seqZ 0 n)).
    { unfold Syssq.diag_pairs. rewrite <- list_fmap_compose. reflexivity. }
    rewrite E1, E2. lra.
Qed.

Lemma zsyssq_aux_exact_witness :
  Syssq.core_omp_zsyssq_aux 2 2 (fun _ => 3%R) (fun _ => 1%R) 0%R sequence_ok
  = sqrt (2 * sumR (fun j => sumR (fun i => 3 * 3 * 1)
                               (seqZ (j + 1) (2 - (j + 1))))
                (seqZ 0 2)
          + sumR (fun j => 3 * 3 * 1) (seqZ 0 2))%R.
Proof.
  apply (zsyssq_aux_exact 2 2 (fun _ => 3%R) (fun _ => 1%R) 0%R sequence_ok).
  - reflexivity.
  - intros i j _ _ _. simpl. split; lra.
Defined.

(** On doubles, the pair [(0, 1)] of a tile that is zero makes the body
    divide 0 by 0: the value of a matrix of one zero tile is not a
    number. *)
Example zsyssq_aux_zero_tile :
  PrimFloat.is_nan
    (Syssq.core_omp_zsyssq_aux 1 1 (fun _ => 0%float) (fun _ => 1%float)
       0%float sequence_ok) = true.
Proof. vm_compute. reflexivity. Qed.

(** ** Layout round trip: where it is the identity

    *** The layout translation as a list of element copies *)

(** One element copy: the number at [sd.1] is stored at [sd.2]. *)
Definition copy_cell (h : heap) (sd : Z * Z) : heap :=
  partial_alter (fun _ => h !! sd.1) sd.2 h.

(** The copies of one general [core_dlacpy], in the order it makes them. *)
Definition block_items (m n A lda B ldb : Z) : list (Z * Z) :=
  j ← seqZ 0 n; i ← seqZ 0 m;
  [(dptr A (i + j * lda), dptr B (i + j * ldb))].

Lemma core_dlacpy_items (m n A lda B ldb : Z) (h : heap) :
  core_dlacpy PlasmaGeneral m n A lda B ldb h
  = foldl copy_cell h (block_items m n A lda B ldb).
Proof.
  unfold core_dlacpy, block_items. rewrite foldl_bind_nested.
  apply foldl_ext_eq. intros h' j. rewrite foldl_bind_nested. reflexivity.
Qed.

Lemma for_each_total {S : Type} (g : Z -> S -> S) (l : list Z) (s : S) :
  for_each l (fun k s => Some (g k s)) s = Some (foldl (fun s k => g k s) s l).
Proof.
  revert s. induction l as [| k l IH]; intros s; [reflexivity |].
  simpl. apply IH.
Qed.

Lemma for_each_ext {S : Type} (f g : Z -> S -> option S) (l : list Z) (s : S) :
  (forall k s, k ∈ l -> f k s = g k s) -> for_each l f s = for_each l g s.
Proof.
  revert s. induction l as [| k l IH]; intros s Hfg; [reflexivity |].
  simpl. rewrite Hfg by left. destruct (g k s); simpl; [| reflexivity].
  apply IH. intros; apply Hfg; right; assumption.
Qed.

(** The copies of tile [(m, n)], from the user's array to the tile. *)
Definition tile_items (pA lda : Z) (A : plasma_desc_t) (m n : Z) : list (Z * Z) :=
  let f77 := dptr pA (Desc.nb A * lda * n + Desc.mb A * m) in
  let bdl := Desc.matrix A + tile_offset_exact A m n * 8 in
  block_items (edge_y2 A m - edge_y1 A m) (edge_x2 A n - edge_x1 A n)
    (dptr f77 (edge_x1 A n * lda + edge_y1 A m)) lda
    (dptr bdl (edge_x1 A n * Desc.nb A + edge_y1 A m)) (plasma_tile_mmain A m).

Definition layout_items (pA lda : Z) (A : plasma_desc_t) : list (Z * Z) :=
  m ← seqZ 0 (Desc.mt A); n ← seqZ 0 (Desc.nt A); tile_items pA lda A m n.

Definition swap_item (sd : Z * Z) : Z * Z := (sd.2, sd.1).

Lemma fmap_bind_list {T U V : Type} (f : U -> V) (g : T -> list U)
    (l : list T) :
  f <$> (l ≫= g) = l ≫= (fun x => f <$> g x).
Proof.
  induction l as [| x l IH]; [reflexivity |].
  rewrite !bind_cons, fmap_app, IH. reflexivity.
Qed.

Lemma block_items_swap (m n A lda B ldb : Z) :
  swap_item <$> block_items m n A lda B ldb = block_items m n B ldb A lda.
Proof.
  unfold block_items. rewrite fmap_bind_list. apply list_bind_ext; [| reflexivity].
  intros j. rewrite fmap_bind_list. apply list_bind_ext; [| reflexivity].
  intros i. reflexivity.
Qed.

(** The user's array fits the machine: [lda] is an [int], and so are the
    indices [x1*lda + y1] and [x1*nb + y1] of the first element of the
    submatrix in the first tile ([x1 = j mod nb], [y1 = i mod mb]). *)
Definition user_array_in_machine_range (lda : Z) (A : plasma_desc_t) : bool :=
  (lda <=? INT_MAX)
  && (Desc.j A `rem` Desc.nb A * lda + Desc.i A `rem` Desc.mb A <=? INT_MAX)
  && (Desc.j A `rem` Desc.nb A * Desc.nb A + Desc.i A `rem` Desc.mb A
      <=? INT_MAX).

Section Items.
Variables (pA lda : Z) (A : plasma_desc_t).
Hypothesis Hwf : general_desc_wf A.
Hypothesis Hfit : desc_in_machine_range A = true.
Hypothesis Hprec : Desc.precision A = PlasmaRealDouble.
Hypothesis Hlda : 0 <= lda.
Hypothesis Huser : user_array_in_machine_range lda A = true.

(** No index of [plasma_pdge2desc] wraps around for an in-range tile. *)
Lemma edge_index_no_wrap (m n ld : Z) :
  0 <= ld ->
  Desc.j A `rem` Desc.nb A * ld + Desc.i A `rem` Desc.mb A <= INT_MAX ->
  int_wrap (int_wrap (edge_x1 A n * ld) + edge_y1 A m)
  = edge_x1 A n * ld + edge_y1 A m.
Proof using Hwf.
  intros Hld Hmax.
  destruct (quot_spec _ _ (wf_i A Hwf) (wf_mb A Hwf)) as (_ & Hy & _).
  destruct (quot_spec _ _ (wf_j A Hwf) (wf_nb A Hwf)) as (_ & Hx & _).
  assert (0 <= Desc.j A `rem` Desc.nb A * ld)
    by (apply Z.mul_nonneg_nonneg; lia).
  assert (Hx1 : int_wrap (edge_x1 A n * ld) = edge_x1 A n * ld).
  { apply int_wrap_small. unfold edge_x1, INT_MAX in *.
    destruct (n =? 0); lia. }
  rewrite Hx1. apply int_wrap_small. unfold edge_x1, edge_y1, INT_MAX in *.
  destruct (n =? 0), (m =? 0); lia.
Qed.

Lemma user_index_no_wrap (m n : Z) :
  tile_in_range A m n ->
  size_t_wrap (size_t_wrap (size_t_wrap (Desc.nb A * lda) * n)
               + size_t_wrap (Desc.mb A * m))
  = Desc.nb A * lda * n + Desc.mb A * m.
Proof using Hwf Hfit Hlda Huser.
  intros [Hm Hn].
  destruct (tile_row_starts_inside A Hwf m Hm) as [Hr0 Hr1].
  destruct (tile_col_starts_inside A Hwf n Hn) as [Hc0 Hc1].
  pose proof (wf_mb A Hwf) as Hmb. pose proof (wf_nb A Hwf) as Hnb.
  pose proof (wf_im A Hwf) as Him. pose proof (wf_jn A Hwf) as Hjn.
  destruct (quot_spec _ _ (wf_i A Hwf) Hmb) as (_ & _ & Qi).
  destruct (quot_spec _ _ (wf_j A Hwf) Hnb) as (_ & _ & Qj).
  unfold abs_tile_row, abs_tile_col in *.
  unfold user_array_in_machine_range in Huser.
  apply andb_true_iff in Huser as [Huser _].
  apply andb_true_iff in Huser as [Hldai _]. apply Z.leb_le in Hldai.
  unfold desc_in_machine_range in Hfit.
  apply andb_true_iff in Hfit as [Hfit' _].
  apply andb_true_iff in Hfit' as [Hfit' Htile].
  apply andb_true_iff in Hfit' as [Hlmi Hlni].
  apply Z.leb_le in Hlmi, Hlni, Htile. unfold INT_MAX in *.
  set (mb := Desc.mb A) in *. set (nb := Desc.nb A) in *.
  set (lm := Desc.lm A) in *. set (ln := Desc.ln A) in *.
  set (qi := Desc.i A `quot` mb) in *. set (qj := Desc.j A `quot` nb) in *.
  assert (Hmm : 0 <= mb * m <= lm).
  { pose proof (Z.mul_nonneg_nonneg mb m ltac:(lia) ltac:(lia)).
    pose proof (Z.mul_nonneg_nonneg qi mb ltac:(lia) ltac:(lia)). lia. }
  assert (Hnn : 0 <= nb * n <= ln).
  { pose proof (Z.mul_nonneg_nonneg nb n ltac:(lia) ltac:(lia)).
    pose proof (Z.mul_nonneg_nonneg qj nb ltac:(lia) ltac:(lia)). lia. }
  pose proof (le_mul_pos nb mb ltac:(lia) Hmb).
  pose proof (mul_le_square nb lda (2 ^ 31 - 1) (2 ^ 31 - 1)
                ltac:(lia) ltac:(lia)).
  pose proof (mul_le_square (nb * n) lda (2 ^ 31 - 1) (2 ^ 31 - 1)
                ltac:(lia) ltac:(lia)).
  replace (nb * lda * n) with (nb * n * lda) by ring.
  rewrite (size_t_wrap_small (nb * lda)) by lia.
  replace (nb * lda * n) with (nb * n * lda) by ring.
  rewrite (size_t_wrap_small (nb * n * lda)) by lia.
  rewrite (size_t_wrap_small (mb * m)) by lia.
  apply size_t_wrap_small. lia.
Qed.

(** The address of an in-range tile of double precision numbers, on a
    descriptor that fits the machine. *)
Lemma tile_addr_double (m n : Z) :
  tile_in_range A m n ->
  plasma_tile_addr A m n = Some (Desc.matrix A + tile_offset_exact A m n * 8).
Proof using Hwf Hfit Hprec.
  intros Hin.
  assert (Hsz : plasma_element_size (Desc.precision A) = Some 8)
    by (rewrite Hprec; reflexivity).
  pose proof (tile_bytes_general A 8 m n Hwf Hfit Hsz Hin) as Hb.
  unfold tile_bytes in Hb. rewrite Hsz in Hb.
  destruct (plasma_tile_addr A m n) as [addr |]; [| discriminate].
  simpl in Hb. injection Hb as -> _. reflexivity.
Qed.

Lemma user_index_is_int :
  Desc.j A `rem` Desc.nb A * lda + Desc.i A `rem` Desc.mb A <= INT_MAX.
Proof using Huser.
  unfold user_array_in_machine_range in Huser.
  apply andb_true_iff in Huser as [Huser' _].
  apply andb_true_iff in Huser' as [_ H]. apply Z.leb_le in H. exact H.
Qed.

Lemma tile_index_is_int :
  Desc.j A `rem` Desc.nb A * Desc.nb A + Desc.i A `rem` Desc.mb A
  <= INT_MAX.
Proof using Huser.
  unfold user_array_in_machine_range in Huser.
  apply andb_true_iff in Huser as [_ H]. apply Z.leb_le in H. exact H.
Qed.

Lemma pdge2desc_items (h : heap) :
  plasma_pdge2desc pA lda A sequence_ok h
  = Some (foldl copy_cell h (layout_items pA lda A)).
Proof using Hwf Hfit Hprec Hlda Huser.
  unfold plasma_pdge2desc, layout_items. simpl.
  rewrite foldl_bind_nested.
  erewrite for_each_ext; [apply for_each_total |].
  intros m h' Hm%elem_of_seqZ. simpl.
  rewrite foldl_bind_nested.
  erewrite for_each_ext; [apply for_each_total |].
  intros n h'' Hn%elem_of_seqZ. simpl.
  rewrite tile_addr_double by (split; lia). simpl.
  rewrite user_index_no_wrap by (split; lia).
  rewrite (edge_index_no_wrap m n lda Hlda user_index_is_int).
  rewrite (edge_index_no_wrap m n (Desc.nb A)
             ltac:(pose proof (wf_nb A Hwf); lia) tile_index_is_int).
  unfold core_omp_dlacpy. simpl. rewrite core_dlacpy_items. reflexivity.
Qed.

Lemma pddesc2ge_items (h : heap) :
  plasma_pddesc2ge A pA lda sequence_ok h
  = Some (foldl copy_cell h (swap_item <$> layout_items pA lda A)).
Proof using Hwf Hfit Hprec Hlda Huser.
  unfold plasma_pddesc2ge, layout_items. simpl.
  rewrite fmap_bind_list, foldl_bind_nested.
  erewrite for_each_ext; [apply for_each_total |].
  intros m h' Hm%elem_of_seqZ. simpl.
  rewrite fmap_bind_list, foldl_bind_nested.
  erewrite for_each_ext; [apply for_each_total |].
  intros n h'' Hn%elem_of_seqZ. simpl.
  rewrite tile_addr_double by (split; lia). simpl.
  rewrite user_index_no_wrap by (split; lia).
  rewrite (edge_index_no_wrap m n lda Hlda user_index_is_int).
  rewrite (edge_index_no_wrap m n (Desc.nb A)
             ltac:(pose proof (wf_nb A Hwf); lia) tile_index_is_int).
  unfold core_omp_dlacpy. simpl. rewrite core_dlacpy_items.
  unfold tile_items. rewrite block_items_swap. reflexivity.
Qed.
End Items.

(** *** What a list of element copies leaves in the heap *)

Lemma copy_cell_lookup (h : heap) (sd : Z * Z) (a : Z) :
  copy_cell h sd !! a = if decide (sd.2 = a) then h !! sd.1 else h !! a.
Proof.
  unfold copy_cell. destruct (decide (sd.2 = a)) as [<- | Hne].
  - apply lookup_partial_alter_eq.
  - apply lookup_partial_alter_ne. exact Hne.
Qed.

(** When no copy reads an address that a copy writes: an address none
    writes keeps its number, and a destination holds the number of its
    source, provided the copies to that destination all bring the same
    number. *)
Lemma copies_spec (items : list (Z * Z)) (h : heap) :
  (forall sd sd', sd ∈ items -> sd' ∈ items -> sd.1 <> sd'.2) ->
  (forall a, (forall sd, sd ∈ items -> sd.2 <> a) ->
             foldl copy_cell h items !! a = h !! a)
  /\ (forall sd, sd ∈ items ->
        (forall sd', sd' ∈ items -> sd'.2 = sd.2 -> h !! sd'.1 = h !! sd.1) ->
        foldl copy_cell h items !! sd.2 = h !! sd.1).
Proof.
  induction items as [| x items IH] using rev_ind; intros Hdisj.
  - split; [reflexivity | intros sd Hsd; inversion Hsd].
  - destruct IH as [IHa IHd].
    { intros sd sd' Hsd Hsd'. apply Hdisj; apply elem_of_app; left; assumption. }
    assert (Hx : x ∈ items ++ [x]) by (apply elem_of_app; right; left).
    split.
    + intros a Ha. rewrite foldl_app. simpl. rewrite copy_cell_lookup.
      rewrite decide_False by (apply Ha, Hx).
      apply IHa. intros sd Hsd. apply Ha, elem_of_app. left; exact Hsd.
    + intros sd Hsd Hsame. rewrite foldl_app. simpl. rewrite copy_cell_lookup.
      destruct (decide (x.2 = sd.2)) as [E | Hne].
      * rewrite IHa; [apply Hsame; [exact Hx | exact E] |].
        intros sd' Hsd' E'. apply (Hdisj x sd'); [exact Hx | | symmetry; exact E'].
        apply elem_of_app; left; exact Hsd'.
      * apply elem_of_app in Hsd as [Hsd | Hsd].
        -- apply IHd; [exact Hsd |]. intros sd' Hsd'. apply Hsame.
           apply elem_of_app; left; exact Hsd'.
        -- apply list_elem_of_singleton in Hsd. subst sd. contradiction.
Qed.

(** Copying forth and back gives every source its own number back, when
    sources and destinations are apart and a destination has one source. *)
Lemma copies_round_trip (items : list (Z * Z)) (h : heap) :
  (forall sd sd', sd ∈ items -> sd' ∈ items -> sd.1 <> sd'.2) ->
  (forall sd sd', sd ∈ items -> sd' ∈ items -> sd'.2 = sd.2 -> sd'.1 = sd.1) ->
  forall sd, sd ∈ items ->
    foldl copy_cell (foldl copy_cell h items) (swap_item <$> items) !! sd.1
    = h !! sd.1.
Proof.
  intros Hdisj Hfun sd Hsd.
  destruct (copies_spec items h Hdisj) as [_ Hfwd].
  assert (Hd : forall sd, sd ∈ items -> foldl copy_cell h items !! sd.2 = h !! sd.1).
  { intros sd0 Hsd0. apply Hfwd; [exact Hsd0 |].
    intros sd' Hsd' E. rewrite (Hfun sd0 sd' Hsd0 Hsd' E). reflexivity. }
  destruct (copies_spec (swap_item <$> items) (foldl copy_cell h items))
    as [_ Hbwd].
  { intros x x' (y & -> & Hy)%list_elem_of_fmap (y' & -> & Hy')%list_elem_of_fmap.
    simpl. intros E. apply (Hdisj y' y Hy' Hy). symmetry. exact E. }
  specialize (Hbwd (swap_item sd)). simpl in Hbwd. rewrite Hbwd.
  - apply Hd, Hsd.
  - apply list_elem_of_fmap. exists sd. split; [reflexivity | exact Hsd].
  - intros x' (y' & -> & Hy')%list_elem_of_fmap. simpl. intros E.
    rewrite (Hd y' Hy'), (Hd sd Hsd), E. reflexivity.
Qed.

(** *** The copies of a descriptor *)

Lemma elem_of_block_items (m n A lda B ldb : Z) (sd : Z * Z) :
  sd ∈ block_items m n A lda B ldb
  <-> exists i j, 0 <= i < m /\ 0 <= j < n
        /\ sd = (dptr A (i + j * lda), dptr B (i + j * ldb)).
Proof.
  unfold block_items. rewrite list_elem_of_bind. split.
  - intros (j & Hsd & Hj). apply list_elem_of_bind in Hsd as (i & Hsd & Hi).
    apply list_elem_of_singleton in Hsd. apply elem_of_seqZ in Hi, Hj.
    exists i, j. repeat split; try lia. exact Hsd.
  - intros (i & j & Hi & Hj & ->). exists j. split; [| apply elem_of_seqZ; lia].
    apply list_elem_of_bind. exists i. split; [| apply elem_of_seqZ; lia].
    apply list_elem_of_singleton. reflexivity.
Qed.

(** The column offset [x1 * nb] that [plasma_pdge2desc] uses in a tile
    is the offset [x1 * ldt] of column [x1] of the tile: the submatrix
    starts at a tile column, or every tile row of the view has the storage
    height [nb]. *)
Definition columns_aligned (A : plasma_desc_t) : Prop :=
  Desc.j A `rem` Desc.nb A = 0
  \/ forall tm, 0 <= tm < Desc.mt A -> plasma_tile_mmain A tm = Desc.nb A.

(** The copy of the element in row [Y], column [X] of tile [(tm, tn)]. *)
Definition tile_copy (pA lda : Z) (A : plasma_desc_t) (tm tn Y X : Z) : Z * Z :=
  (pA + 8 * ((Desc.mb A * tm + Y) + (Desc.nb A * tn + X) * lda),
   Desc.matrix A
   + 8 * (tile_offset_exact A tm tn + Y + X * plasma_tile_mmain A tm)).

Lemma elem_of_layout_items (pA lda : Z) (A : plasma_desc_t) (sd : Z * Z) :
  columns_aligned A ->
  sd ∈ layout_items pA lda A
  <-> exists tm tn Y X, tile_in_range A tm tn
        /\ edge_y1 A tm <= Y < edge_y2 A tm
        /\ edge_x1 A tn <= X < edge_x2 A tn
        /\ sd = tile_copy pA lda A tm tn Y X.
Proof.
  intros Hal.
  assert (Hx1 : forall tm tn, 0 <= tm < Desc.mt A ->
            edge_x1 A tn * Desc.nb A = edge_x1 A tn * plasma_tile_mmain A tm).
  { intros tm tn Htm. destruct Hal as [Hj | Hld]; [| rewrite Hld by exact Htm; reflexivity].
    unfold edge_x1. rewrite Hj. destruct (tn =? 0); reflexivity. }
  unfold layout_items. rewrite list_elem_of_bind. split.
  - intros (tm & Hsd & Htm). apply list_elem_of_bind in Hsd as (tn & Hsd & Htn).
    apply elem_of_seqZ in Htm, Htn. unfold tile_items in Hsd.
    apply elem_of_block_items in Hsd as (r & c & Hr & Hc & ->).
    exists tm, tn, (edge_y1 A tm + r), (edge_x1 A tn + c).
    split; [split; lia |]. split; [lia |]. split; [lia |].
    unfold tile_copy, dptr. pose proof (Hx1 tm tn ltac:(lia)).
    f_equal; nia.
  - intros (tm & tn & Y & X & [Htm Htn] & HY & HX & ->).
    exists tm. split; [| apply elem_of_seqZ; lia].
    apply list_elem_of_bind. exists tn. split; [| apply elem_of_seqZ; lia].
    unfold tile_items. apply elem_of_block_items.
    exists (Y - edge_y1 A tm), (X - edge_x1 A tn).
    split; [lia |]. split; [lia |].
    unfold tile_copy, dptr. pose proof (Hx1 tm tn ltac:(lia)).
    f_equal; nia.
Qed.

(** *** The edge ranges lie in the tile *)

(** The remainder of a number in the block [q * b, q * b + r). *)
Lemma rem_in_block (e b q : Z) :
  1 <= b -> 0 <= q -> q * b <= e < (q + 1) * b -> e `rem` b = e - q * b.
Proof.
  intros Hb Hq He. assert (0 <= e) by nia.
  name_quot e b q' r'. assert (q' = q) by nia. nia.
Qed.

(** [edge_last] is the C expression [(o + len - 1) % b + 1] of the last
    tile, [edge_end] the end of a tile's range. *)
Lemma edge_end_in_tile (len_all b o len k : Z) :
  1 <= b -> 0 <= o -> 0 <= len -> o + len <= len_all ->
  0 <= k < (o `rem` b + len + b - 1) `quot` b ->
  (if k =? (o `rem` b + len + b - 1) `quot` b - 1
   then (o + len - 1) `rem` b + 1 else b)
  <= (if o `quot` b + k <? len_all `quot` b then b else len_all `rem` b).
Proof.
  intros Hb Ho Hlen Hall Hk.
  assert (Hstart : forall k', 0 <= k' < (o `rem` b + len + b - 1) `quot` b ->
            (o `quot` b + k') * b < o + len).
  { intros k' [_ Hk']. apply lt_ceil_iff in Hk'.
    - name_quot o b q r. nia.
    - pose proof (quot_spec o b Ho Hb). lia.
    - lia. }
  pose proof (Hstart k Hk) as Hin.
  assert (0 <= o `quot` b) by (pose proof (quot_spec o b Ho Hb); lia).
  set (mm := o `quot` b + k) in *.
  set (mt := (o `rem` b + len + b - 1) `quot` b) in *.
  destruct (Z.eqb_spec k (mt - 1)) as [Hlast | Hnot].
  - destruct (Z.ltb_spec mm (len_all `quot` b)) as [Hfull | Hpart].
    + pose proof (quot_spec (o + len - 1) b ltac:(nia) Hb). lia.
    + assert (~ (mm + 1) * b <= len_all) as Hno
        by (rewrite <- lt_quot_iff; lia).
      rewrite (rem_in_block (o + len - 1) b mm) by nia.
      rewrite (rem_in_block len_all b mm) by nia. lia.
  - destruct (Z.ltb_spec mm (len_all `quot` b)) as [Hfull | Hpart]; [lia |].
    exfalso. pose proof (Hstart (k + 1) ltac:(lia)) as Hnext.
    assert (mm < len_all `quot` b); [| lia].
    apply lt_quot_iff; [lia | lia |]. subst mm. lia.
Qed.

Section EdgeRanges.
Variable A : plasma_desc_t.
Hypothesis Hwf : general_desc_wf A.

Lemma edge_rows_in_tile (tm : Z) :
  0 <= tm < Desc.mt A ->
  0 <= edge_y1 A tm /\ edge_y2 A tm <= plasma_tile_mmain A tm.
Proof using Hwf.
  intros Htm. pose proof (wf_mb A Hwf). pose proof (wf_i A Hwf).
  pose proof (wf_m A Hwf). pose proof (wf_im A Hwf). split.
  - unfold edge_y1. pose proof (quot_spec (Desc.i A) (Desc.mb A)).
    destruct (tm =? 0); lia.
  - unfold edge_y2, plasma_tile_mmain. rewrite (wf_mt A Hwf) in *.
    apply edge_end_in_tile; lia.
Qed.

Lemma edge_cols_in_tile (tn : Z) :
  0 <= tn < Desc.nt A ->
  0 <= edge_x1 A tn /\ edge_x2 A tn <= plasma_tile_nmain A tn.
Proof using Hwf.
  intros Htn. pose proof (wf_nb A Hwf). pose proof (wf_j A Hwf).
  pose proof (wf_n A Hwf). pose proof (wf_jn A Hwf). split.
  - unfold edge_x1. pose proof (quot_spec (Desc.j A) (Desc.nb A)).
    destruct (tn =? 0); lia.
  - unfold edge_x2, plasma_tile_nmain. rewrite (wf_nt A Hwf) in *.
    apply edge_end_in_tile; lia.
Qed.
End EdgeRanges.

(** The element at distance [r] from the origin of a range of [len]
    elements that starts at offset [o] lies in tile [k], at position [Y] of
    the tile, inside the edge range of the tile. *)
Lemma elem_in_edge_range (b o len r : Z) :
  1 <= b -> 0 <= o -> 0 <= r < len ->
  let R := o `rem` b + r in
  let k := R `quot` b in
  let Y := R `rem` b in
  let mt := (o `rem` b + len + b - 1) `quot` b in
  0 <= k < mt
  /\ (if k =? 0 then o `rem` b else 0) <= Y
  /\ Y < (if k =? mt - 1 then (o + len - 1) `rem` b + 1 else b)
  /\ b * k + Y = R.
Proof.
  intros Hb Ho Hr R k Y mt.
  destruct (quot_spec o b Ho Hb) as (Eo & Ro & Qo).
  assert (HR : 0 <= R) by (subst R; lia).
  destruct (quot_spec R b HR Hb) as (ER & RR & QR).
  fold k in ER, QR. fold Y in ER, RR.
  assert (Hk : k < mt).
  { subst mt. apply lt_ceil_iff; [lia | lia |]. subst R. nia. }
  split; [lia |]. split; [| split; [| lia]].
  - destruct (Z.eqb_spec k 0) as [Hk0 | _]; [| lia].
    rewrite Hk0 in ER. subst R. lia.
  - destruct (Z.eqb_spec k (mt - 1)) as [Hlast | _]; [| lia].
    assert (Hmt : ~ (k + 1 < mt)) by lia.
    unfold mt in Hmt. rewrite lt_ceil_iff in Hmt by lia.
    rewrite (rem_in_block (o + len - 1) b (o `quot` b + k)); [| lia | lia |].
    + subst R. nia.
    + subst R. nia.
Qed.

Section Copies.
Variables (pA lda : Z) (A : plasma_desc_t).
Hypothesis Hwf : general_desc_wf A.

(** The position of an element of a tile, in elements from the start of
    the store, is inside the tile. *)
Lemma tile_elem_in_tile (tm tn Y X : Z) :
  tile_in_range A tm tn ->
  0 <= Y < plasma_tile_mmain A tm -> 0 <= X < plasma_tile_nmain A tn ->
  0 <= Y + X * plasma_tile_mmain A tm < tile_elems A tm tn.
Proof. intros _ HY HX. unfold tile_elems. nia. Qed.

Lemma tile_copy_dst_inj (tm tn Y X tm' tn' Y' X' : Z) :
  tile_in_range A tm tn -> tile_in_range A tm' tn' ->
  0 <= Y < plasma_tile_mmain A tm -> 0 <= X < plasma_tile_nmain A tn ->
  0 <= Y' < plasma_tile_mmain A tm' -> 0 <= X' < plasma_tile_nmain A tn' ->
  (tile_copy pA lda A tm tn Y X).2 = (tile_copy pA lda A tm' tn' Y' X').2 ->
  tm = tm' /\ tn = tn' /\ Y = Y' /\ X = X'.
Proof using Hwf.
  intros Hin Hin' HY HX HY' HX' E. unfold tile_copy in E. simpl in E.
  pose proof (tile_elem_in_tile tm tn Y X Hin HY HX) as Hidx.
  pose proof (tile_elem_in_tile tm' tn' Y' X' Hin' HY' HX') as Hidx'.
  assert (tm = tm' /\ tn = tn') as [<- <-].
  { destruct (decide ((tm, tn) = (tm', tn'))) as [[= -> ->] | Hne]; [auto |].
    exfalso.
    pose proof (tile_is_slot A Hwf tm tn Hin) as S.
    pose proof (tile_is_slot A Hwf tm' tn' Hin') as S'.
    destruct (matrix_extents_nonneg A Hwf) as [Hlm Hln].
    destruct (quot_spec _ _ Hlm (wf_mb A Hwf)) as (_ & RM & QM).
    destruct (quot_spec _ _ Hln (wf_nb A Hwf)) as (_ & RN & QN).
    assert ((abs_tile_row A tm, abs_tile_col A tn)
            <> (abs_tile_row A tm', abs_tile_col A tn')) as Hne'.
    { unfold abs_tile_row, abs_tile_col. intros [= E1 E2]. apply Hne.
      f_equal; lia. }
    pose proof (slot_disjoint _ _ _ _ _ _ (wf_mb A Hwf) (wf_nb A Hwf)
                  QM QN RM RN _ _ _ _ _ _ _ _ S S' Hne') as D.
    lia. }
  split; [reflexivity |]. split; [reflexivity |].
  assert (Y + X * plasma_tile_mmain A tm = Y' + X' * plasma_tile_mmain A tm)
    as E' by lia.
  assert (X = X') by nia. subst X'. lia.
Qed.

Lemma tile_copy_dst_in_store (tm tn Y X : Z) :
  tile_in_range A tm tn ->
  0 <= Y < plasma_tile_mmain A tm -> 0 <= X < plasma_tile_nmain A tn ->
  Desc.matrix A <= (tile_copy pA lda A tm tn Y X).2
  < Desc.matrix A + 8 * (Desc.lm A * Desc.ln A).
Proof using Hwf.
  intros Hin HY HX. unfold tile_copy. simpl.
  pose proof (tile_elem_in_tile tm tn Y X Hin HY HX) as Hidx.
  pose proof (tile_is_slot A Hwf tm tn Hin) as S.
  destruct (matrix_extents_nonneg A Hwf) as [Hlm Hln].
  destruct (quot_spec _ _ Hlm (wf_mb A Hwf)) as (_ & RM & QM).
  destruct (quot_spec _ _ Hln (wf_nb A Hwf)) as (_ & RN & QN).
  apply slot_bounds in S; [| apply (wf_mb A Hwf) | apply (wf_nb A Hwf) | lia ..].
  rewrite (zones_total A Hwf) in S. lia.
Qed.

Lemma tile_copy_src_in_user (tm tn Y X : Z) :
  0 <= lda -> tile_in_range A tm tn -> 0 <= Y -> 0 <= X ->
  pA <= (tile_copy pA lda A tm tn Y X).1.
Proof using Hwf.
  intros Hlda [Htm Htn] HY HX. unfold tile_copy. simpl.
  pose proof (wf_mb A Hwf). pose proof (wf_nb A Hwf). nia.
Qed.

(** Every element of the submatrix is the source of a copy. *)
Lemma user_elem_is_copied (r c : Z) :
  columns_aligned A ->
  0 <= r < Desc.m A -> 0 <= c < Desc.n A ->
  exists sd, sd ∈ layout_items pA lda A /\ sd.1 = user_elem pA lda A r c.
Proof using Hwf.
  intros Hal Hr Hc.
  destruct (elem_in_edge_range (Desc.mb A) (Desc.i A) (Desc.m A) r
              (wf_mb A Hwf) (wf_i A Hwf) Hr) as (Htm & Hy1 & Hy2 & EY).
  destruct (elem_in_edge_range (Desc.nb A) (Desc.j A) (Desc.n A) c
              (wf_nb A Hwf) (wf_j A Hwf) Hc) as (Htn & Hx1 & Hx2 & EX).
  rewrite <- (wf_mt A Hwf) in Htm, Hy2. rewrite <- (wf_nt A Hwf) in Htn, Hx2.
  eexists. split.
  - apply elem_of_layout_items; [exact Hal |].
    eexists _, _, _, _. split; [split; [exact Htm | exact Htn] |].
    split; [split; [exact Hy1 | exact Hy2] |].
    split; [split; [exact Hx1 | exact Hx2] | reflexivity].
  - unfold tile_copy, user_elem, dptr. simpl. rewrite EY, EX. reflexivity.
Qed.

End Copies.

(** The round trip is the identity on the submatrix when the column
    offsets are those of the tiles: for every valid descriptor of double
    precision numbers that fits the machine, as the user's array does,
    with [columns_aligned], whose store lies below the user's array,
    translating to tiles and back
    leaves every element of the [m x n] submatrix as it was, fractional
    first rows and fractional end tiles included. *)
Theorem layout_round_trip_aligned (pA lda : Z) (A : plasma_desc_t) (h : heap) :
  general_desc_valid A = true ->
  desc_in_machine_range A = true ->
  Desc.precision A = PlasmaRealDouble ->
  0 <= lda ->
  user_array_in_machine_range lda A = true ->
  Desc.matrix A + 8 * (Desc.lm A * Desc.ln A) <= pA ->
  columns_aligned A ->
  exists h',
    layout_round_trip pA lda A sequence_ok h = Some h'
    /\ forall r c, 0 <= r < Desc.m A -> 0 <= c < Desc.n A ->
         h' !! user_elem pA lda A r c = h !! user_elem pA lda A r c.
Proof.
  intros Hv Hfit Hprec Hlda Huser Hapart Hal.
  apply general_desc_valid_wf in Hv as Hwf.
  unfold layout_round_trip.
  rewrite (pdge2desc_items pA lda A Hwf Hfit Hprec Hlda Huser). simpl.
  rewrite (pddesc2ge_items pA lda A Hwf Hfit Hprec Hlda Huser).
  eexists. split; [reflexivity |]. intros r c Hr Hc.
  destruct (user_elem_is_copied pA lda A Hwf r c Hal Hr Hc) as (sd & Hsd & <-).
  assert (Hshape : forall sd, sd ∈ layout_items pA lda A ->
            exists tm tn Y X, tile_in_range A tm tn
              /\ 0 <= Y < plasma_tile_mmain A tm
              /\ 0 <= X < plasma_tile_nmain A tn
              /\ sd = tile_copy pA lda A tm tn Y X).
  { intros sd0 Hsd0.
    apply (elem_of_layout_items pA lda A sd0 Hal) in Hsd0
      as (tm & tn & Y & X & Hin & HY & HX & ->).
    destruct Hin as [Htm Htn].
    pose proof (edge_rows_in_tile A Hwf tm Htm).
    pose proof (edge_cols_in_tile A Hwf tn Htn).
    exists tm, tn, Y, X. split; [split; assumption |].
    split; [lia |]. split; [lia | reflexivity]. }
  apply copies_round_trip; [| | exact Hsd].
  - intros x x' Hx Hx'.
    destruct (Hshape x Hx) as (tm & tn & Y & X & Hin & HY & HX & ->).
    destruct (Hshape x' Hx') as (tm' & tn' & Y' & X' & Hin' & HY' & HX' & ->).
    pose proof (tile_copy_src_in_user pA lda A Hwf tm tn Y X Hlda Hin
                  ltac:(lia) ltac:(lia)).
    pose proof (tile_copy_dst_in_store pA lda A Hwf tm' tn' Y' X' Hin' HY' HX').
    lia.
  - intros x x' Hx Hx' E.
    destruct (Hshape x Hx) as (tm & tn & Y & X & Hin & HY & HX & ->).
    destruct (Hshape x' Hx') as (tm' & tn' & Y' & X' & Hin' & HY' & HX' & ->).
    destruct (tile_copy_dst_inj pA lda A Hwf tm' tn' Y' X' tm tn Y X
                Hin' Hin HY' HX' HY HX E) as (-> & -> & -> & ->).
    reflexivity.
Qed.

(** A view that starts in the middle of a tile row, at a tile column:
    rows 1..3 of the 5 x 7 matrix in 2 x 3 tiles. *)
Definition rows_1_to_3_view : plasma_desc_t :=
  plasma_desc_general_init PlasmaRealDouble 0 2 3 5 7 1 0 3 7.

Lemma layout_round_trip_aligned_witness :
  exists h',
    layout_round_trip 4096 5 rows_1_to_3_view sequence_ok
      (doubles_at 4096 (count_up 35)) = Some h'
    /\ forall r c, 0 <= r < 3 -> 0 <= c < 7 ->
         h' !! user_elem 4096 5 rows_1_to_3_view r c
         = doubles_at 4096 (count_up 35)
             !! user_elem 4096 5 rows_1_to_3_view r c.
Proof.
  apply (layout_round_trip_aligned 4096 5 rows_1_to_3_view).
  - reflexivity.
  - reflexivity.
  - reflexivity.
  - lia.
  - reflexivity.
  - change (0 + 8 * (5 * 7) <= 4096). lia.
  - left. reflexivity.
Defined.

(** * Further properties of the code *)

(** ** Tile extents add up *)

(** The sum of [f k] over the iterations [k] of a loop. *)
Definition sum_over (f : Z -> Z) (l : list Z) : Z :=
  foldr (fun k s => f k + s) 0 l.

Lemma sum_over_ext (f g : Z -> Z) (l : list Z) :
  (forall k, k ∈ l -> f k = g k) -> sum_over f l = sum_over g l.
Proof.
  induction l as [| k l IH]; intros Hfg; [reflexivity |].
  simpl. rewrite (Hfg k) by left. rewrite IH; [reflexivity |].
  intros k' Hk'. apply Hfg. right. exact Hk'.
Qed.

Lemma sum_over_app (f : Z -> Z) (l l' : list Z) :
  sum_over f (l ++ l') = sum_over f l + sum_over f l'.
Proof. induction l as [| k l IH]; simpl; lia. Qed.

(** The blocks of width [b] cut [0, len) into pieces whose lengths add up
    to [len]. *)
Lemma blocks_add_up (len b : Z) (t : nat) :
  sum_over (fun k => Z.min len ((k + 1) * b) - Z.min len (k * b))
    (seqZ 0 (Z.of_nat t))
  = Z.min len (Z.of_nat t * b) - Z.min len 0.
Proof.
  induction t as [| t IH]; [simpl; lia |].
  rewrite seqZ_S, sum_over_app, IH. simpl.
  replace ((0 + Z.of_nat t + 1) * b) with (Z.of_nat (S t) * b) by lia.
  replace ((0 + Z.of_nat t) * b) with (Z.of_nat t * b) by lia. lia.
Qed.

(** The C test "block [k] is a full block, else it is the remainder", summed
    over the [ceil(len / b)] blocks of [0, len). *)
Lemma block_extents_add_up (len b : Z) :
  0 <= len -> 1 <= b ->
  sum_over (fun k => if k <? len `quot` b then b else len `rem` b)
    (seqZ 0 ((len + b - 1) `quot` b))
  = len.
Proof.
  intros Hlen Hb.
  assert (Ht : 0 <= (len + b - 1) `quot` b)
    by (pose proof (quot_spec (len + b - 1) b); lia).
  rewrite (sum_over_ext _
             (fun k => Z.min len ((k + 1) * b) - Z.min len (k * b))).
  - rewrite <- (Z2Nat.id _ Ht) at 1. rewrite blocks_add_up, Z2Nat.id by exact Ht.
    assert (~ ((len + b - 1) `quot` b) * b < len) as Hge.
    { rewrite <- lt_ceil_iff by lia. lia. }
    lia.
  - intros k Hk. apply elem_of_seqZ in Hk.
    assert (k * b < len) by (apply lt_ceil_iff; lia).
    rewrite block_extent by lia. nia.
Qed.

(** For a valid descriptor whose submatrix starts at the origin, the view
    heights of the [mt] tile rows add up to [m] and the view widths of the
    [nt] tile columns to [n]; for one that starts in the first tile row and
    column, the storage heights of the [lmt] tile rows add up to [lm] and the
    storage widths of the [lnt] tile columns to [ln]. *)
Theorem tile_extents_add_up (A : plasma_desc_t) :
  general_desc_valid A = true ->
  Desc.i A = 0 -> Desc.j A = 0 ->
  sum_over (plasma_tile_mview A) (seqZ 0 (Desc.mt A)) = Desc.m A
  /\ sum_over (plasma_tile_nview A) (seqZ 0 (Desc.nt A)) = Desc.n A
  /\ sum_over (plasma_tile_mmain A) (seqZ 0 (Desc.lmt A)) = Desc.lm A
  /\ sum_over (plasma_tile_nmain A) (seqZ 0 (Desc.lnt A)) = Desc.ln A.
Proof.
  intros Hwf%general_desc_valid_wf Hi Hj.
  pose proof (wf_mb A Hwf). pose proof (wf_nb A Hwf).
  pose proof (wf_m A Hwf). pose proof (wf_n A Hwf).
  pose proof (wf_im A Hwf). pose proof (wf_jn A Hwf).
  rewrite (wf_mt A Hwf), (wf_nt A Hwf), (wf_lmt A Hwf), (wf_lnt A Hwf).
  unfold plasma_tile_mview, plasma_tile_nview, plasma_tile_mmain,
    plasma_tile_nmain.
  rewrite Hi, Hj. rewrite !Z.quot_0_l, !Z.rem_0_l, !Z.add_0_l by lia.
  repeat split.
  all: etransitivity;
    [apply sum_over_ext; intros k _; rewrite Z.add_0_l; reflexivity |].
  all: apply block_extents_add_up; lia.
Qed.

Lemma tile_nmain_storage_witness :
  plasma_tile_nmain whole_5_by_7_complex 2
  = storage_width whole_5_by_7_complex (abs_tile_col whole_5_by_7_complex 2).
Proof.
  apply (tile_nmain_storage whole_5_by_7_complex
           (general_desc_valid_wf whole_5_by_7_complex eq_refl) 2).
  change (0 <= 2 < 3). lia.
Defined.

Lemma tile_nview_at_origin_witness :
  plasma_tile_nview whole_5_by_7_complex 2
  = cols_in_tile whole_5_by_7_complex 2.
Proof.
  apply (tile_nview_at_origin whole_5_by_7_complex
           (general_desc_valid_wf whole_5_by_7_complex eq_refl) 2).
  - reflexivity.
  - change (0 <= 2 < 3). lia.
Defined.

Lemma tile_extents_add_up_witness :
  sum_over (plasma_tile_mview whole_5_by_7_complex) (seqZ 0 3) = 5
  /\ sum_over (plasma_tile_nview whole_5_by_7_complex) (seqZ 0 3) = 7
  /\ sum_over (plasma_tile_mmain whole_5_by_7_complex) (seqZ 0 3) = 5
  /\ sum_over (plasma_tile_nmain whole_5_by_7_complex) (seqZ 0 3) = 7.
Proof.
  exact (tile_extents_add_up whole_5_by_7_complex eq_refl eq_refl eq_refl).
Defined.

(** ** GEMM: how many kernels, and with which arguments *)

Lemma length_bind_const {T U : Type} (f : T -> list U) (l : list T) (c : nat) :
  (forall x, x ∈ l -> length (f x) = c) ->
  length (l ≫= f) = (length l * c)%nat.
Proof.
  induction l as [| x l IH]; intros Hc; [reflexivity |].
  rewrite bind_cons, length_app, (Hc x) by left.
  rewrite IH by (intros y Hy; apply Hc; right; exact Hy). simpl. lia.
Qed.

Lemma pzgemm_tile_length (transA transB : plasma_enum_t)
    (alpha beta : plasma_complex64_t) (A B C : plasma_desc_t) (m n : Z) :
  length (pzgemm_tile transA transB alpha A B beta C m n)
  = if c_is_zero alpha || (gemm_inner transA A =? 0) then 1%nat
    else Z.to_nat (gemm_inner_tiles transA A).
Proof.
  unfold pzgemm_tile, gemm_inner, gemm_inner_tiles.
  destruct (c_is_zero alpha
            || ((if decide (transA = PlasmaNoTrans)
                 then Desc.n A else Desc.m A) =? 0)); [reflexivity |].
  repeat case_decide; rewrite length_fmap, length_seqZ; reflexivity.
Qed.

(** Under a sequence in state Success [plasma_pzgemm] submits one kernel
    per output tile when [alpha == 0] or the inner dimension is 0, and one
    kernel per output tile and inner tile otherwise. *)
Theorem pzgemm_kernel_count (transA transB : plasma_enum_t)
    (alpha beta : plasma_complex64_t) (A B C : plasma_desc_t)
    (sequence : plasma_sequence_t) (request : plasma_request_t) :
  Sequence.status sequence = PlasmaSuccess ->
  length (plasma_pzgemm transA transB alpha A B beta C sequence request).1
  = (Z.to_nat (Desc.mt C) * Z.to_nat (Desc.nt C)
     * (if c_is_zero alpha || (gemm_inner transA A =? 0)%Z then 1
        else Z.to_nat (gemm_inner_tiles transA A)))%nat.
Proof.
  intros Hs. unfold plasma_pzgemm. rewrite Hs. simpl.
  erewrite length_bind_const.
  - rewrite length_seqZ, <- Nat.mul_assoc. reflexivity.
  - intros m _. erewrite length_bind_const.
    + rewrite length_seqZ. reflexivity.
    + intros n _. apply pzgemm_tile_length.
Qed.

Lemma pzgemm_kernel_count_witness :
  length (plasma_pzgemm PlasmaNoTrans PlasmaConjTrans gemm_alpha
            gemm_A gemm_B gemm_beta gemm_C
            sequence_ok (Request.mk PlasmaSuccess)).1
  = 12%nat.
Proof.
  exact (pzgemm_kernel_count PlasmaNoTrans PlasmaConjTrans
           gemm_alpha gemm_beta gemm_A gemm_B gemm_C
           sequence_ok (Request.mk PlasmaSuccess) eq_refl).
Defined.

(** The argument check of the BLAS routine ZGEMM that the kernel reaches:
    no dimension is negative, and every leading dimension is at least 1
    and at least the number of rows of the matrix as it is stored. *)
Definition zgemm_args_legal (t : zgemm_task) : Prop :=
  0 <= g_m t /\ 0 <= g_n t /\ 0 <= g_k t
  /\ Z.max 1 (if decide (g_transA t = PlasmaNoTrans) then g_m t else g_k t)
     <= g_lda t
  /\ Z.max 1 (if decide (g_transB t = PlasmaNoTrans) then g_k t else g_n t)
     <= g_ldb t
  /\ Z.max 1 (g_m t) <= g_ldc t.

Definition tile_ref_in_range (r : tile_ref) : Prop :=
  tile_in_range (tile_desc r) (tile_m r) (tile_n r).

(** Rows and columns of [op(A)], each with the tile size along it. *)
Definition op_rows (trans : plasma_enum_t) (A : plasma_desc_t) : Z * Z :=
  if decide (trans = PlasmaNoTrans) then (Desc.m A, Desc.mb A)
  else (Desc.n A, Desc.nb A).
Definition op_cols (trans : plasma_enum_t) (A : plasma_desc_t) : Z * Z :=
  if decide (trans = PlasmaNoTrans) then (Desc.n A, Desc.nb A)
  else (Desc.m A, Desc.mb A).

(** The operands of [C := alpha * op(A) * op(B) + beta * C] conform, in
    elements and in tiles. *)
Definition gemm_conforming (transA transB : plasma_enum_t)
    (A B C : plasma_desc_t) : Prop :=
  op_rows transA A = (Desc.m C, Desc.mb C)
  /\ op_cols transA A = op_rows transB B
  /\ op_cols transB B = (Desc.n C, Desc.nb C).

(** A valid descriptor of a submatrix that starts at the origin. *)
Definition valid_at_origin (A : plasma_desc_t) : Prop :=
  general_desc_valid A = true /\ Desc.i A = 0 /\ Desc.j A = 0.

(** Block [k] of [0, len), for [k * b < len]. *)
Lemma block_extent_min (len b k : Z) :
  0 <= len -> 1 <= b -> 0 <= k -> k * b < len ->
  (if k <? len `quot` b then b else len `rem` b) = Z.min b (len - k * b).
Proof. intros. rewrite block_extent by lia. nia. Qed.

Record origin_facts (A : plasma_desc_t) : Prop := {
  of_mb : 1 <= Desc.mb A;
  of_nb : 1 <= Desc.nb A;
  of_m : 0 <= Desc.m A <= Desc.lm A;
  of_n : 0 <= Desc.n A <= Desc.ln A;
  of_mt : forall k, k < Desc.mt A <-> k * Desc.mb A < Desc.m A;
  of_nt : forall k, k < Desc.nt A <-> k * Desc.nb A < Desc.n A;
  of_mview : forall k, 0 <= k -> k * Desc.mb A < Desc.m A ->
      plasma_tile_mview A k = Z.min (Desc.mb A) (Desc.m A - k * Desc.mb A);
  of_nview : forall k, 0 <= k -> k * Desc.nb A < Desc.n A ->
      plasma_tile_nview A k = Z.min (Desc.nb A) (Desc.n A - k * Desc.nb A);
  of_mmain : forall k, 0 <= k -> k * Desc.mb A < Desc.lm A ->
      plasma_tile_mmain A k = Z.min (Desc.mb A) (Desc.lm A - k * Desc.mb A)
}.

Lemma valid_at_origin_facts (A : plasma_desc_t) :
  valid_at_origin A -> origin_facts A.
Proof.
  intros (Hwf%general_desc_valid_wf & Hi & Hj).
  pose proof (wf_mb A Hwf). pose proof (wf_nb A Hwf).
  pose proof (wf_m A Hwf). pose proof (wf_n A Hwf).
  pose proof (wf_im A Hwf). pose proof (wf_jn A Hwf).
  split; try lia.
  - intros k. rewrite (wf_mt A Hwf), Hi, Z.rem_0_l, Z.add_0_l by lia.
    apply lt_ceil_iff; lia.
  - intros k. rewrite (wf_nt A Hwf), Hj, Z.rem_0_l, Z.add_0_l by lia.
    apply lt_ceil_iff; lia.
  - intros k Hk Hlt. unfold plasma_tile_mview.
    rewrite Hi, Z.quot_0_l, Z.add_0_l by lia. apply block_extent_min; lia.
  - intros k Hk Hlt. unfold plasma_tile_nview.
    rewrite Hj, Z.quot_0_l, Z.add_0_l by lia. apply block_extent_min; lia.
  - intros k Hk Hlt. unfold plasma_tile_mmain.
    rewrite Hi, Z.quot_0_l, Z.add_0_l by lia. apply block_extent_min; lia.
Qed.

(** On valid descriptors of conforming operands that start at the origin
    of their matrices, every kernel that [plasma_pzgemm] submits passes
    the argument check of ZGEMM and writes a tile of [C]; a kernel that
    multiplies ([k > 0]) reads a tile of [A] and a tile of [B]. *)
Theorem pzgemm_kernels_legal (transA transB : plasma_enum_t)
    (alpha beta : plasma_complex64_t) (A B C : plasma_desc_t)
    (sequence : plasma_sequence_t) (request : plasma_request_t) :
  valid_at_origin A -> valid_at_origin B -> valid_at_origin C ->
  gemm_conforming transA transB A B C ->
  Forall (fun t =>
            zgemm_args_legal t
            /\ tile_ref_in_range (g_C t)
            /\ (0 < g_k t ->
                tile_ref_in_range (g_A t) /\ tile_ref_in_range (g_B t)))
    (plasma_pzgemm transA transB alpha A B beta C sequence request).1.
Proof.
  intros HA%valid_at_origin_facts HB%valid_at_origin_facts
    HC%valid_at_origin_facts (HAC & HAB & HBC).
  unfold plasma_pzgemm.
  destruct (negb (Sequence.status sequence =? PlasmaSuccess));
    [apply Forall_nil_2 |].
  apply Forall_forall. intros t Ht. simpl in Ht.
  apply list_elem_of_bind in Ht as (m & Ht & Hm%elem_of_seqZ).
  apply list_elem_of_bind in Ht as (n & Ht & Hn%elem_of_seqZ).
  assert (Hmlt : m * Desc.mb C < Desc.m C) by (apply (of_mt C HC); lia).
  assert (Hnlt : n * Desc.nb C < Desc.n C) by (apply (of_nt C HC); lia).
  pose proof (of_mview C HC m ltac:(lia) Hmlt) as Emv.
  pose proof (of_nview C HC n ltac:(lia) Hnlt) as Env.
  pose proof (of_mmain C HC m ltac:(lia) ltac:(pose proof (of_m C HC); lia))
    as Emm.
  pose proof (of_mb C HC). pose proof (of_nb C HC).
  pose proof (of_m C HC). pose proof (of_n C HC).
  pose proof (of_mb A HA). pose proof (of_nb A HA).
  pose proof (of_m A HA). pose proof (of_n A HA).
  pose proof (of_mb B HB). pose proof (of_nb B HB).
  pose proof (of_m B HB). pose proof (of_n B HB).
  unfold op_rows, op_cols in HAC, HAB, HBC.
  unfold pzgemm_tile in Ht.
  unfold zgemm_args_legal, tile_ref_in_range, tile_in_range.
  destruct (c_is_zero alpha
            || ((if decide (transA = PlasmaNoTrans)
                 then Desc.n A else Desc.m A) =? 0)).
  - apply list_elem_of_singleton in Ht. subst t. cbn.
    rewrite !imax_max, Emv, Env, Emm.
    assert (HldA : transA = PlasmaNoTrans ->
              Z.min (Desc.mb C) (Desc.m C - m * Desc.mb C)
              <= plasma_tile_mmain A 0).
    { intros ->. rewrite decide_True in HAC by reflexivity.
      injection HAC as Em Eb.
      rewrite (of_mmain A HA 0) by lia. lia. }
    assert (HldB : transB <> PlasmaNoTrans ->
              Z.min (Desc.nb C) (Desc.n C - n * Desc.nb C)
              <= plasma_tile_mmain B 0).
    { intros Hne. rewrite decide_False in HBC by exact Hne.
      injection HBC as Em Eb.
      rewrite (of_mmain B HB 0) by lia. lia. }
    repeat case_decide; repeat split; try lia.
    all: try (specialize (HldA ltac:(assumption)); lia).
    all: try (specialize (HldB ltac:(assumption)); lia).
  - destruct (decide (transA = PlasmaNoTrans)) as [EA | NA];
      destruct (decide (transB = PlasmaNoTrans)) as [EB | NB].
    all: apply list_elem_of_fmap in Ht as (k & -> & Hk%elem_of_seqZ); cbn.
    all: repeat case_decide; try contradiction.
    all: injection HAC as Em Eb; injection HAB as Ek Ekb;
      injection HBC as En Enb.
    all: rewrite Emv, Env, Emm.
    + (* op(A) = A, op(B) = B: tiles A(m, k) and B(k, n) *)
      assert (Hklt : k * Desc.nb A < Desc.n A) by (apply (of_nt A HA); lia).
      assert (k * Desc.mb B < Desc.m B) by (rewrite <- Ek, <- Ekb; exact Hklt).
      assert (m * Desc.mb A < Desc.m A) by (rewrite Em, Eb; exact Hmlt).
      assert (n * Desc.nb B < Desc.n B) by (rewrite En, Enb; exact Hnlt).
      rewrite (of_nview A HA k) by lia.
      rewrite (of_mmain A HA m) by lia.
      rewrite (of_mmain B HB k) by lia.
      rewrite (of_mt A HA m), (of_mt B HB k), (of_nt B HB n).
      rewrite <- Ek, <- Ekb, <- Em, <- Eb in *. repeat split; lia.
    + (* op(A) = A, op(B) = B^T: tiles A(m, k) and B(n, k) *)
      assert (Hklt : k * Desc.nb A < Desc.n A) by (apply (of_nt A HA); lia).
      assert (k * Desc.nb B < Desc.n B) by (rewrite <- Ek, <- Ekb; exact Hklt).
      assert (m * Desc.mb A < Desc.m A) by (rewrite Em, Eb; exact Hmlt).
      assert (n * Desc.mb B < Desc.m B) by (rewrite En, Enb; exact Hnlt).
      rewrite (of_nview A HA k) by lia.
      rewrite (of_mmain A HA m) by lia.
      rewrite (of_mmain B HB n) by lia.
      rewrite (of_mt A HA m), (of_mt B HB n), (of_nt B HB k).
      rewrite <- Em, <- Eb, <- En, <- Enb in *. repeat split; lia.
    + (* op(A) = A^T, op(B) = B: tiles A(k, m) and B(k, n) *)
      assert (Hklt : k * Desc.mb A < Desc.m A) by (apply (of_mt A HA); lia).
      assert (k * Desc.mb B < Desc.m B) by (rewrite <- Ek, <- Ekb; exact Hklt).
      assert (m * Desc.nb A < Desc.n A) by (rewrite Em, Eb; exact Hmlt).
      assert (n * Desc.nb B < Desc.n B) by (rewrite En, Enb; exact Hnlt).
      rewrite (of_mview A HA k) by lia.
      rewrite (of_mmain A HA k) by lia.
      rewrite (of_mmain B HB k) by lia.
      rewrite (of_nt A HA m), (of_mt A HA k), (of_mt B HB k), (of_nt B HB n).
      rewrite <- Ek, <- Ekb in *. repeat split; lia.
    + (* op(A) = A^T, op(B) = B^T: tiles A(k, m) and B(n, k) *)
      assert (Hklt : k * Desc.mb A < Desc.m A) by (apply (of_mt A HA); lia).
      assert (k * Desc.nb B < Desc.n B) by (rewrite <- Ek, <- Ekb; exact Hklt).
      assert (m * Desc.nb A < Desc.n A) by (rewrite Em, Eb; exact Hmlt).
      assert (n * Desc.mb B < Desc.m B) by (rewrite En, Enb; exact Hnlt).
      rewrite (of_mview A HA k) by lia.
      rewrite (of_mmain A HA k) by lia.
      rewrite (of_mmain B HB n) by lia.
      rewrite (of_nt A HA m), (of_mt A HA k), (of_mt B HB n), (of_nt B HB k).
      rewrite <- En, <- Enb in *. repeat split; lia.
Qed.

(** The product of a 7 x 5 by a 5 x 9 matrix, in 4 x 4 tiles. *)
Definition gemm_B_5_by_9 : plasma_desc_t :=
  plasma_desc_general_init PlasmaComplexDouble 4096 4 4 5 9 0 0 5 9.

Lemma pzgemm_kernels_legal_witness :
  Forall (fun t =>
            zgemm_args_legal t
            /\ tile_ref_in_range (g_C t)
            /\ (0 < g_k t ->
                tile_ref_in_range (g_A t) /\ tile_ref_in_range (g_B t)))
    (plasma_pzgemm PlasmaNoTrans PlasmaNoTrans gemm_alpha gemm_A
       gemm_B_5_by_9 gemm_beta gemm_C
       sequence_ok (Request.mk PlasmaSuccess)).1.
Proof.
  apply (pzgemm_kernels_legal PlasmaNoTrans PlasmaNoTrans gemm_alpha
           gemm_beta gemm_A gemm_B_5_by_9 gemm_C);
    repeat split; reflexivity.
Defined.

(** ** Band layout translation: which tiles, and how much of each *)

Lemma elem_of_band_tasks (uplo : plasma_enum_t) (lda : Z) (A : plasma_desc_t)
    (sequence : plasma_sequence_t) (request : plasma_request_t)
    (t : lacpy_band_task) :
  t ∈ (plasma_pzoocm2ccrb_band uplo lda A sequence request).1 ->
  exists m n,
    0 <= n < Desc.nt A
    /\ band_m_start uplo A n <= m <= band_m_end uplo A n
    /\ t = LacpyBandTask uplo m n
             (imin (Desc.mb A) (Desc.m A - m * Desc.mb A))
             (imin (Desc.nb A) (Desc.n A - n * Desc.nb A))
             (Desc.mb A) (Desc.kl A) (Desc.ku A)
             (bandA uplo lda A m n) (lda - 1)
             (Tile A m n) (BLKLDD_BAND uplo A m n).
Proof.
  unfold plasma_pzoocm2ccrb_band.
  destruct (negb (Sequence.status sequence =? PlasmaSuccess)); simpl;
    [intros H; inversion H |].
  intros (n & Ht & Hn%elem_of_seqZ)%list_elem_of_bind.
  unfold pzoocm2ccrb_band_column in Ht.
  apply list_elem_of_fmap in Ht as (m & -> & Hm%elem_of_seqZ).
  exists m, n. split; [lia |]. split; [lia | reflexivity].
Qed.

(** The floor of C's truncating division, on non-negative operands. *)
Lemma floor_mul_le (a b : Z) :
  1 <= b -> 0 <= a -> 0 <= a `quot` b /\ a `quot` b * b <= a.
Proof. intros Hb Ha. pose proof (quot_spec a b Ha Hb). lia. Qed.

Section BandLoop.
Variables (uplo : plasma_enum_t) (A : plasma_desc_t) (n : Z).
Hypothesis Hnb : 1 <= Desc.nb A.
Hypothesis Hm : 1 <= Desc.m A.
Hypothesis Hkl : 0 <= Desc.kl A.
Hypothesis Hn : 0 <= n.

(** The last tile row copied holds a row of the matrix. *)
Lemma band_m_end_in_matrix :
  band_m_end uplo A n * Desc.nb A <= Desc.m A - 1.
Proof using Hnb Hm Hkl Hn.
  assert (0 <= n * Desc.nb A) by nia.
  unfold band_m_end. rewrite !imin_min.
  repeat case_decide.
  all: match goal with
       | |- ?a `quot` _ * _ <= _ =>
           pose proof (floor_mul_le a (Desc.nb A) Hnb ltac:(lia)); lia
       end.
Qed.

End BandLoop.

(** With square tiles, on a descriptor whose [nt] tile columns all hold a
    column of the matrix, no copy is empty: every task copies at least one
    row and one column, and at most a tile. *)
Theorem band_copies_nonempty (uplo : plasma_enum_t) (lda : Z)
    (A : plasma_desc_t)
    (sequence : plasma_sequence_t) (request : plasma_request_t) :
  1 <= Desc.nb A -> Desc.mb A = Desc.nb A -> 1 <= Desc.m A ->
  0 <= Desc.kl A ->
  (Desc.nt A - 1) * Desc.nb A < Desc.n A ->
  Forall (fun t => 1 <= lb_m t <= Desc.mb A /\ 1 <= lb_n t <= Desc.nb A)
    (plasma_pzoocm2ccrb_band uplo lda A sequence request).1.
Proof.
  intros Hnb Hsq Hm Hkl Hnt. apply Forall_forall. intros t Ht.
  apply elem_of_band_tasks in Ht as (m & n & Hn & Hmn & ->). cbn.
  rewrite !imin_min, Hsq.
  pose proof (band_m_end_in_matrix uplo A n Hnb Hm Hkl ltac:(lia)).
  assert (m * Desc.nb A <= band_m_end uplo A n * Desc.nb A) by nia.
  assert (n * Desc.nb A <= (Desc.nt A - 1) * Desc.nb A) by nia.
  lia.
Qed.

(** An 8 x 8 band matrix with [ku = 2], upper triangular, in 3 x 3 tiles:
    the band store has two tile rows. *)
Definition upper_band_8_by_8 : plasma_desc_t :=
  {| Desc.type := PlasmaGeneralBand; Desc.uplo := PlasmaUpper;
     Desc.precision := PlasmaComplexDouble; Desc.matrix := 0;
     Desc.A21 := 36; Desc.A12 := 36; Desc.A22 := 48;
     Desc.mb := 3; Desc.nb := 3; Desc.lm := 6; Desc.ln := 8;
     Desc.lmt := 2; Desc.lnt := 3;
     Desc.i := 0; Desc.j := 0; Desc.m := 8; Desc.n := 8;
     Desc.mt := 3; Desc.nt := 3;
     Desc.kl := 0; Desc.ku := 2; Desc.klt := 0; Desc.kut := 1 |}.

Lemma band_copies_nonempty_witness :
  Forall (fun t => 1 <= lb_m t <= 3 /\ 1 <= lb_n t <= 3)
    (plasma_pzoocm2ccrb_band PlasmaUpper 4 upper_band_8_by_8
       sequence_ok (Request.mk PlasmaSuccess)).1.
Proof.
  apply (band_copies_nonempty PlasmaUpper 4 upper_band_8_by_8
           sequence_ok (Request.mk PlasmaSuccess));
    first [reflexivity | cbn; lia].
Defined.

(** ** QR and LQ factorization of a tile ([core_blas/core_zgeqrt.c],
    [core_blas/core_zgelqt.c]) *)

(** The values the loop variable takes in [for (i = first; i < bound;
    i += step)].  The loops of the kernels run with [step >= 1], so that
    [bound - first] rounds are enough ([loop_from_more_fuel]). *)
Fixpoint loop_from (fuel : nat) (i bound step : Z) : list Z :=
  match fuel with
  | O => []
  | S fuel' =>
      if i <? bound then i :: loop_from fuel' (i + step) bound step else []
  end.

Definition for_step (first bound step : Z) : list Z :=
  loop_from (Z.to_nat (bound - first)) first bound step.

Module Qrt.

(** The constants of [plasma_types.h] for the direction and the storage
    of the elementary reflectors. *)
Inductive plasma_direct_t : Set := PlasmaForward | PlasmaBackward.
Inductive plasma_storev_t : Set := PlasmaColumnwise | PlasmaRowwise.

(** A call of LAPACK through LAPACKE, in column major order: the
    dimensions, the leading dimensions and the positions that the kernel
    passes.  A position is the index of a [plasma_complex64_t] in memory:
    [&A[k]] is [A + k]. *)
Inductive lapack_call : Set :=
| LAPACKE_zgeqr2_work (m n : Z) (a lda tau work : Z)
| LAPACKE_zgelq2_work (m n : Z) (a lda tau work : Z)
| LAPACKE_zlarft_work (direct : plasma_direct_t) (storev : plasma_storev_t)
    (n k : Z) (v ldv tau t ldt : Z)
| LAPACKE_zlarfb_work (side trans : plasma_enum_t)
    (direct : plasma_direct_t) (storev : plasma_storev_t)
    (m n k : Z) (v ldv t ldt c ldc work ldwork : Z).

(** [core_zgeqrt]: the LAPACK calls it makes, in order, and the value it
    returns.  [Plasma_ConjTrans] of the source is [PlasmaConjTrans]. *)
Definition core_zgeqrt (m n ib : Z) (A lda T ldt TAU WORK lwork : Z)
  : list lapack_call * Z :=
  if m <? 0 then ([], -1)
  else if n <? 0 then ([], -2)
  else if (ib <? 0) || ((ib =? 0) && (0 <? m) && (0 <? n)) then ([], -3)
  else if (lda <? imax 1 m) && (0 <? m) then ([], -5)
  else if (ldt <? imax 1 ib) && (0 <? ib) then ([], -7)
  else if lwork <? ib * n then ([], -10)
  else if (m =? 0) || (n =? 0) || (ib =? 0) then ([], PlasmaSuccess)
  else
    let k := imin m n in
    (i ← for_step 0 k ib;
     (let sb := imin ib (k - i) in
      [LAPACKE_zgeqr2_work (m - i) sb (A + (lda * i + i)) lda (TAU + i) WORK;
       LAPACKE_zlarft_work PlasmaForward PlasmaColumnwise (m - i) sb
         (A + (lda * i + i)) lda (TAU + i) (T + ldt * i) ldt]
      ++ (if i + sb <? n then
            [LAPACKE_zlarfb_work PlasmaLeft PlasmaConjTrans
               PlasmaForward PlasmaColumnwise
               (m - i) (n - i - sb) sb
               (A + (lda * i + i)) lda (T + ldt * i) ldt
               (A + (lda * (i + sb) + i)) lda WORK (n - i - sb)]
          else [])),
     PlasmaSuccess).

(** [core_zgelqt]. *)
Definition core_zgelqt (m n ib : Z) (A lda T ldt TAU WORK lwork : Z)
  : list lapack_call * Z :=
  if m <? 0 then ([], -1)
  else if n <? 0 then ([], -2)
  else if (ib <? 0) || ((ib =? 0) && ((0 <? m) && (0 <? n))) then ([], -3)
  else if (lda <? imax 1 m) && (0 <? m) then ([], -5)
  else if (ldt <? imax 1 ib) && (0 <? ib) then ([], -7)
  else if lwork <? ib * m then ([], -10)
  else if (m =? 0) || (n =? 0) || (ib =? 0) then ([], PLASMA_SUCCESS)
  else
    let k := imin m n in
    (i ← for_step 0 k ib;
     (let sb := imin ib (k - i) in
      [LAPACKE_zgelq2_work sb (n - i) (A + (lda * i + i)) lda (TAU + i) WORK;
       LAPACKE_zlarft_work PlasmaForward PlasmaRowwise (n - i) sb
         (A + (lda * i + i)) lda (TAU + i) (T + ldt * i) ldt]
      ++ (if i + sb <? m then
            [LAPACKE_zlarfb_work PlasmaRight PlasmaNoTrans
               PlasmaForward PlasmaRowwise
               (m - i - sb) (n - i) sb
               (A + (lda * i + i)) lda (T + ldt * i) ldt
               (A + (lda * i + (i + sb))) lda WORK (m - i - sb)]
          else [])),
     PLASMA_SUCCESS).

(** [plasma_workspace_t], as far as the task bodies use it: the length
    [lwork] of each thread's space and the position [spaces[tid]] of the
    space of thread [tid]. *)
Record plasma_workspace_t : Set := Workspace {
  lwork : Z;
  spaces : Z -> Z
}.



End Qrt.

(** *** Loops with a step *)

Lemma loop_from_range (fuel : nat) (i bound step : Z) (x : Z) :
  1 <= step -> x ∈ loop_from fuel i bound step -> i <= x < bound.
Proof.
  intros Hstep. revert i. induction fuel as [| fuel IH]; intros i; simpl.
  - intros H; inversion H.
  - destruct (Z.ltb_spec i bound); [| intros H'; inversion H'].
    intros [-> | Hx%IH]%elem_of_cons; lia.
Qed.

(** The blocks [x, x + min(step, bound - x)) of the rounds of the loop
    follow one another and cover [i, bound). *)
Lemma loop_from_blocks (fuel : nat) (i bound step : Z) :
  1 <= step -> i <= bound -> bound - i <= Z.of_nat fuel ->
  (x ← loop_from fuel i bound step; seqZ x (imin step (bound - x)))
  = seqZ i (bound - i).
Proof.
  intros Hstep. revert i. induction fuel as [| fuel IH]; intros i Hi Hfuel.
  - simpl. rewrite seqZ_nil by lia. reflexivity.
  - simpl. destruct (Z.ltb_spec i bound) as [Hlt | Hge].
    + rewrite bind_cons, imin_min.
      destruct (Z.le_gt_cases (i + step) bound) as [Hfull | Hlast].
      * rewrite IH by lia. rewrite Z.min_l by lia.
        replace (bound - i) with (step + (bound - (i + step))) by lia.
        rewrite seqZ_app by lia. reflexivity.
      * rewrite Z.min_r by lia.
        assert (loop_from fuel (i + step) bound step = []) as ->.
        { destruct fuel; simpl; [reflexivity |].
          destruct (Z.ltb_spec (i + step) bound); [lia | reflexivity]. }
        simpl. apply app_nil_r.
    + rewrite seqZ_nil by lia. reflexivity.
Qed.

(** More rounds than [bound - first] change nothing. *)
Lemma loop_from_more_fuel (fuel fuel' : nat) (i bound step : Z) :
  1 <= step -> bound - i <= Z.of_nat fuel -> bound - i <= Z.of_nat fuel' ->
  loop_from fuel i bound step = loop_from fuel' i bound step.
Proof.
  intros Hstep. revert fuel' i.
  induction fuel as [| fuel IH]; intros fuel' i Hfuel Hfuel'.
  - destruct fuel'; simpl; [reflexivity |].
    destruct (Z.ltb_spec i bound); [lia | reflexivity].
  - simpl. destruct (Z.ltb_spec i bound) as [Hlt | Hge].
    + destruct fuel'; [lia |]. simpl.
      destruct (Z.ltb_spec i bound); [| lia]. f_equal. apply IH; lia.
    + destruct fuel'; simpl; [reflexivity |].
      destruct (Z.ltb_spec i bound); [lia | reflexivity].
Qed.

(** *** Legal arguments *)

(** The arguments [core_zgeqrt] accepts: [m], [n] and [ib] are not
    negative, [ib] is 0 only for an empty tile, [lda >= m] unless [m] is
    0, [ldt >= ib] unless [ib] is 0, and [lwork >= ib * n]. *)
Definition zgeqrt_args_legal (m n ib lda ldt lwork : Z) : Prop :=
  0 <= m /\ 0 <= n /\ 0 <= ib /\ (ib = 0 -> m = 0 \/ n = 0)
  /\ (0 < m -> m <= lda) /\ (0 < ib -> ib <= ldt) /\ ib * n <= lwork.

(** Those of [core_zgelqt]: the same, with [lwork >= ib * m]. *)
Definition zgelqt_args_legal (m n ib lda ldt lwork : Z) : Prop :=
  0 <= m /\ 0 <= n /\ 0 <= ib /\ (ib = 0 -> m = 0 \/ n = 0)
  /\ (0 < m -> m <= lda) /\ (0 < ib -> ib <= ldt) /\ ib * m <= lwork.






(** *** What the kernels call on a tile that is not empty *)




(** The elementary reflectors a call computes, by their index in [TAU]:
    those of the panel that ZGEQR2 or ZGELQ2 factorizes. *)
Definition reflectors_of (TAU : Z) (c : Qrt.lapack_call) : list Z :=
  match c with
  | Qrt.LAPACKE_zgeqr2_work m' n' _ _ tau _ => seqZ (tau - TAU) (Z.min m' n')
  | Qrt.LAPACKE_zgelq2_work m' n' _ _ tau _ => seqZ (tau - TAU) (Z.min m' n')
  | _ => []
  end.

Lemma for_step_range (bound step x : Z) :
  1 <= step -> x ∈ for_step 0 bound step -> 0 <= x < bound.
Proof. intros Hstep. apply loop_from_range. exact Hstep. Qed.

Lemma for_step_blocks (bound step : Z) :
  1 <= step -> 0 <= bound ->
  (x ← for_step 0 bound step; seqZ x (imin step (bound - x))) = seqZ 0 bound.
Proof.
  intros Hstep Hb. unfold for_step. rewrite loop_from_blocks by lia.
  f_equal. lia.
Qed.

Section GeqrtRun.
Variables (m n ib A lda T ldt TAU WORK lwork : Z).
Hypothesis Hlegal : zgeqrt_args_legal m n ib lda ldt lwork.
Hypothesis Hm : 0 < m.
Hypothesis Hn : 0 < n.

Lemma geqrt_ib_pos : 0 < ib.
Proof using Hlegal Hm Hn. unfold zgeqrt_args_legal in Hlegal. lia. Qed.

Lemma zgeqrt_run :
  Qrt.core_zgeqrt m n ib A lda T ldt TAU WORK lwork
  = (i ← for_step 0 (imin m n) ib;
     (let sb := imin ib (imin m n - i) in
      [Qrt.LAPACKE_zgeqr2_work (m - i) sb (A + (lda * i + i)) lda (TAU + i)
         WORK;
       Qrt.LAPACKE_zlarft_work Qrt.PlasmaForward Qrt.PlasmaColumnwise
         (m - i) sb (A + (lda * i + i)) lda (TAU + i) (T + ldt * i) ldt]
      ++ (if i + sb <? n then
            [Qrt.LAPACKE_zlarfb_work PlasmaLeft PlasmaConjTrans
               Qrt.PlasmaForward Qrt.PlasmaColumnwise
               (m - i) (n - i - sb) sb
               (A + (lda * i + i)) lda (T + ldt * i) ldt
               (A + (lda * (i + sb) + i)) lda WORK (n - i - sb)]
          else [])),
     PlasmaSuccess).
Proof using Hlegal Hm Hn.
  pose proof geqrt_ib_pos. unfold zgeqrt_args_legal in Hlegal.
  unfold Qrt.core_zgeqrt. rewrite !imax_max.
  destruct (Z.ltb_spec m 0); [lia |].
  destruct (Z.ltb_spec n 0); [lia |].
  destruct (Z.ltb_spec ib 0); [lia |].
  destruct (Z.eqb_spec ib 0); [lia |]. cbn [andb orb].
  destruct (Z.ltb_spec lda (Z.max 1 m)); [lia |]. cbn [andb].
  destruct (Z.ltb_spec ldt (Z.max 1 ib)); [lia |]. cbn [andb].
  destruct (Z.ltb_spec lwork (ib * n)); [lia |].
  destruct (Z.eqb_spec m 0); [lia |].
  destruct (Z.eqb_spec n 0); [lia |]. reflexivity.
Qed.

End GeqrtRun.

(** On a tile that is not empty and with legal arguments, the panels that
    [core_zgeqrt] factorizes follow one another and cover the columns
    [0 .. min(m, n) - 1]: every elementary reflector is computed once, in
    order. *)
Theorem zgeqrt_reflectors (m n ib A lda T ldt TAU WORK lwork : Z) :
  zgeqrt_args_legal m n ib lda ldt lwork -> 0 < m -> 0 < n ->
  (Qrt.core_zgeqrt m n ib A lda T ldt TAU WORK lwork).1
    ≫= reflectors_of TAU
  = seqZ 0 (imin m n).
Proof.
  intros Hlegal Hm Hn.
  pose proof (geqrt_ib_pos m n ib lda ldt lwork Hlegal Hm Hn) as Hib.
  rewrite (zgeqrt_run m n ib A lda T ldt TAU WORK lwork Hlegal Hm Hn).
  cbn [fst]. rewrite !imin_min.
  rewrite <- (for_step_blocks (Z.min m n) ib) by lia.
  set (k := Z.min m n).
  assert (Hbody : forall l : list Z,
            (forall x, x ∈ l -> 0 <= x < k) ->
            (l ≫= (fun i =>
               [Qrt.LAPACKE_zgeqr2_work (m - i) (imin ib (k - i))
                  (A + (lda * i + i)) lda (TAU + i) WORK;
                Qrt.LAPACKE_zlarft_work Qrt.PlasmaForward Qrt.PlasmaColumnwise
                  (m - i) (imin ib (k - i)) (A + (lda * i + i)) lda (TAU + i)
                  (T + ldt * i) ldt]
               ++ (if i + imin ib (k - i) <? n then
                     [Qrt.LAPACKE_zlarfb_work PlasmaLeft PlasmaConjTrans
                        Qrt.PlasmaForward Qrt.PlasmaColumnwise
                        (m - i) (n - i - imin ib (k - i)) (imin ib (k - i))
                        (A + (lda * i + i)) lda (T + ldt * i) ldt
                        (A + (lda * (i + imin ib (k - i)) + i)) lda WORK
                        (n - i - imin ib (k - i))]
                   else []))) ≫= reflectors_of TAU
            = l ≫= (fun x => seqZ x (imin ib (k - x)))).
  { induction l as [| x l IH]; intros Hl; [reflexivity |].
    rewrite !bind_cons, bind_app, IH
      by (intros y Hy; apply Hl; right; exact Hy).
    f_equal. pose proof (Hl x ltac:(left)) as Hx.
    rewrite bind_app. cbn [mbind list_bind reflectors_of app].
    destruct (x + imin ib (k - x) <? n); cbn [mbind list_bind reflectors_of app].
    all: rewrite !app_nil_r, imin_min.
    all: f_equal; subst k; lia. }
  apply Hbody. intros x Hx. apply (for_step_range k ib x); [lia | exact Hx].
Qed.


Section GelqtRun.
Variables (m n ib A lda T ldt TAU WORK lwork : Z).
Hypothesis Hlegal : zgelqt_args_legal m n ib lda ldt lwork.
Hypothesis Hm : 0 < m.
Hypothesis Hn : 0 < n.

Lemma gelqt_ib_pos : 0 < ib.
Proof using Hlegal Hm Hn. unfold zgelqt_args_legal in Hlegal. lia. Qed.

Lemma zgelqt_run :
  Qrt.core_zgelqt m n ib A lda T ldt TAU WORK lwork
  = (i ← for_step 0 (imin m n) ib;
     (let sb := imin ib (imin m n - i) in
      [Qrt.LAPACKE_zgelq2_work sb (n - i) (A + (lda * i + i)) lda (TAU + i)
         WORK;
       Qrt.LAPACKE_zlarft_work Qrt.PlasmaForward Qrt.PlasmaRowwise
         (n - i) sb (A + (lda * i + i)) lda (TAU + i) (T + ldt * i) ldt]
      ++ (if i + sb <? m then
            [Qrt.LAPACKE_zlarfb_work PlasmaRight PlasmaNoTrans
               Qrt.PlasmaForward Qrt.PlasmaRowwise
               (m - i - sb) (n - i) sb
               (A + (lda * i + i)) lda (T + ldt * i) ldt
               (A + (lda * i + (i + sb))) lda WORK (m - i - sb)]
          else [])),
     PLASMA_SUCCESS).
Proof using Hlegal Hm Hn.
  pose proof gelqt_ib_pos. unfold zgelqt_args_legal in Hlegal.
  unfold Qrt.core_zgelqt. rewrite !imax_max.
  destruct (Z.ltb_spec m 0); [lia |].
  destruct (Z.ltb_spec n 0); [lia |].
  destruct (Z.ltb_spec ib 0); [lia |].
  destruct (Z.eqb_spec ib 0); [lia |]. cbn [andb orb].
  destruct (Z.ltb_spec lda (Z.max 1 m)); [lia |]. cbn [andb].
  destruct (Z.ltb_spec ldt (Z.max 1 ib)); [lia |]. cbn [andb].
  destruct (Z.ltb_spec lwork (ib * m)); [lia |].
  destruct (Z.eqb_spec m 0); [lia |].
  destruct (Z.eqb_spec n 0); [lia |]. reflexivity.
Qed.

End GelqtRun.

(** The same for [core_zgelqt]: the row panels it factorizes follow one
    another and cover the rows [0 .. min(m, n) - 1]. *)
Theorem zgelqt_reflectors (m n ib A lda T ldt TAU WORK lwork : Z) :
  zgelqt_args_legal m n ib lda ldt lwork -> 0 < m -> 0 < n ->
  (Qrt.core_zgelqt m n ib A lda T ldt TAU WORK lwork).1
    ≫= reflectors_of TAU
  = seqZ 0 (imin m n).
Proof.
  intros Hlegal Hm Hn.
  pose proof (gelqt_ib_pos m n ib lda ldt lwork Hlegal Hm Hn) as Hib.
  rewrite (zgelqt_run m n ib A lda T ldt TAU WORK lwork Hlegal Hm Hn).
  cbn [fst]. rewrite !imin_min.
  rewrite <- (for_step_blocks (Z.min m n) ib) by lia.
  set (k := Z.min m n).
  assert (Hbody : forall l : list Z,
            (forall x, x ∈ l -> 0 <= x < k) ->
            (l ≫= (fun i =>
               [Qrt.LAPACKE_zgelq2_work (imin ib (k - i)) (n - i)
                  (A + (lda * i + i)) lda (TAU + i) WORK;
                Qrt.LAPACKE_zlarft_work Qrt.PlasmaForward Qrt.PlasmaRowwise
                  (n - i) (imin ib (k - i)) (A + (lda * i + i)) lda (TAU + i)
                  (T + ldt * i) ldt]
               ++ (if i + imin ib (k - i) <? m then
                     [Qrt.LAPACKE_zlarfb_work PlasmaRight PlasmaNoTrans
                        Qrt.PlasmaForward Qrt.PlasmaRowwise
                        (m - i - imin ib (k - i)) (n - i) (imin ib (k - i))
                        (A + (lda * i + i)) lda (T + ldt * i) ldt
                        (A + (lda * i + (i + imin ib (k - i)))) lda WORK
                        (m - i - imin ib (k - i))]
                   else []))) ≫= reflectors_of TAU
            = l ≫= (fun x => seqZ x (imin ib (k - x)))).
  { induction l as [| x l IH]; intros Hl; [reflexivity |].
    rewrite !bind_cons, bind_app, IH
      by (intros y Hy; apply Hl; right; exact Hy).
    f_equal. pose proof (Hl x ltac:(left)) as Hx.
    rewrite bind_app. cbn [mbind list_bind reflectors_of app].
    destruct (x + imin ib (k - x) <? m); cbn [mbind list_bind reflectors_of app].
    all: rewrite !app_nil_r, imin_min.
    all: f_equal; subst k; lia. }
  apply Hbody. intros x Hx. apply (for_step_range k ib x); [lia | exact Hx].
Qed.


(** *** The workspace of the task bodies *)



(** A 5 x 7 tile factorized with inner blocks of 2 columns. *)
Lemma zgeqrt_reflectors_witness :
  (Qrt.core_zgeqrt 5 7 2 0 5 100 2 200 300 14).1 ≫= reflectors_of 200
  = seqZ 0 (imin 5 7).
Proof.
  apply (zgeqrt_reflectors 5 7 2 0 5 100 2 200 300 14);
    unfold zgeqrt_args_legal; lia.
Defined.


(** A 7 x 5 tile factorized with inner blocks of 2 rows. *)
Lemma zgelqt_reflectors_witness :
  (Qrt.core_zgelqt 7 5 2 0 7 100 2 200 300 14).1 ≫= reflectors_of 200
  = seqZ 0 (imin 7 5).
Proof.
  apply (zgelqt_reflectors 7 5 2 0 7 100 2 200 300 14);
    unfold zgelqt_args_legal; lia.
Defined.





(** ** Sum of squares of a symmetric tile ([core_blas/core_zsyssq.c]) *)

Module Zsyssq.
Section Kernel.
Context {F : Type} `{Real_ops F}.

(** [x != y] on [double], [cabs] of [<complex.h>], and LAPACK's ZLASSQ:
    [LAPACK_zlassq n x incx (scale, sumsq)] is the pair that
    [LAPACK_zlassq(&n, x, &incx, scale, sumsq)] leaves in [*scale] and
    [*sumsq]; [x k] is the number at [x[k]]. *)
Variable f_neqb : F -> F -> bool.
Variable cabs : F * F -> F.
Variable LAPACK_zlassq : Z -> (Z -> F * F) -> Z -> F * F -> F * F.

(** [core_zsyssq]: [A k] is the number at [A[k]]; the result is the pair
    left in [*scale] and [*sumsq].  The cast [(double)A[lda*i+i]] of a
    complex number is its real part. *)
Definition core_zsyssq (uplo : plasma_enum_t) (n : Z) (A : Z -> F * F)
    (lda : Z) (acc : F * F) : F * F :=
  let ione := 1 in
  let acc :=
    if decide (uplo = PlasmaUpper) then
      foldl (fun acc j =>
               LAPACK_zlassq j (fun k => A (lda * j + k)) ione acc)
            acc (seqZ 1 (n - 1))
    else
      foldl (fun acc j =>
               let len := n - j - 1 in
               LAPACK_zlassq len (fun k => A (lda * j + j + 1 + k)) ione acc)
            acc (seqZ 0 (n - 1)) in
  let acc := (acc.1, (acc.2 * f_two)%ops) in
  foldl (fun '(scale, sumsq) i =>
           if f_neqb (A (lda * i + i)).1 f_zero then
             let absa := cabs (A (lda * i + i)) in
             if (scale <? absa)%ops then
               (absa,
                (f_one + sumsq * ((scale / absa) * (scale / absa)))%ops)
             else
               (scale, (sumsq + ((absa / scale) * (absa / scale)))%ops)
           else (scale, sumsq))
        acc (seqZ 0 n).

(** The task body of [core_omp_zsyssq]. *)
Definition core_omp_zsyssq (uplo : plasma_enum_t) (n : Z) (A : Z -> F * F)
    (lda : Z) (acc : F * F) (sequence : plasma_sequence_t) : F * F :=
  if Sequence.status sequence =? PlasmaSuccess then
    let scale := f_zero in
    let sumsq := f_one in
    core_zsyssq uplo n A lda (scale, sumsq)
  else acc.

End Kernel.
End Zsyssq.

(** *** In exact arithmetic *)

(** [|z|^2]. *)
Definition norm2 (z : R * R) : R := (z.1 * z.1 + z.2 * z.2)%R.

Definition exact_neqb (x y : R) : bool := if Req_dec_T x y then false else true.
Definition exact_cabs (z : R * R) : R := sqrt (norm2 z).

(** What LAPACK documents of ZLASSQ: it returns [scale] and [sumsq] with
    [scale^2 * sumsq = x(1)^2 + ... + x(n)^2 + scale_in^2 * sumsq_in]. *)
Definition zlassq_contract
    (zlassq : Z -> (Z -> R * R) -> Z -> R * R -> R * R) : Prop :=
  forall n x acc,
    ssq_ok acc ->
    ssq_ok (zlassq n x 1 acc)
    /\ ssq_value (zlassq n x 1 acc)
       = (ssq_value acc + sumR (fun k => norm2 (x k)) (seqZ 0 n))%R.

(** One more number of absolute value [t > 0] in a pair. *)
Lemma ssq_add_exact (scale sumsq t : R) :
  ssq_ok (scale, sumsq) -> (0 < t)%R ->
  let acc' :=
    if Rlt_dec scale t
    then (t, (1 + sumsq * ((scale / t) * (scale / t)))%R)
    else (scale, (sumsq + ((t / scale) * (t / scale)))%R) in
  ssq_ok acc' /\ ssq_value acc' = (ssq_value (scale, sumsq) + t * t)%R.
Proof.
  unfold ssq_ok, ssq_value. simpl. intros [Hs Hq] Ht.
  destruct (Rlt_dec scale t) as [Hlt | Hge]; simpl.
  - split.
    + split; [lra |].
      assert (0 <= sumsq * (scale / t * (scale / t)))%R; [| lra].
      apply Rmult_le_pos; [lra | apply Rle_0_sqr].
    + field. lra.
  - assert (scale <> 0)%R by lra. split.
    + split; [lra |].
      assert (0 <= t / scale * (t / scale))%R by apply Rle_0_sqr. lra.
    + field. assumption.
Qed.

Section ExactSyssq.
Variable zlassq : Z -> (Z -> R * R) -> Z -> R * R -> R * R.
Hypothesis Hzlassq : zlassq_contract zlassq.

Local Abbreviation zsyssq :=
  (Zsyssq.core_zsyssq (F := R) exact_neqb exact_cabs zlassq).

(** The calls of ZLASSQ on the columns of a triangle. *)
Lemma zlassq_columns (cols : list Z) (len : Z -> Z) (col : Z -> Z -> R * R)
    (acc : R * R) :
  ssq_ok acc ->
  let acc' := foldl (fun acc j => zlassq (len j) (col j) 1 acc) acc cols in
  ssq_ok acc'
  /\ ssq_value acc'
     = (ssq_value acc
        + sumR (fun j => sumR (fun k => norm2 (col j k)) (seqZ 0 (len j)))
            cols)%R.
Proof using Hzlassq.
  revert acc. induction cols as [| j cols IH]; intros acc Hacc.
  - simpl. split; [exact Hacc |]. unfold sumR. simpl. lra.
  - simpl. destruct (Hzlassq (len j) (col j) acc Hacc) as [Hok Hval].
    destruct (IH _ Hok) as [Hok' Hval']. split; [exact Hok' |].
    rewrite Hval', Hval, sumR_cons. lra.
Qed.

(** One round of the loop over the diagonal: a diagonal number counts
    unless its real part is 0. *)
Lemma zsyssq_diagonal_step (a : R * R) (scale sumsq : R) :
  ssq_ok (scale, sumsq) ->
  let acc' :=
    if exact_neqb a.1 f_zero then
      let absa := exact_cabs a in
      if (scale <? absa)%ops then
        (absa, (f_one + sumsq * ((scale / absa) * (scale / absa)))%ops)
      else (scale, (sumsq + ((absa / scale) * (absa / scale)))%ops)
    else (scale, sumsq) in
  ssq_ok acc'
  /\ ssq_value acc'
     = (ssq_value (scale, sumsq)
        + (if Req_dec_T a.1 0 then 0 else norm2 a))%R.
Proof.
  intros Hacc. unfold exact_neqb. cbn [f_zero exact_ops].
  destruct (Req_dec_T a.1 0) as [E | Hne]; cbn zeta.
  - split; [exact Hacc | lra].
  - assert (Hn2 : (0 < norm2 a)%R).
    { unfold norm2. assert (0 < a.1 * a.1)%R by nra.
      assert (0 <= a.2 * a.2)%R by nra. lra. }
    assert (Habs : (0 < exact_cabs a)%R) by (apply sqrt_lt_R0; exact Hn2).
    assert (Hsq : (exact_cabs a * exact_cabs a = norm2 a)%R)
      by (apply sqrt_sqrt; lra).
    pose proof (ssq_add_exact scale sumsq (exact_cabs a) Hacc Habs)
      as [Hok Hval]. cbn zeta in Hok, Hval.
    cbn [f_ltb f_one f_add f_mul f_div exact_ops].
    destruct (Rlt_dec scale (exact_cabs a)); (split; [exact Hok |]).
    all: rewrite Hval, Hsq; reflexivity.
Qed.

Lemma zsyssq_diagonal (A : Z -> R * R) (lda : Z) (rows : list Z)
    (acc : R * R) :
  ssq_ok acc ->
  let acc' :=
    foldl (fun '(scale, sumsq) i =>
             if exact_neqb (A (lda * i + i)%Z).1 f_zero then
               let absa := exact_cabs (A (lda * i + i)%Z) in
               if (scale <? absa)%ops then
                 (absa,
                  (f_one + sumsq * ((scale / absa) * (scale / absa)))%ops)
               else
                 (scale, (sumsq + ((absa / scale) * (absa / scale)))%ops)
             else (scale, sumsq))
          acc rows in
  ssq_ok acc'
  /\ ssq_value acc'
     = (ssq_value acc
        + sumR (fun i => if Req_dec_T (A (lda * i + i)%Z).1 0 then 0
                         else norm2 (A (lda * i + i)%Z)) rows)%R.
Proof.
  revert acc. induction rows as [| i rows IH]; intros acc Hacc.
  - simpl. split; [exact Hacc |]. unfold sumR. simpl. lra.
  - rewrite sumR_cons. destruct acc as [scale sumsq].
    pose proof (zsyssq_diagonal_step (A (lda * i + i)%Z) scale sumsq Hacc)
      as [Hok Hval]. cbn zeta in Hok, Hval.
    destruct (IH _ Hok) as [Hok' Hval']. cbn zeta in Hok', Hval'.
    split; [exact Hok' |].
    etransitivity; [exact Hval' |]. rewrite Hval. lra.
Qed.

(** The sum of squares of the numbers of the triangle that [uplo] names,
    without the diagonal; and that of the diagonal numbers whose real part
    is not 0. *)
Definition triangle_norm2 (uplo : plasma_enum_t) (n : Z) (A : Z -> R * R)
    (lda : Z) : R :=
  if decide (uplo = PlasmaUpper) then
    sumR (fun j => sumR (fun k => norm2 (A (lda * j + k)%Z)) (seqZ 0 j))
      (seqZ 1 (n - 1))
  else
    sumR (fun j => sumR (fun k => norm2 (A (lda * j + j + 1 + k)%Z))
                     (seqZ 0 (n - j - 1)))
      (seqZ 0 (n - 1)).

Definition diagonal_norm2 (n : Z) (A : Z -> R * R) (lda : Z) : R :=
  sumR (fun i => if Req_dec_T (A (lda * i + i)%Z).1 0 then 0%R
                 else norm2 (A (lda * i + i)%Z)) (seqZ 0 n).

(** In exact arithmetic, with a ZLASSQ that keeps its contract, the pair
    [core_zsyssq] computes from [scale = 0], [sumsq = 1] stands for twice
    the sum of squares of the triangle without the diagonal, plus the sum
    of squares of the diagonal numbers whose real part is not 0: a
    diagonal number with real part 0 is left out, whatever its imaginary
    part. *)
Theorem zsyssq_exact (uplo : plasma_enum_t) (n : Z) (A : Z -> R * R)
    (lda : Z) :
  let acc := zsyssq uplo n A lda (0%R, 1%R) in
  ssq_ok acc
  /\ ssq_value acc
     = (2 * triangle_norm2 uplo n A lda + diagonal_norm2 n A lda)%R.
Proof using Hzlassq.
  cbn zeta. unfold Zsyssq.core_zsyssq, triangle_norm2, diagonal_norm2.
  assert (H0 : ssq_ok (0%R, 1%R)) by (unfold ssq_ok; simpl; lra).
  assert (Hdouble : forall acc : R * R,
            ssq_ok acc ->
            ssq_ok (acc.1, (acc.2 * f_two)%ops)
            /\ ssq_value (acc.1, (acc.2 * f_two)%ops) = (2 * ssq_value acc)%R).
  { intros [s q] [Hs Hq]. unfold ssq_ok, ssq_value in *. simpl in *.
    split; [lra | ring]. }
  assert (Hzero : ssq_value (0%R, 1%R) = 0%R)
    by (unfold ssq_value; simpl; ring).
  destruct (decide (uplo = PlasmaUpper)) as [_ | _].
  - destruct (zlassq_columns (seqZ 1 (n - 1)) (fun j => j)
                (fun j k => A (lda * j + k)) _ H0) as [Hok Hval].
    cbn zeta in Hok, Hval.
    destruct (Hdouble _ Hok) as [Hok2 Hval2].
    destruct (zsyssq_diagonal A lda (seqZ 0 n) _ Hok2) as [Hok3 Hval3].
    cbn zeta in Hok3, Hval3. split; [exact Hok3 |].
    rewrite Hval3, Hval2, Hval, Hzero. lra.
  - destruct (zlassq_columns (seqZ 0 (n - 1)) (fun j => n - j - 1)
                (fun j k => A (lda * j + j + 1 + k)) _ H0) as [Hok Hval].
    cbn zeta in Hok, Hval.
    destruct (Hdouble _ Hok) as [Hok2 Hval2].
    destruct (zsyssq_diagonal A lda (seqZ 0 n) _ Hok2) as [Hok3 Hval3].
    cbn zeta in Hok3, Hval3. split; [exact Hok3 |].
    rewrite Hval3, Hval2, Hval, Hzero. lra.
Qed.

End ExactSyssq.

(** Reference ZLASSQ in exact arithmetic: the real and the imaginary part
    of every number, when not 0, are added to the pair. *)
Definition zlassq_add (t : R) (acc : R * R) : R * R :=
  if Rlt_dec 0 t then
    if Rlt_dec acc.1 t
    then (t, (1 + acc.2 * ((acc.1 / t) * (acc.1 / t)))%R)
    else (acc.1, (acc.2 + ((t / acc.1) * (t / acc.1)))%R)
  else acc.

Definition zlassq_exact (n : Z) (x : Z -> R * R) (incx : Z) (acc : R * R)
  : R * R :=
  foldl (fun acc k =>
           zlassq_add (Rabs (x (k * incx)%Z).2)
             (zlassq_add (Rabs (x (k * incx)%Z).1) acc))
        acc (seqZ 0 n).

Lemma zlassq_add_exact (t : R) (acc : R * R) :
  ssq_ok acc -> (0 <= t)%R ->
  ssq_ok (zlassq_add t acc)
  /\ ssq_value (zlassq_add t acc) = (ssq_value acc + t * t)%R.
Proof.
  intros Hacc Ht. unfold zlassq_add. destruct acc as [scale sumsq].
  destruct (Rlt_dec 0 t) as [Hpos | Hz].
  - exact (ssq_add_exact scale sumsq t Hacc Hpos).
  - assert (t = 0)%R as -> by lra. split; [exact Hacc | lra].
Qed.

Lemma zlassq_exact_contract : zlassq_contract zlassq_exact.
Proof.
  intros n x acc Hacc. unfold zlassq_exact.
  rewrite (foldl_ext_eq _
             (fun acc k =>
                zlassq_add (Rabs (x k).2) (zlassq_add (Rabs (x k).1) acc)))
    by (intros; rewrite Z.mul_1_r; reflexivity).
  generalize (seqZ 0 n) as l. intros l. revert acc Hacc.
  induction l as [| k l IH]; intros acc Hacc.
  - simpl. split; [exact Hacc |]. unfold sumR. simpl. lra.
  - cbn [foldl].
    destruct (zlassq_add_exact (Rabs (x k).1) acc Hacc (Rabs_pos _))
      as [Hok1 Hval1].
    destruct (zlassq_add_exact (Rabs (x k).2) _ Hok1 (Rabs_pos _))
      as [Hok2 Hval2].
    destruct (IH _ Hok2) as [Hok Hval]. split; [exact Hok |].
    rewrite sumR_cons, Hval, Hval2, Hval1. unfold norm2.
    rewrite <- !Rsqr_def, <- !Rsqr_abs. unfold Rsqr. lra.
Qed.

(** The 2 x 2 tile with [3] and [i] on the diagonal and [2] below it: the
    diagonal number [i] does not count. *)
Definition tile_3_2_i (k : Z) : R * R :=
  match k with 0 => (3, 0) | 1 => (2, 0) | 3 => (0, 1) | _ => (0, 0) end%R.

Lemma zsyssq_exact_witness :
  let acc := Zsyssq.core_zsyssq (F := R) exact_neqb exact_cabs zlassq_exact
               PlasmaLower 2 tile_3_2_i 2 (0%R, 1%R) in
  ssq_ok acc
  /\ ssq_value acc
     = (2 * triangle_norm2 PlasmaLower 2 tile_3_2_i 2
        + diagonal_norm2 2 tile_3_2_i 2)%R.
Proof.
  exact (zsyssq_exact zlassq_exact zlassq_exact_contract
           PlasmaLower 2 tile_3_2_i 2).
Defined.

(** C8, at a tile of one number.  [x != 0.0] on doubles is not
    [x == 0.0].  The tile holds the number [y i], of real part 0: the
    loop over the diagonal tests the real part alone and skips the
    number, so that [core_omp_zsyssq] leaves the pair (0, 2) whatever [y]
    is, the pair it leaves for the tile that holds 0, of sum of squares
    [scale^2 * sumsq = 0]; the tile that holds the real number 3 gives the
    pair (3, 1), of sum of squares 9. *)
Example zsyssq_skips_imaginary_diagonal
    (cabs : float * float -> float)
    (zlassq : Z -> (Z -> float * float) -> Z -> float * float -> float * float)
    (uplo : plasma_enum_t) (y : float) (acc : float * float) :
  let neqb := fun x y : float => negb (PrimFloat.eqb x y) in
  Zsyssq.core_omp_zsyssq neqb cabs zlassq uplo 1
    (fun _ => (0, y)%float) 1 acc sequence_ok
  = (0, 2)%float
  /\ (cabs (3, 0)%float = 3%float ->
      Zsyssq.core_omp_zsyssq neqb cabs zlassq uplo 1
        (fun _ => (3, 0)%float) 1 acc sequence_ok
      = (3, 1)%float).
Proof.
  cbn zeta. unfold Zsyssq.core_omp_zsyssq, Zsyssq.core_zsyssq.
  split; [destruct (decide (uplo = PlasmaUpper)); reflexivity |].
  intros Hcabs. destruct (decide (uplo = PlasmaUpper)); cbn; rewrite !Hcabs;
    reflexivity.
Qed.

(** ** Layout translation: where the numbers go *)

(** For a valid descriptor of double precision numbers that fits the
    machine, as the user's array does, with [columns_aligned], whose
    store lies below the user's array, [plasma_pdge2desc] puts the number of row [mb*tm + Y], column
    [nb*tn + X] of the array at [pA] at row [Y], column [X] of tile
    [(tm, tn)], whose leading dimension is [plasma_tile_mmain], for every
    position of the edge range of the tile; it changes nothing outside the
    tile store. *)
Theorem pdge2desc_places_elements (pA lda : Z) (A : plasma_desc_t) (h : heap) :
  general_desc_valid A = true ->
  desc_in_machine_range A = true ->
  Desc.precision A = PlasmaRealDouble ->
  0 <= lda ->
  user_array_in_machine_range lda A = true ->
  Desc.matrix A + 8 * (Desc.lm A * Desc.ln A) <= pA ->
  columns_aligned A ->
  exists h',
    plasma_pdge2desc pA lda A sequence_ok h = Some h'
    /\ (forall tm tn Y X,
          tile_in_range A tm tn ->
          edge_y1 A tm <= Y < edge_y2 A tm ->
          edge_x1 A tn <= X < edge_x2 A tn ->
          exists bdl,
            plasma_tile_addr A tm tn = Some bdl
            /\ h' !! dptr bdl (Y + X * plasma_tile_mmain A tm)
               = h !! dptr pA ((Desc.mb A * tm + Y)
                               + (Desc.nb A * tn + X) * lda))
    /\ (forall a,
          a < Desc.matrix A
          \/ Desc.matrix A + 8 * (Desc.lm A * Desc.ln A) <= a ->
          h' !! a = h !! a).
Proof.
  intros Hv Hfit Hprec Hlda Huser Hapart Hal.
  apply general_desc_valid_wf in Hv as Hwf.
  rewrite (pdge2desc_items pA lda A Hwf Hfit Hprec Hlda Huser).
  eexists. split; [reflexivity |].
  assert (Hshape : forall sd, sd ∈ layout_items pA lda A ->
            exists tm tn Y X, tile_in_range A tm tn
              /\ 0 <= Y < plasma_tile_mmain A tm
              /\ 0 <= X < plasma_tile_nmain A tn
              /\ sd = tile_copy pA lda A tm tn Y X).
  { intros sd0 Hsd0.
    apply (elem_of_layout_items pA lda A sd0 Hal) in Hsd0
      as (tm & tn & Y & X & Hin & HY & HX & ->).
    destruct Hin as [Htm Htn].
    pose proof (edge_rows_in_tile A Hwf tm Htm).
    pose proof (edge_cols_in_tile A Hwf tn Htn).
    exists tm, tn, Y, X. split; [split; assumption |].
    split; [lia |]. split; [lia | reflexivity]. }
  destruct (copies_spec (layout_items pA lda A) h) as [Hframe Hdst].
  { intros x x' Hx Hx'.
    destruct (Hshape x Hx) as (tm & tn & Y & X & Hin & HY & HX & ->).
    destruct (Hshape x' Hx') as (tm' & tn' & Y' & X' & Hin' & HY' & HX' & ->).
    pose proof (tile_copy_src_in_user pA lda A Hwf tm tn Y X Hlda Hin
                  ltac:(lia) ltac:(lia)).
    pose proof (tile_copy_dst_in_store pA lda A Hwf tm' tn' Y' X' Hin' HY' HX').
    lia. }
  split.
  - intros tm tn Y X Hin HY HX.
    rewrite (tile_addr_double A Hwf Hfit Hprec tm tn Hin).
    eexists. split; [reflexivity |].
    assert (Hsd : tile_copy pA lda A tm tn Y X ∈ layout_items pA lda A).
    { apply (elem_of_layout_items pA lda A _ Hal).
      exists tm, tn, Y, X. repeat split; try apply Hin; lia. }
    specialize (Hdst _ Hsd). unfold tile_copy in Hdst at 1 3. simpl in Hdst.
    unfold dptr.
    replace (Desc.matrix A + tile_offset_exact A tm tn * 8
             + 8 * (Y + X * plasma_tile_mmain A tm))
      with (Desc.matrix A
            + 8 * (tile_offset_exact A tm tn + Y
                   + X * plasma_tile_mmain A tm)) by lia.
    rewrite Hdst; [reflexivity |].
    intros sd' Hsd' E.
    destruct (Hshape _ Hsd') as (tm' & tn' & Y' & X' & Hin' & HY' & HX' & ->).
    destruct Hin as [Htm Htn].
    pose proof (edge_rows_in_tile A Hwf tm Htm).
    pose proof (edge_cols_in_tile A Hwf tn Htn).
    destruct (tile_copy_dst_inj pA lda A Hwf tm' tn' Y' X' tm tn Y X
                Hin' ltac:(split; assumption) HY' HX'
                ltac:(lia) ltac:(lia) E) as (-> & -> & -> & ->).
    reflexivity.
  - intros a Ha. apply Hframe. intros sd Hsd E.
    destruct (Hshape sd Hsd) as (tm & tn & Y & X & Hin & HY & HX & ->).
    pose proof (tile_copy_dst_in_store pA lda A Hwf tm tn Y X Hin HY HX).
    lia.
Qed.

Lemma pdge2desc_places_elements_witness :
  exists h',
    plasma_pdge2desc 4096 5 rows_1_to_3_view sequence_ok
      (doubles_at 4096 (count_up 35)) = Some h'
    /\ (forall tm tn Y X,
          tile_in_range rows_1_to_3_view tm tn ->
          edge_y1 rows_1_to_3_view tm <= Y < edge_y2 rows_1_to_3_view tm ->
          edge_x1 rows_1_to_3_view tn <= X < edge_x2 rows_1_to_3_view tn ->
          exists bdl,
            plasma_tile_addr rows_1_to_3_view tm tn = Some bdl
            /\ h' !! dptr bdl (Y + X * plasma_tile_mmain rows_1_to_3_view tm)
               = doubles_at 4096 (count_up 35)
                   !! dptr 4096 ((2 * tm + Y) + (3 * tn + X) * 5))
    /\ (forall a,
          a < 0 \/ 0 + 8 * (5 * 7) <= a ->
          h' !! a = doubles_at 4096 (count_up 35) !! a).
Proof.
  apply (pdge2desc_places_elements 4096 5 rows_1_to_3_view).
  - reflexivity.
  - reflexivity.
  - reflexivity.
  - lia.
  - reflexivity.
  - change (0 + 8 * (5 * 7) <= 4096). lia.
  - left. reflexivity.
Defined.

(** ** Asynchronous entry points of SYR2K and of the band translation
    ([compute/zsyr2k.c], [compute/zccrb2cm_band.c]) *)

(** [z == 1.0] of C: the real part compares equal to 1 and the imaginary
    part to 0. *)
Definition c_is_one (z : plasma_complex64_t) : bool :=
  (PrimFloat.eqb z.1 1 && PrimFloat.eqb z.2 0)%float.

Module Syr2k.
Section Async.
(** As for TRMM: the context, the tile memory, the submitted tasks, and
    the functions of the repository that the entry point calls and that
    are not among the sources. *)
Variable plasma_context_t : Type.
Variable tiles : Type.
Variable task : Type.
Variable plasma_desc_check : plasma_desc_t -> Z.
Variable plasma_pzsyr2k :
  plasma_enum_t -> plasma_enum_t ->
  plasma_complex64_t -> plasma_desc_t -> plasma_desc_t ->
  plasma_complex64_t -> plasma_desc_t ->
  plasma_sequence_t -> plasma_request_t -> Trmm.world tiles task ->
  Trmm.world tiles task * plasma_sequence_t * plasma_request_t.
(** [plasma_fatal_error] is not among the sources either: it reports the
    error, and the program goes on after it or ends there. *)
Variable plasma_fatal_error_returns : bool.

(** [plasma_omp_zsyr2k]; [None] also stands for the end of the program
    in [plasma_fatal_error]. *)
Definition plasma_omp_zsyr2k (plasma : option plasma_context_t)
    (uplo trans : plasma_enum_t)
    (alpha : plasma_complex64_t) (A B : plasma_desc_t)
    (beta : plasma_complex64_t) (C : plasma_desc_t)
    (sequence : option plasma_sequence_t) (request : option plasma_request_t)
    (w : Trmm.world tiles task)
  : option (Trmm.world tiles task * plasma_sequence_t * plasma_request_t) :=
  let fail := Trmm.request_fail_at tiles task w sequence request in
  match plasma with
  | None =>
      if plasma_fatal_error_returns then fail PLASMA_ERR_ILLEGAL_VALUE
      else None
  | Some _ =>
      if bool_decide (uplo <> PlasmaUpper /\ uplo <> PlasmaLower) then
        fail PLASMA_ERR_ILLEGAL_VALUE
      else if bool_decide (trans <> PlasmaNoTrans /\ trans <> PlasmaTrans) then
        fail PLASMA_ERR_ILLEGAL_VALUE
      else if negb (plasma_desc_check A =? PLASMA_SUCCESS) then
        fail PLASMA_ERR_ILLEGAL_VALUE
      else if negb (plasma_desc_check B =? PLASMA_SUCCESS) then
        fail PLASMA_ERR_ILLEGAL_VALUE
      else if negb (plasma_desc_check C =? PLASMA_SUCCESS) then
        fail PLASMA_ERR_ILLEGAL_VALUE
      else
        match sequence, request with
        | None, _ => fail PLASMA_ERR_ILLEGAL_VALUE
        | _, None => fail PLASMA_ERR_ILLEGAL_VALUE
        | Some s, Some r =>
            let k := if decide (trans = PlasmaNoTrans) then Desc.n A
                     else Desc.m A in
            if (Desc.m C =? 0)
               || ((c_is_zero alpha || (k =? 0)) && c_is_one beta) then
              Some (w, s, r)
            else
              Some (plasma_pzsyr2k uplo trans alpha A B beta C s r w)
        end
  end.

End Async.
End Syr2k.

Module BandOut.
Section Async.
Variable plasma_context_t : Type.
Variable tiles : Type.
Variable task : Type.
Variable plasma_desc_band_check : plasma_enum_t -> plasma_desc_t -> Z.
Variable plasma_pzooccrb2cm_band :
  plasma_enum_t -> plasma_desc_t -> Z -> Z ->
  plasma_sequence_t -> plasma_request_t -> Trmm.world tiles task ->
  Trmm.world tiles task * plasma_sequence_t * plasma_request_t.

(** [PLASMA_zccrb2cm_band_Async]: [Af77] is the user's array ([None]: a
    null pointer). *)
Definition PLASMA_zccrb2cm_band_Async (plasma : option plasma_context_t)
    (uplo : plasma_enum_t) (A : plasma_desc_t) (Af77 : option Z) (lda : Z)
    (sequence : option plasma_sequence_t) (request : option plasma_request_t)
    (w : Trmm.world tiles task)
  : option (Trmm.world tiles task * plasma_sequence_t * plasma_request_t) :=
  let fail := Trmm.request_fail_at tiles task w sequence request in
  match plasma with
  | None => fail PlasmaErrorIllegalValue
  | Some _ =>
      if negb (plasma_desc_band_check uplo A =? PlasmaSuccess) then
        fail PlasmaErrorIllegalValue
      else
        match Af77, sequence, request with
        | None, _, _ => fail PlasmaErrorIllegalValue
        | _, None, _ => fail PlasmaErrorIllegalValue
        | _, _, None => fail PlasmaErrorIllegalValue
        | Some pA, Some s, Some r =>
            if negb (Sequence.status s =? PlasmaSuccess) then
              fail PlasmaErrorSequence
            else if (Desc.m A =? 0) || (Desc.n A =? 0) then Some (w, s, r)
            else Some (plasma_pzooccrb2cm_band uplo A pA lda s r w)
        end
  end.

End Async.
End BandOut.

Section Syr2kQuickReturn.
Variable plasma_context_t : Type.
Variable tiles : Type.
Variable task : Type.
Variable plasma_desc_check : plasma_desc_t -> Z.
Variable plasma_pzsyr2k :
  plasma_enum_t -> plasma_enum_t ->
  plasma_complex64_t -> plasma_desc_t -> plasma_desc_t ->
  plasma_complex64_t -> plasma_desc_t ->
  plasma_sequence_t -> plasma_request_t -> Trmm.world tiles task ->
  Trmm.world tiles task * plasma_sequence_t * plasma_request_t.
Variable plasma_fatal_error_returns : bool.

Local Abbreviation zsyr2k_async :=
  (Syr2k.plasma_omp_zsyr2k plasma_context_t tiles task
     plasma_desc_check plasma_pzsyr2k plasma_fatal_error_returns).

(** When [C] has no row, or [beta == 1] and either [alpha == 0] or the
    inner dimension is 0, a call of [plasma_omp_zsyr2k] that returns has
    submitted no task and left every tile as it was; and when the context
    is initialized, [uplo] and [trans] are legal, the three descriptors
    pass [plasma_desc_check] and the sequence and the request are not
    null, it returns with the sequence and the request unchanged too,
    whatever the status of the sequence. *)
Theorem zsyr2k_quick_return
    (plasma : option plasma_context_t) (uplo trans : plasma_enum_t)
    (alpha beta : plasma_complex64_t) (A B C : plasma_desc_t)
    (sequence : option plasma_sequence_t) (request : option plasma_request_t)
    (w : Trmm.world tiles task) :
  (Desc.m C =? 0)
  || ((c_is_zero alpha
       || ((if decide (trans = PlasmaNoTrans) then Desc.n A else Desc.m A)
           =? 0))
      && c_is_one beta) = true ->
  (forall w' s' r',
     zsyr2k_async plasma uplo trans alpha A B beta C sequence request w
     = Some (w', s', r') -> w' = w)
  /\ (forall s r,
        is_Some plasma -> sequence = Some s -> request = Some r ->
        uplo = PlasmaUpper \/ uplo = PlasmaLower ->
        trans = PlasmaNoTrans \/ trans = PlasmaTrans ->
        plasma_desc_check A = PLASMA_SUCCESS ->
        plasma_desc_check B = PLASMA_SUCCESS ->
        plasma_desc_check C = PLASMA_SUCCESS ->
        zsyr2k_async plasma uplo trans alpha A B beta C sequence request w
        = Some (w, s, r)).
Proof.
  intros Hquick. split.
  - intros w' s' r'. unfold Syr2k.plasma_omp_zsyr2k. cbn zeta.
    rewrite Hquick.
    repeat case_match; subst;
      first [ apply request_fail_at_world
            | intros [= <- _ _]; reflexivity
            | discriminate ].
  - intros s r [ctx ->] -> -> Huplo Htrans HA HB HC.
    unfold Syr2k.plasma_omp_zsyr2k. cbn zeta.
    rewrite HA, HB, HC, !Z.eqb_refl, Hquick. cbn [negb].
    rewrite !bool_decide_eq_false_2 by tauto. reflexivity.
Qed.

End Syr2kQuickReturn.

Section BandOutCancelled.
Variable plasma_context_t : Type.
Variable tiles : Type.
Variable task : Type.
Variable plasma_desc_band_check : plasma_enum_t -> plasma_desc_t -> Z.
Variable plasma_pzooccrb2cm_band :
  plasma_enum_t -> plasma_desc_t -> Z -> Z ->
  plasma_sequence_t -> plasma_request_t -> Trmm.world tiles task ->
  Trmm.world tiles task * plasma_sequence_t * plasma_request_t.

Local Abbreviation band_out :=
  (BandOut.PLASMA_zccrb2cm_band_Async plasma_context_t tiles task
     plasma_desc_band_check plasma_pzooccrb2cm_band).

(** With an initialized context, a descriptor that passes the band check
    and pointers that are not null, [PLASMA_zccrb2cm_band_Async] calls the
    translation only on a sequence in state Success and a matrix that is
    not empty: on a failed sequence it fails the request with
    [PlasmaErrorSequence], on an empty matrix it leaves the sequence and
    the request as they are, and in both cases it submits no task and
    changes no tile and no number of the user's array. *)
Theorem zccrb2cm_band_no_translation
    (plasma : option plasma_context_t) (uplo : plasma_enum_t)
    (A : plasma_desc_t) (pA lda : Z)
    (s : plasma_sequence_t) (r : plasma_request_t)
    (w : Trmm.world tiles task) :
  is_Some plasma ->
  plasma_desc_band_check uplo A = PlasmaSuccess ->
  let out := band_out plasma uplo A (Some pA) lda (Some s) (Some r) w in
  (Sequence.status s <> PlasmaSuccess ->
   out = Some (w, (plasma_request_fail s r PlasmaErrorSequence).1,
               (plasma_request_fail s r PlasmaErrorSequence).2))
  /\ (Sequence.status s = PlasmaSuccess ->
      Desc.m A = 0 \/ Desc.n A = 0 -> out = Some (w, s, r))
  /\ (Sequence.status s = PlasmaSuccess ->
      Desc.m A <> 0 -> Desc.n A <> 0 ->
      out = Some (plasma_pzooccrb2cm_band uplo A pA lda s r w)).
Proof.
  intros [ctx ->] Hcheck out. subst out.
  unfold BandOut.PLASMA_zccrb2cm_band_Async.
  rewrite Hcheck, Z.eqb_refl. cbn [negb].
  destruct (Z.eqb_spec (Sequence.status s) PlasmaSuccess) as [Hs | Hs];
    cbn [negb].
  - split; [intros; contradiction |]. split.
    + intros _ [-> | ->]; rewrite ?Z.eqb_refl, ?orb_true_r; reflexivity.
    + intros _ Hm Hn.
      destruct (Z.eqb_spec (Desc.m A) 0); [contradiction |].
      destruct (Z.eqb_spec (Desc.n A) 0); [contradiction |]. reflexivity.
  - split; [| split; intros; contradiction].
    intros _. unfold Trmm.request_fail_at. simpl.
    destruct (plasma_request_fail s r PlasmaErrorSequence). reflexivity.
Qed.

End BandOutCancelled.

(** ** Solving with a QR factorization: the tile routine
    ([compute/zgeqrs.c]) *)

Definition PlasmaErrorNotInitialized : Z := -101.
Definition PLASMA_ERR_NOT_INITIALIZED : Z := PlasmaErrorNotInitialized.

(** [PlasmaRequestInitializer]: a request starts in state Success. *)
Definition PlasmaRequestInitializer : plasma_request_t :=
  Request.mk PlasmaSuccess.
Definition PLASMA_REQUEST_INITIALIZER : plasma_request_t :=
  PlasmaRequestInitializer.

Module Geqrs.
Section Async.
Variable plasma_context_t : Type.
Variable tiles : Type.
Variable task : Type.
Variable plasma_desc_check : plasma_desc_t -> Z.
Variable plasma_desc_view : plasma_desc_t -> Z -> Z -> Z -> Z -> plasma_desc_t.
Variable plasma_pzunmqr :
  plasma_enum_t -> plasma_enum_t ->
  plasma_desc_t -> plasma_desc_t -> plasma_desc_t -> Qrt.plasma_workspace_t ->
  plasma_sequence_t -> plasma_request_t -> Trmm.world tiles task ->
  Trmm.world tiles task * plasma_sequence_t * plasma_request_t.
Variable plasma_pztrsm :
  plasma_enum_t -> plasma_enum_t -> plasma_enum_t -> plasma_enum_t ->
  plasma_complex64_t -> plasma_desc_t -> plasma_desc_t ->
  plasma_sequence_t -> plasma_request_t -> Trmm.world tiles task ->
  Trmm.world tiles task * plasma_sequence_t * plasma_request_t.

(** [plasma_omp_zgeqrs]: the multiplication by [Q^H], then the triangular
    solve; both calls are given the pointers [sequence] and [request], so
    that the second one finds the sequence and the request as the first
    one left them.  [Plasma_ConjTrans] is [PlasmaConjTrans] in complex
    precision. *)
Definition plasma_omp_zgeqrs (plasma : option plasma_context_t)
    (A T B : plasma_desc_t) (work : Qrt.plasma_workspace_t)
    (sequence : option plasma_sequence_t) (request : option plasma_request_t)
    (w : Trmm.world tiles task)
  : option (Trmm.world tiles task * plasma_sequence_t * plasma_request_t) :=
  let fail := Trmm.request_fail_at tiles task w sequence request in
  match plasma with
  | None => fail PlasmaErrorIllegalValue
  | Some _ =>
      if negb (plasma_desc_check A =? PlasmaSuccess) then
        fail PlasmaErrorIllegalValue
      else if negb (plasma_desc_check T =? PlasmaSuccess) then
        fail PlasmaErrorIllegalValue
      else if negb (plasma_desc_check B =? PlasmaSuccess) then
        fail PlasmaErrorIllegalValue
      else
        match sequence, request with
        | None, _ => fail PlasmaErrorIllegalValue
        | _, None => fail PlasmaErrorIllegalValue
        | Some s, Some r =>
            if (Desc.m A =? 0) || (Desc.n A =? 0) || (Desc.n B =? 0) then
              Some (w, s, r)
            else
              let '(w, s, r) :=
                plasma_pzunmqr PlasmaLeft PlasmaConjTrans A B T work s r w in
              Some (plasma_pztrsm PlasmaLeft PlasmaUpper
                      PlasmaNoTrans PlasmaNonUnit (1, 0)%float
                      (plasma_desc_view A 0 0 (Desc.n A) (Desc.n A))
                      (plasma_desc_view B 0 0 (Desc.n A) (Desc.n B))
                      s r w)
        end
  end.

End Async.
End Geqrs.

(** ** Drivers ([compute/zsyr2k.c], [compute/zgeqrs.c],
    [compute/ztrmm.c])

    A driver validates its arguments, makes the tile matrices and the
    sequence, submits the translation to tiles, the tile routine and the
    translation back, and releases what it made.  The functions it calls
    for that are not among the sources: they are the fields of a
    [library], functions of the state of the memory and the runtime, and
    the driver's calls of them are recorded in the order it makes them. *)

Module Driver.

(** A call of a function of the library: the descriptor a creation leaves
    and the value it returns, the descriptor that is released, the
    operands of a translation. *)
Inductive call : Set :=
| desc_mat_alloc (desc : plasma_desc_t) (retval : Z)
| desc_mat_free (desc : plasma_desc_t)
| desc_general_create (desc : plasma_desc_t) (retval : Z)
| desc_destroy (desc : plasma_desc_t)
| workspace_alloc (lwork : Z) (retval : Z)
| workspace_free
| sequence_create (retval : Z)
| sequence_destroy
| zcm2ccrb_Async (pA lda : Z) (desc : plasma_desc_t)
| zccrb2cm_Async (desc : plasma_desc_t) (pA lda : Z).

#[global] Instance call_eq_dec : EqDecision call.
Proof. solve_decision. Defined.

Section Drivers.
Variable plasma_context_t : Type.
Variable tiles : Type.
Variable task : Type.

Local Abbreviation world := (Trmm.world tiles task).

(** The functions the drivers and their tile routines call. *)
Record library : Type := Library {
  context_nb : plasma_context_t -> Z;
  context_ib : plasma_context_t -> Z;
  plasma_desc_init :
    plasma_enum_t -> Z -> Z -> Z -> Z -> Z -> Z -> Z -> Z -> Z -> plasma_desc_t;
  plasma_desc_mat_alloc : plasma_desc_t -> world -> Z * plasma_desc_t * world;
  plasma_desc_mat_free : plasma_desc_t -> world -> world;
  plasma_desc_general_create :
    plasma_enum_t -> Z -> Z -> Z -> Z -> Z -> Z -> Z -> Z ->
    world -> Z * plasma_desc_t * world;
  plasma_desc_destroy : plasma_desc_t -> world -> world;
  plasma_workspace_alloc :
    Z -> plasma_enum_t -> world -> Z * Qrt.plasma_workspace_t * world;
  plasma_workspace_free : Qrt.plasma_workspace_t -> world -> world;
  plasma_sequence_create : world -> Z * plasma_sequence_t * world;
  plasma_sequence_destroy : plasma_sequence_t -> world -> world;
  PLASMA_zcm2ccrb_Async :
    Z -> Z -> plasma_desc_t -> plasma_sequence_t -> plasma_request_t ->
    world -> world * plasma_sequence_t * plasma_request_t;
  PLASMA_zccrb2cm_Async :
    plasma_desc_t -> Z -> Z -> plasma_sequence_t -> plasma_request_t ->
    world -> world * plasma_sequence_t * plasma_request_t;
  plasma_fatal_error_returns : bool;
  plasma_desc_check : plasma_desc_t -> Z;
  plasma_desc_view : plasma_desc_t -> Z -> Z -> Z -> Z -> plasma_desc_t;
  plasma_pzsyr2k :
    plasma_enum_t -> plasma_enum_t ->
    plasma_complex64_t -> plasma_desc_t -> plasma_desc_t ->
    plasma_complex64_t -> plasma_desc_t ->
    plasma_sequence_t -> plasma_request_t -> world ->
    world * plasma_sequence_t * plasma_request_t;
  plasma_pztrmm :
    plasma_enum_t -> plasma_enum_t -> plasma_enum_t -> plasma_enum_t ->
    plasma_complex64_t -> plasma_desc_t -> plasma_desc_t ->
    plasma_sequence_t -> plasma_request_t -> world ->
    world * plasma_sequence_t * plasma_request_t;
  plasma_pzunmqr :
    plasma_enum_t -> plasma_enum_t ->
    plasma_desc_t -> plasma_desc_t -> plasma_desc_t ->
    Qrt.plasma_workspace_t ->
    plasma_sequence_t -> plasma_request_t -> world ->
    world * plasma_sequence_t * plasma_request_t;
  plasma_pztrsm :
    plasma_enum_t -> plasma_enum_t -> plasma_enum_t -> plasma_enum_t ->
    plasma_complex64_t -> plasma_desc_t -> plasma_desc_t ->
    plasma_sequence_t -> plasma_request_t -> world ->
    world * plasma_sequence_t * plasma_request_t
}.

(** The state a driver runs in, with the calls made so far; a driver
    returns a value and a state, or stops at a null pointer or in
    [plasma_fatal_error] ([None]). *)
Record run : Type := Run { memory : world; calls : list call }.

Definition driver (X : Type) : Type := run -> option (X * run).

Definition ret {X : Type} (x : X) : driver X := fun s => Some (x, s).

Definition bind {X Y : Type} (m : driver X) (f : X -> driver Y) : driver Y :=
  fun s => match m s with Some (x, s') => f x s' | None => None end.

(** A call of a function of the library that returns [x]; [c x] is its
    record. *)
Definition invoke {X : Type} (f : world -> X * world) (c : X -> call)
  : driver X :=
  fun s => let '(x, w) := f (memory s) in Some (x, Run w (calls s ++ [c x])).

Definition invoke_ (f : world -> world) (c : call) : driver unit :=
  fun s => Some (tt, Run (f (memory s)) (calls s ++ [c])).

(** An asynchronous call of the library on the sequence and the request
    of the driver. *)
Definition submit
    (f : world -> world * plasma_sequence_t * plasma_request_t) (c : call)
  : driver (plasma_sequence_t * plasma_request_t) :=
  fun s => let '(w, sequence, request) := f (memory s) in
           Some ((sequence, request), Run w (calls s ++ [c])).

(** A call of the tile routine, which is among the sources. *)
Definition tile_routine
    (f : world -> option (world * plasma_sequence_t * plasma_request_t))
  : driver (plasma_sequence_t * plasma_request_t) :=
  fun s => match f (memory s) with
           | Some (w, sequence, request) =>
               Some ((sequence, request), Run w (calls s))
           | None => None
           end.

Variable lib : library.

(** [plasma_fatal_error]: the driver goes on after it if it returns. *)
Definition fatal_error : driver unit :=
  fun s => if plasma_fatal_error_returns lib then Some (tt, s) else None.

#[local] Instance driver_ret : MRet driver := @ret.
#[local] Instance driver_bind : MBind driver := fun X Y f m => bind m f.

Local Abbreviation mat_alloc desc :=
  (invoke (plasma_desc_mat_alloc lib desc)
     (fun x => desc_mat_alloc x.2 x.1)).
Local Abbreviation mat_free desc :=
  (invoke_ (plasma_desc_mat_free lib desc) (desc_mat_free desc)).
Local Abbreviation general_create precision mb nb lm ln i j m n :=
  (invoke (plasma_desc_general_create lib precision mb nb lm ln i j m n)
     (fun x => desc_general_create x.2 x.1)).
Local Abbreviation destroy desc :=
  (invoke_ (plasma_desc_destroy lib desc) (desc_destroy desc)).
Local Abbreviation new_sequence :=
  (invoke (plasma_sequence_create lib) (fun x => sequence_create x.1)).
Local Abbreviation end_sequence sequence :=
  (invoke_ (plasma_sequence_destroy lib sequence) sequence_destroy).
Local Abbreviation cm2ccrb pA lda desc sequence request :=
  (submit (PLASMA_zcm2ccrb_Async lib pA lda desc sequence request)
     (zcm2ccrb_Async pA lda desc)).
Local Abbreviation ccrb2cm desc pA lda sequence request :=
  (submit (PLASMA_zccrb2cm_Async lib desc pA lda sequence request)
     (zccrb2cm_Async desc pA lda)).

(** [PLASMA_zsyr2k]: [plasma] is what [plasma_context_self()] returns;
    [A], [B] and [C] are the user's arrays. *)
Definition PLASMA_zsyr2k (plasma : option plasma_context_t)
    (uplo trans : plasma_enum_t) (n k : Z)
    (alpha : plasma_complex64_t) (A lda B ldb : Z)
    (beta : plasma_complex64_t) (C ldc : Z) : driver Z :=
  match plasma with
  | None => fatal_error;; ret PLASMA_ERR_NOT_INITIALIZED
  | Some plasma =>
  if bool_decide (uplo <> PlasmaUpper /\ uplo <> PlasmaLower) then ret (-1)
  else if bool_decide (trans <> PlasmaNoTrans /\ trans <> PlasmaTrans)
  then ret (-2)
  else
    let Am := if decide (trans = PlasmaNoTrans) then n else k in
    let An := if decide (trans = PlasmaNoTrans) then k else n in
    let Bm := if decide (trans = PlasmaNoTrans) then n else k in
    let Bn := if decide (trans = PlasmaNoTrans) then k else n in
    if n <? 0 then ret (-3)
    else if k <? 0 then ret (-4)
    else if lda <? imax 1 Am then ret (-7)
    else if ldb <? imax 1 Bm then ret (-9)
    else if ldc <? imax 1 n then ret (-12)
    else if (n =? 0) || ((c_is_zero alpha || (k =? 0)) && c_is_one beta)
    then ret PLASMA_SUCCESS
    else
      let nb := context_nb lib plasma in
      let descA := plasma_desc_init lib PlasmaComplexDouble nb nb (nb * nb)
                     Am An 0 0 Am An in
      let descB := plasma_desc_init lib PlasmaComplexDouble nb nb (nb * nb)
                     Bm Bn 0 0 Bm Bn in
      let descC := plasma_desc_init lib PlasmaComplexDouble nb nb (nb * nb)
                     n n 0 0 n n in
      '(retval, descA) ← mat_alloc descA;
      if negb (retval =? PLASMA_SUCCESS) then ret retval else
      '(retval, descB) ← mat_alloc descB;
      if negb (retval =? PLASMA_SUCCESS) then
        (mat_free descA;; ret retval)
      else
      '(retval, descC) ← mat_alloc descC;
      if negb (retval =? PLASMA_SUCCESS) then
        (mat_free descA;; mat_free descB;; ret retval)
      else
      '(retval, sequence) ← new_sequence;
      if negb (retval =? PLASMA_SUCCESS) then (fatal_error;; ret retval)
      else
      let request := PLASMA_REQUEST_INITIALIZER in
      '(sequence, request) ← cm2ccrb A lda descA sequence request;
      '(sequence, request) ← cm2ccrb B ldb descB sequence request;
      '(sequence, request) ← cm2ccrb C ldc descC sequence request;
      '(sequence, request) ←
         tile_routine
           (Syr2k.plasma_omp_zsyr2k plasma_context_t tiles task
              (plasma_desc_check lib) (plasma_pzsyr2k lib)
              (plasma_fatal_error_returns lib)
              (Some plasma) uplo trans alpha descA descB beta descC
              (Some sequence) (Some request));
      '(sequence, request) ← ccrb2cm descC C ldc sequence request;
      mat_free descA;; mat_free descB;; mat_free descC;;
      let status := Sequence.status sequence in
      end_sequence sequence;;
      ret status
  end.

(** [PLASMA_zgeqrs]. *)
Definition PLASMA_zgeqrs (plasma : option plasma_context_t)
    (m n nrhs : Z) (pA lda : Z) (T : plasma_desc_t) (pB ldb : Z)
  : driver Z :=
  match plasma with
  | None => fatal_error;; ret PlasmaErrorNotInitialized
  | Some plasma =>
  if m <? 0 then ret (-1)
  else if (n <? 0) || (m <? n) then ret (-2)
  else if nrhs <? 0 then ret (-3)
  else if lda <? imax 1 m then ret (-5)
  else if ldb <? imax 1 (imax 1 m) then ret (-8)
  else if (m =? 0) || (n =? 0) || (nrhs =? 0) then ret PlasmaSuccess
  else
    let ib := context_ib lib plasma in
    let nb := context_nb lib plasma in
    '(retval, A) ← general_create PlasmaComplexDouble nb nb lda n 0 0 m n;
    if negb (retval =? PlasmaSuccess) then ret retval else
    '(retval, B) ←
       general_create PlasmaComplexDouble nb nb ldb nrhs 0 0 m nrhs;
    if negb (retval =? PlasmaSuccess) then (destroy A;; ret retval) else
    let lwork := ib * nb in
    '(retval, work) ←
       invoke (plasma_workspace_alloc lib lwork PlasmaComplexDouble)
         (fun x => workspace_alloc lwork x.1);
    if negb (retval =? PlasmaSuccess) then ret retval else
    '(retval, sequence) ← new_sequence;
    if negb (retval =? PlasmaSuccess) then ret retval else
    let request := PlasmaRequestInitializer in
    '(sequence, request) ← cm2ccrb pA lda A sequence request;
    '(sequence, request) ← cm2ccrb pB ldb B sequence request;
    '(sequence, request) ←
       tile_routine
         (Geqrs.plasma_omp_zgeqrs plasma_context_t tiles task
            (plasma_desc_check lib) (plasma_desc_view lib)
            (plasma_pzunmqr lib) (plasma_pztrsm lib)
            (Some plasma) A T B work (Some sequence) (Some request));
    '(sequence, request) ← ccrb2cm B pB ldb sequence request;
    invoke_ (plasma_workspace_free lib work) workspace_free;;
    destroy A;; destroy B;;
    let status := Sequence.status sequence in
    end_sequence sequence;;
    ret status
  end.

(** [PLASMA_ztrmm].  The calls in the parallel region are those of the
    master thread, each on the sequence as the call before it and the
    tasks submitted so far left it. *)
Definition PLASMA_ztrmm (plasma : option plasma_context_t)
    (side uplo transA diag : plasma_enum_t) (n nrhs : Z)
    (alpha : plasma_complex64_t) (A lda B ldb : Z) : driver Z :=
  let request := PLASMA_REQUEST_INITIALIZER in
  match plasma with
  | None => ret PLASMA_ERR_NOT_INITIALIZED
  | Some plasma =>
  let na := if decide (side = PlasmaLeft) then n else nrhs in
  if bool_decide (side <> PlasmaLeft /\ side <> PlasmaRight) then ret (-1)
  else if bool_decide (uplo <> PlasmaUpper /\ uplo <> PlasmaLower)
  then ret (-2)
  else if bool_decide (transA <> PlasmaConjTrans /\ transA <> PlasmaNoTrans
                       /\ transA <> PlasmaTrans) then ret (-3)
  else if bool_decide (diag <> PlasmaUnit /\ diag <> PlasmaNonUnit)
  then ret (-4)
  else if n <? 0 then ret (-5)
  else if nrhs <? 0 then ret (-6)
  else if lda <? imax 1 na then ret (-8)
  else if ldb <? imax 1 n then ret (-10)
  else if imin n nrhs =? 0 then ret PLASMA_SUCCESS
  else
    let nb := context_nb lib plasma in
    let descA := plasma_desc_init lib PlasmaComplexDouble nb nb (nb * nb)
                   na n 0 0 na n in
    let descB := plasma_desc_init lib PlasmaComplexDouble nb nb (nb * nb)
                   n na 0 0 n na in
    '(retval, descA) ← mat_alloc descA;
    if negb (retval =? PLASMA_SUCCESS) then ret retval else
    '(retval, descB) ← mat_alloc descB;
    if negb (retval =? PLASMA_SUCCESS) then (mat_free descA;; ret retval)
    else
    '(retval, sequence) ← new_sequence;
    if negb (retval =? PLASMA_SUCCESS) then ret retval else
    '(sequence, request) ← cm2ccrb A lda descA sequence request;
    '(sequence, request) ←
       (if Sequence.status sequence =? PLASMA_SUCCESS
        then cm2ccrb B ldb descB sequence request
        else ret (sequence, request));
    '(sequence, request) ←
       (if Sequence.status sequence =? PLASMA_SUCCESS
        then tile_routine
               (Trmm.PLASMA_ztrmm_Tile_Async plasma_context_t tiles task
                  (plasma_desc_check lib) (plasma_pztrmm lib)
                  (Some plasma) side uplo transA diag alpha descA descB
                  (Some sequence) (Some request))
        else ret (sequence, request));
    '(sequence, request) ←
       (if Sequence.status sequence =? PLASMA_SUCCESS
        then ccrb2cm descA A lda sequence request
        else ret (sequence, request));
    '(sequence, request) ←
       (if Sequence.status sequence =? PLASMA_SUCCESS
        then ccrb2cm descB B ldb sequence request
        else ret (sequence, request));
    if negb (Sequence.status sequence =? PLASMA_SUCCESS)
    then ret (Sequence.status sequence)
    else
      mat_free descA;; mat_free descB;;
      let status := Sequence.status sequence in
      end_sequence sequence;;
      ret status
  end.

End Drivers.
End Driver.

(** *** What the drivers reject, and what they return at once *)

(** The arguments [PLASMA_zsyr2k] accepts. *)
Definition zsyr2k_args_legal (uplo trans : plasma_enum_t)
    (n k lda ldb ldc : Z) : Prop :=
  (uplo = PlasmaUpper \/ uplo = PlasmaLower)
  /\ (trans = PlasmaNoTrans \/ trans = PlasmaTrans)
  /\ 0 <= n /\ 0 <= k
  /\ Z.max 1 (if decide (trans = PlasmaNoTrans) then n else k) <= lda
  /\ Z.max 1 (if decide (trans = PlasmaNoTrans) then n else k) <= ldb
  /\ Z.max 1 n <= ldc.

(** Those of [PLASMA_zgeqrs]: [ldb] is compared with [m]. *)
Definition zgeqrs_args_legal (m n nrhs lda ldb : Z) : Prop :=
  0 <= m /\ 0 <= n <= m /\ 0 <= nrhs /\ Z.max 1 m <= lda /\ Z.max 1 m <= ldb.

Ltac found_code :=
  eexists; split; [reflexivity | repeat constructor].

Ltac test_ltb a :=
  match goal with
  | |- context [Z.ltb a ?x] => destruct (Z.ltb_spec a x)
  end.

(** Unfolding a driver, reading the record of the calls of one run, and
    going through the runs of a driver. *)
Ltac run_driver :=
  unfold mbind, Driver.driver_bind, mret, Driver.driver_ret, Driver.bind,
    Driver.ret, Driver.invoke, Driver.invoke_, Driver.submit,
    Driver.tile_routine, Driver.fatal_error;
  cbn [Driver.memory Driver.calls].

Ltac in_calls :=
  cbn [Driver.calls Driver.memory app] in *;
  try match goal with |- _ ∉ _ => let H := fresh in intros H end;
  repeat match goal with
         | H : _ ∈ [] |- _ => inversion H
         | H : _ ∈ _ :: _ |- _ => apply elem_of_cons in H as [H | H]
         | H : list_elem_of _ [] |- _ => inversion H
         | H : list_elem_of _ (_ :: _) |- _ =>
             apply elem_of_cons in H as [H | H]
         | H : @eq Driver.call _ _ |- _ =>
             first [ discriminate H
                   | injection H as ? ?; subst
                   | injection H as ?; subst ]
         | H : negb (?x =? ?x) = true |- _ =>
             rewrite Z.eqb_refl in H; discriminate H
         | H : negb (?x =? ?y) = false |- _ =>
             apply negb_false_iff, Z.eqb_eq in H
         | H : negb (?x =? ?y) = true |- _ =>
             apply negb_true_iff, Z.eqb_neq in H
         end;
  try congruence;
  try (repeat first [apply list_elem_of_here | apply list_elem_of_further]).

Ltac all_runs :=
  repeat case_match;
  match goal with
  | |- None = Some _ -> _ => discriminate
  | |- Some _ = Some _ -> _ => intros [= <- <-]
  end;
  simplify_eq;
  cbn [Driver.calls Driver.memory fst snd] in *.

Section DriverProofs.
Variable plasma_context_t : Type.
Variable tiles : Type.
Variable task : Type.
Variable lib : Driver.library plasma_context_t tiles task.

Local Abbreviation zsyr2k := (Driver.PLASMA_zsyr2k plasma_context_t tiles task lib).
Local Abbreviation zgeqrs := (Driver.PLASMA_zgeqrs plasma_context_t tiles task lib).
Local Abbreviation ztrmm := (Driver.PLASMA_ztrmm plasma_context_t tiles task lib).
Local Abbreviation run := (Driver.run tiles task).
Local Abbreviation calls := (Driver.calls tiles task).

(** [PLASMA_zsyr2k] returns before it calls anything: with
    [PLASMA_ERR_NOT_INITIALIZED] when there is no context and
    [plasma_fatal_error] returns, with the negated
    position of an argument when the arguments are not legal, and with
    [PLASMA_SUCCESS] when they are legal and there is nothing to do
    ([n = 0], or [beta == 1] and [alpha == 0] or [k = 0]). *)
Theorem zsyr2k_validation (plasma : option plasma_context_t)
    (uplo trans : plasma_enum_t) (n k : Z)
    (alpha : plasma_complex64_t) (A lda B ldb : Z)
    (beta : plasma_complex64_t) (C ldc : Z) (s : run) :
  let r := zsyr2k plasma uplo trans n k alpha A lda B ldb beta C ldc s in
  (plasma = None ->
   r = if Driver.plasma_fatal_error_returns _ _ _ lib
       then Some (PLASMA_ERR_NOT_INITIALIZED, s) else None)
  /\ (is_Some plasma -> ~ zsyr2k_args_legal uplo trans n k lda ldb ldc ->
      exists code, r = Some (code, s)
                   /\ code ∈ [-1; -2; -3; -4; -7; -9; -12])
  /\ (is_Some plasma -> zsyr2k_args_legal uplo trans n k lda ldb ldc ->
      n = 0 \/ ((c_is_zero alpha = true \/ k = 0) /\ c_is_one beta = true) ->
      r = Some (PLASMA_SUCCESS, s)).
Proof.
  cbn zeta. unfold zsyr2k_args_legal.
  split; [intros ->; cbn; unfold Driver.fatal_error; case_match; reflexivity |].
  split.
  - intros [ctx ->] Hbad. unfold Driver.PLASMA_zsyr2k. rewrite !imax_max.
    case_bool_decide; [found_code |].
    case_bool_decide; [found_code |].
    destruct (Z.ltb_spec n 0); [found_code |].
    destruct (Z.ltb_spec k 0); [found_code |].
    test_ltb lda; [found_code |].
    test_ltb ldb; [found_code |].
    test_ltb ldc; [found_code |].
    exfalso. apply Hbad.
    destruct (decide (uplo = PlasmaUpper)), (decide (uplo = PlasmaLower)),
      (decide (trans = PlasmaNoTrans)), (decide (trans = PlasmaTrans));
      split_and!; tauto || lia.
  - intros [ctx ->] (Huplo & Htrans & Hn & Hk & Hlda & Hldb & Hldc) Hquick.
    unfold Driver.PLASMA_zsyr2k. rewrite !imax_max.
    rewrite !bool_decide_eq_false_2 by tauto.
    destruct (Z.ltb_spec n 0); [lia |].
    destruct (Z.ltb_spec k 0); [lia |].
    test_ltb lda; [lia |].
    test_ltb ldb; [lia |].
    test_ltb ldc; [lia |].
    assert ((n =? 0) || (c_is_zero alpha || (k =? 0)) && c_is_one beta = true)
      as ->; [| reflexivity].
    destruct Hquick as [-> | [[Ha | ->] Hb]];
      rewrite ?Ha, ?Hb, ?Z.eqb_refl; [reflexivity | |].
    all: destruct (n =? 0), (c_is_zero alpha); reflexivity.
Qed.

(** [PLASMA_zgeqrs] returns before it calls anything: with
    [PlasmaErrorNotInitialized] when there is no context and
    [plasma_fatal_error] returns, with the negated
    position of an argument when the arguments are not legal
    ([0 <= n <= m], [nrhs >= 0], [lda >= max(1, m)], [ldb >= max(1, m)]),
    and with [PlasmaSuccess] when they are legal and [m], [n] or [nrhs] is
    0. *)
Theorem zgeqrs_validation (plasma : option plasma_context_t)
    (m n nrhs : Z) (pA lda : Z) (T : plasma_desc_t) (pB ldb : Z) (s : run) :
  let r := zgeqrs plasma m n nrhs pA lda T pB ldb s in
  (plasma = None ->
   r = if Driver.plasma_fatal_error_returns _ _ _ lib
       then Some (PlasmaErrorNotInitialized, s) else None)
  /\ (is_Some plasma -> ~ zgeqrs_args_legal m n nrhs lda ldb ->
      exists code, r = Some (code, s) /\ code ∈ [-1; -2; -3; -5; -8])
  /\ (is_Some plasma -> zgeqrs_args_legal m n nrhs lda ldb ->
      m = 0 \/ n = 0 \/ nrhs = 0 -> r = Some (PlasmaSuccess, s)).
Proof.
  cbn zeta. unfold zgeqrs_args_legal.
  split; [intros ->; cbn; unfold Driver.fatal_error; case_match; reflexivity |].
  split.
  - intros [ctx ->] Hbad. unfold Driver.PLASMA_zgeqrs. rewrite !imax_max.
    destruct (Z.ltb_spec m 0); [found_code |].
    destruct (Z.ltb_spec n 0); [found_code |].
    destruct (Z.ltb_spec m n); [found_code |]. cbn [orb].
    destruct (Z.ltb_spec nrhs 0); [found_code |].
    test_ltb lda; [found_code |].
    test_ltb ldb; [found_code |].
    exfalso. apply Hbad. lia.
  - intros [ctx ->] Hlegal Hquick.
    unfold Driver.PLASMA_zgeqrs. rewrite !imax_max.
    destruct (Z.ltb_spec m 0); [lia |].
    destruct (Z.ltb_spec n 0); [lia |].
    destruct (Z.ltb_spec m n); [lia |]. cbn [orb].
    destruct (Z.ltb_spec nrhs 0); [lia |].
    test_ltb lda; [lia |].
    test_ltb ldb; [lia |].
    assert ((m =? 0) || (n =? 0) || (nrhs =? 0) = true) as ->;
      [| reflexivity].
    destruct Hquick as [-> | [-> | ->]];
      rewrite ?Z.eqb_refl, ?orb_true_r; reflexivity.
Qed.

(** *** What the drivers release *)

(** When [PLASMA_zsyr2k] returns, it has freed every tile matrix it
    allocated and destroyed the sequence it created, unless
    [plasma_sequence_create] failed: then it returns the error, if
    [plasma_fatal_error] lets it return, and has freed none of the three
    matrices it allocated. *)
Theorem zsyr2k_frees_what_it_allocates (plasma : option plasma_context_t)
    (uplo trans : plasma_enum_t) (n k : Z)
    (alpha : plasma_complex64_t) (A lda B ldb : Z)
    (beta : plasma_complex64_t) (C ldc : Z) (s s' : run) (code : Z) :
  calls s = [] ->
  zsyr2k plasma uplo trans n k alpha A lda B ldb beta C ldc s
  = Some (code, s') ->
  ((forall retval, Driver.sequence_create retval ∈ calls s' ->
                   retval = PLASMA_SUCCESS) ->
   (forall desc, Driver.desc_mat_alloc desc PLASMA_SUCCESS ∈ calls s' ->
                 Driver.desc_mat_free desc ∈ calls s')
   /\ (Driver.sequence_create PLASMA_SUCCESS ∈ calls s' ->
       Driver.sequence_destroy ∈ calls s'))
  /\ (forall retval, Driver.sequence_create retval ∈ calls s' ->
                     retval <> PLASMA_SUCCESS ->
      code = retval
      /\ forall desc, Driver.desc_mat_free desc ∉ calls s').
Proof.
  destruct s as [w l]. cbn [Driver.calls]. intros ->.
  unfold Driver.PLASMA_zsyr2k.
  destruct plasma as [ctx |]; cbn zeta; run_driver; all_runs.
  all: split; [intros Hseq; split; [intros desc Hd | intros Hd]
              | intros retval Hd Hne; split; [| intros desc Hf]].
  all: try (specialize (Hseq _ ltac:(in_calls))).
  all: in_calls.
Qed.

(** When [PLASMA_zgeqrs] returns after [plasma_sequence_create]
    succeeded, it has destroyed the descriptors it created, freed the
    workspace and destroyed the sequence; when creating [B] fails it has
    destroyed [A]; when [plasma_workspace_alloc] or
    [plasma_sequence_create] fails it returns the error and has released
    nothing. *)
Theorem zgeqrs_releases (plasma : option plasma_context_t)
    (m n nrhs : Z) (pA lda : Z) (T : plasma_desc_t) (pB ldb : Z)
    (s s' : run) (code : Z) :
  calls s = [] ->
  zgeqrs plasma m n nrhs pA lda T pB ldb s = Some (code, s') ->
  (Driver.sequence_create PlasmaSuccess ∈ calls s' ->
   (forall desc, Driver.desc_general_create desc PlasmaSuccess ∈ calls s' ->
                 Driver.desc_destroy desc ∈ calls s')
   /\ Driver.workspace_free ∈ calls s'
   /\ Driver.sequence_destroy ∈ calls s')
  /\ (forall descA descB retval rest,
        calls s' = Driver.desc_general_create descA PlasmaSuccess
                   :: Driver.desc_general_create descB retval :: rest ->
        retval <> PlasmaSuccess ->
        code = retval /\ rest = [Driver.desc_destroy descA])
  /\ (forall lwork retval,
        Driver.workspace_alloc lwork retval ∈ calls s'
        \/ Driver.sequence_create retval ∈ calls s' ->
        retval <> PlasmaSuccess ->
        code = retval
        /\ (Driver.workspace_free ∉ calls s')
        /\ forall desc, Driver.desc_destroy desc ∉ calls s').
Proof.
  destruct s as [w l]. cbn [Driver.calls]. intros ->.
  unfold Driver.PLASMA_zgeqrs.
  destruct plasma as [ctx |]; cbn zeta; run_driver; all_runs.
  all: split_and!; intros; try split_and!; intros.
  all: repeat match goal with H : _ \/ _ |- _ => destruct H end.
  all: simplify_eq; try tauto; try reflexivity.
  all: in_calls.
Qed.

(** When [PLASMA_ztrmm] returns after [plasma_sequence_create]
    succeeded: if it returns [PLASMA_SUCCESS] it has freed the two tile
    matrices and destroyed the sequence; if it returns anything else (the
    status of the failed sequence) it has freed no matrix and has not
    destroyed the sequence. *)
Theorem ztrmm_releases_on_success (plasma : option plasma_context_t)
    (side uplo transA diag : plasma_enum_t) (n nrhs : Z)
    (alpha : plasma_complex64_t) (A lda B ldb : Z)
    (s s' : run) (code : Z) :
  calls s = [] ->
  ztrmm plasma side uplo transA diag n nrhs alpha A lda B ldb s
  = Some (code, s') ->
  Driver.sequence_create PLASMA_SUCCESS ∈ calls s' ->
  (code = PLASMA_SUCCESS ->
   (forall desc, Driver.desc_mat_alloc desc PLASMA_SUCCESS ∈ calls s' ->
                 Driver.desc_mat_free desc ∈ calls s')
   /\ Driver.sequence_destroy ∈ calls s')
  /\ (code <> PLASMA_SUCCESS ->
      (Driver.sequence_destroy ∉ calls s')
      /\ forall desc, Driver.desc_mat_free desc ∉ calls s').
Proof.
  destruct s as [w l]. cbn [Driver.calls]. intros ->.
  unfold Driver.PLASMA_ztrmm.
  destruct plasma as [ctx |]; cbn zeta; run_driver; all_runs.
  all: intros Hseq; split; intros Hcode; split; intros.
  all: in_calls.
Qed.

End DriverProofs.

(** A library for runs on small matrices: tiles of order 4, inner blocks
    of 2, creations that succeed, descriptors checked with the invariants
    of section 3.1, and translations and parallel functions that submit
    nothing. *)
Definition no_async (s : plasma_sequence_t) (r : plasma_request_t)
    (w : Trmm.world unit unit)
  : Trmm.world unit unit * plasma_sequence_t * plasma_request_t :=
  (w, s, r).

Definition plain_library : Driver.library unit unit unit :=
  {| Driver.context_nb := fun _ => 4;
     Driver.context_ib := fun _ => 2;
     Driver.plasma_desc_init :=
       fun precision mb nb bsiz lm ln i j m n =>
         plasma_desc_general_init precision 0 mb nb lm ln i j m n;
     Driver.plasma_desc_mat_alloc := fun desc w => (PLASMA_SUCCESS, desc, w);
     Driver.plasma_desc_mat_free := fun _ w => w;
     Driver.plasma_desc_general_create :=
       fun precision mb nb lm ln i j m n w =>
         (PlasmaSuccess,
          plasma_desc_general_init precision 0 mb nb lm ln i j m n, w);
     Driver.plasma_desc_destroy := fun _ w => w;
     Driver.plasma_workspace_alloc :=
       fun lwork _ w => (PlasmaSuccess, Qrt.Workspace lwork (fun _ => 0), w);
     Driver.plasma_workspace_free := fun _ w => w;
     Driver.plasma_sequence_create := fun w => (PlasmaSuccess, sequence_ok, w);
     Driver.plasma_sequence_destroy := fun _ w => w;
     Driver.PLASMA_zcm2ccrb_Async := fun _ _ _ => no_async;
     Driver.PLASMA_zccrb2cm_Async := fun _ _ _ => no_async;
     Driver.plasma_fatal_error_returns := true;
     Driver.plasma_desc_check := check_by_invariants;
     Driver.plasma_desc_view := fun A _ _ _ _ => A;
     Driver.plasma_pzsyr2k := fun _ _ _ _ _ _ _ => no_async;
     Driver.plasma_pztrmm := fun _ _ _ _ _ _ _ => no_async;
     Driver.plasma_pzunmqr := fun _ _ _ _ _ _ => no_async;
     Driver.plasma_pztrsm := fun _ _ _ _ _ _ _ => no_async |}.

Definition first_run : Driver.run unit unit :=
  Driver.Run unit unit empty_world [].

(** The band check of the witness below: the descriptor is one of a band
    matrix. *)
Definition band_check_by_type (uplo : plasma_enum_t) (A : plasma_desc_t)
  : Z :=
  if decide (Desc.type A = PlasmaGeneralBand) then PlasmaSuccess
  else PlasmaErrorIllegalValue.

Lemma zsyr2k_quick_return_witness :
  Syr2k.plasma_omp_zsyr2k unit unit unit check_by_invariants
    (fun _ _ _ _ _ _ _ => no_async) true (Some tt)
    PlasmaUpper PlasmaNoTrans (0, 0)%float trmm_B trmm_B (1, 0)%float trmm_A
    (Some (Sequence.mk PlasmaErrorSequence))
    (Some (Request.mk PlasmaSuccess)) empty_world
  = Some (empty_world, Sequence.mk PlasmaErrorSequence,
          Request.mk PlasmaSuccess).
Proof.
  destruct (zsyr2k_quick_return unit unit unit check_by_invariants
              (fun _ _ _ _ _ _ _ => no_async) true (Some tt)
              PlasmaUpper PlasmaNoTrans (0, 0)%float (1, 0)%float
              trmm_B trmm_B trmm_A
              (Some (Sequence.mk PlasmaErrorSequence))
              (Some (Request.mk PlasmaSuccess)) empty_world eq_refl)
    as [_ Hquick].
  apply Hquick; try reflexivity; eauto.
Defined.

Lemma zccrb2cm_band_no_translation_witness :
  BandOut.PLASMA_zccrb2cm_band_Async unit unit unit band_check_by_type
    (fun _ _ _ _ => no_async) (Some tt) PlasmaUpper upper_band_8_by_8
    (Some 0) 8 (Some (Sequence.mk PlasmaErrorIllegalValue))
    (Some (Request.mk PlasmaSuccess)) empty_world
  = Some (empty_world, Sequence.mk PlasmaErrorIllegalValue,
          Request.mk PlasmaErrorIllegalValue).
Proof.
  destruct (zccrb2cm_band_no_translation unit unit unit band_check_by_type
              (fun _ _ _ _ => no_async) (Some tt) PlasmaUpper
              upper_band_8_by_8 0 8 (Sequence.mk PlasmaErrorIllegalValue)
              (Request.mk PlasmaSuccess) empty_world
              (ex_intro _ tt eq_refl) eq_refl)
    as [Hfailed _].
  apply Hfailed. discriminate.
Defined.

Lemma zsyr2k_frees_what_it_allocates_witness :
  exists code s',
    Driver.PLASMA_zsyr2k unit unit unit plain_library (Some tt)
      PlasmaUpper PlasmaNoTrans 5 9 (1, 0)%float 0 5 4096 5 (0, 0)%float
      8192 5 first_run = Some (code, s')
    /\ (forall desc,
          Driver.desc_mat_alloc desc PLASMA_SUCCESS ∈ Driver.calls _ _ s' ->
          Driver.desc_mat_free desc ∈ Driver.calls _ _ s')
    /\ Driver.sequence_destroy ∈ Driver.calls _ _ s'.
Proof.
  pose proof (zsyr2k_frees_what_it_allocates unit unit unit plain_library
                (Some tt) PlasmaUpper PlasmaNoTrans 5 9 (1, 0)%float 0 5
                4096 5 (0, 0)%float 8192 5 first_run) as Hrun.
  vm_compute in Hrun.
  eexists _, _. split; [vm_compute; reflexivity |].
  destruct (Hrun _ _ eq_refl eq_refl) as [[Hfree Hseq] _].
  - intros retval Hin. in_calls.
  - split; [exact Hfree |]. apply Hseq. in_calls.
Defined.

Lemma zgeqrs_releases_witness :
  exists code s',
    Driver.PLASMA_zgeqrs unit unit unit plain_library (Some tt)
      9 5 3 0 9 trmm_A 4096 9 first_run = Some (code, s')
    /\ (forall desc,
          Driver.desc_general_create desc PlasmaSuccess
          ∈ Driver.calls _ _ s' ->
          Driver.desc_destroy desc ∈ Driver.calls _ _ s')
    /\ Driver.workspace_free ∈ Driver.calls _ _ s'
    /\ Driver.sequence_destroy ∈ Driver.calls _ _ s'.
Proof.
  eexists _, _. split; [vm_compute; reflexivity |].
  destruct (zgeqrs_releases unit unit unit plain_library
              (Some tt) 9 5 3 0 9 trmm_A 4096 9 first_run _ _
              eq_refl eq_refl)
    as [Hreleased _].
  apply Hreleased. vm_compute. in_calls.
Defined.

Lemma ztrmm_releases_on_success_witness :
  exists s',
    Driver.PLASMA_ztrmm unit unit unit plain_library (Some tt)
      PlasmaLeft PlasmaUpper PlasmaNoTrans PlasmaNonUnit 5 9 (1, 0)%float
      0 5 4096 5 first_run = Some (PLASMA_SUCCESS, s')
    /\ (forall desc,
          Driver.desc_mat_alloc desc PLASMA_SUCCESS ∈ Driver.calls _ _ s' ->
          Driver.desc_mat_free desc ∈ Driver.calls _ _ s')
    /\ Driver.sequence_destroy ∈ Driver.calls _ _ s'.
Proof.
  eexists. split; [vm_compute; reflexivity |].
  destruct (ztrmm_releases_on_success unit unit unit plain_library
              (Some tt) PlasmaLeft PlasmaUpper PlasmaNoTrans PlasmaNonUnit
              5 9 (1, 0)%float 0 5 4096 5 first_run _ _ eq_refl eq_refl)
    as [Hfreed _].
  - vm_compute. in_calls.
  - apply Hfreed. reflexivity.
Defined.
